(** * CacheManager and ErrorHandler of fhevm-voting-system

    A shallow embedding of the in-memory TTL cache ([CacheManager]) and of the
    retry helper ([ErrorHandler.retry], [ErrorHandler.classifyError]), with the
    properties the specification states about them, and further properties
    of these classes and of the history of [StateManager].

    - JavaScript values are the inductive type [jsval].  Numbers are the
      integers ([Z], exact arithmetic); [NaN], the infinities, negative zero
      and fractions have no counterpart here.  Strings are sequences of code
      units below 256 ([string]).  Objects are association lists in property
      order; the engine's reordering of array-index property names is not
      represented.
    - [JSON.stringify] and [JSON.parse] are defined on these values and on
      text, and proved to be inverse on the values of the JSON data model.
    - Every operation of the cache takes the state of the cache and returns
      the new state.  [Date.now()] is an explicit argument [now]; an
      operation reads the clock once.
    - The tables of the cache are insertion-ordered maps, as [Map] is.
    - What is said of keys that [denormalizeKey] reads is said of the keys
      on which this reading is the engine's ([CacheManager.well_read]): a
      text with a fraction, an integer beyond 2^53, an escape above 255 or
      an object with index names is not among them.
    - A timer runs its callback from the clock of [setTimeout] plus the
      delay on; the engine takes a delay above 2^31 - 1 ms for a short one,
      so what is said of timers bounds the delay.
    - Scores and backoff delays are exact products; the engine rounds them
      to doubles, so what is said of them bounds the numbers, or does not
      say which entry a comparison of scores picks.
    - What [fn] throws in [retry] is an object whose [message] is a string
      or is missing, as [classifyError] expects.
    - The storage methods of the cache ([saveKeyToStorage],
      [removeKeyFromStorage], [clearStorage], ...) have empty bodies in the
      source and do not appear; [compress] and [encrypt] return their
      argument, as in the source. *)

From Stdlib Require Import String Ascii List ZArith QArith Lia Bool Arith.
From Stdlib Require Import Decimal DecimalFacts DecimalPos DecimalString.
Import ListNotations.

Local Open Scope Z_scope.

(* ================================================================== *)
(** ** JavaScript values *)

#[local] Set Warnings "-register-all".

Inductive jsval : Type :=
| JUndefined
| JNull
| JBool (b : bool)
| JNum (n : Z)
| JStr (s : string)
| JArr (l : list jsval)
| JObj (m : list (string * jsval)).

(** [ToBoolean]: the values on which [x || y] yields [y]. *)
Definition truthy (v : jsval) : bool :=
  match v with
  | JUndefined | JNull => false
  | JBool b => b
  | JNum n => negb (n =? 0)
  | JStr s => negb (String.eqb s EmptyString)
  | JArr _ | JObj _ => true
  end.

(** [a || b] on values. *)
Definition js_or (a b : jsval) : jsval := if truthy a then a else b.

(** [typeof v === 'object'] (true of [null], arrays and objects). *)
Definition typeof_object (v : jsval) : bool :=
  match v with
  | JNull | JArr _ | JObj _ => true
  | _ => false
  end.

Section jsval_induction.
Variable P : jsval -> Prop.
Hypothesis Hundef : P JUndefined.
Hypothesis Hnull : P JNull.
Hypothesis Hbool : forall b, P (JBool b).
Hypothesis Hnum : forall n, P (JNum n).
Hypothesis Hstr : forall s, P (JStr s).
Hypothesis Harr : forall l, Forall P l -> P (JArr l).
Hypothesis Hobj : forall m, Forall (fun kv => P (snd kv)) m -> P (JObj m).

Fixpoint jsval_nested_ind (v : jsval) : P v :=
  match v with
  | JUndefined => Hundef
  | JNull => Hnull
  | JBool b => Hbool b
  | JNum n => Hnum n
  | JStr s => Hstr s
  | JArr l =>
      Harr l ((fix go (l : list jsval) : Forall P l :=
                 match l with
                 | [] => Forall_nil P
                 | x :: tl => Forall_cons x (jsval_nested_ind x) (go tl)
                 end) l)
  | JObj m =>
      Hobj m ((fix go (m : list (string * jsval))
                 : Forall (fun kv => P (snd kv)) m :=
                 match m with
                 | [] => Forall_nil _
                 | kv :: tl =>
                     Forall_cons kv (jsval_nested_ind (snd kv)) (go tl)
                 end) m)
  end.
End jsval_induction.

(* ================================================================== *)
(** ** JSON text: [JSON.stringify] and [JSON.parse]

    The two built-ins of the platform that [cloneData], [normalizeKey] and
    [denormalizeKey] call.  They follow ECMA-262 on the values above. *)

Module JSON.

Local Open Scope string_scope.

Definition dquote : ascii := "034"%char.
Definition backslash : ascii := "092"%char.

Definition hex_digit (n : nat) : ascii :=
  match n with
  | 0 => "0" | 1 => "1" | 2 => "2" | 3 => "3" | 4 => "4"
  | 5 => "5" | 6 => "6" | 7 => "7" | 8 => "8" | 9 => "9"
  | 10 => "a" | 11 => "b" | 12 => "c" | 13 => "d" | 14 => "e"
  | _ => "f"
  end%char%nat.

(** One code unit of [QuoteJSONString]. *)
Definition quote_char (c : ascii) : string :=
  if Ascii.eqb c dquote then String backslash (String dquote EmptyString)
  else if Ascii.eqb c backslash then String backslash (String backslash EmptyString)
  else if Ascii.eqb c "008" then String backslash "b"
  else if Ascii.eqb c "012" then String backslash "f"
  else if Ascii.eqb c "010" then String backslash "n"
  else if Ascii.eqb c "013" then String backslash "r"
  else if Ascii.eqb c "009" then String backslash "t"
  else if (nat_of_ascii c <? 32)%nat then
    String backslash
      (String "u" (String "0" (String "0"
         (String (hex_digit (nat_of_ascii c / 16))
            (String (hex_digit (nat_of_ascii c mod 16)) EmptyString)))))
  else String c EmptyString.

Fixpoint quote_body (s : string) : string :=
  match s with
  | EmptyString => EmptyString
  | String c r => quote_char c ++ quote_body r
  end.

Definition quote (s : string) : string :=
  String dquote (quote_body s ++ String dquote EmptyString).

(** [Number::toString] on an integer. *)
Definition print_Z (z : Z) : string :=
  match z with
  | Z0 => "0"
  | Zpos p => NilEmpty.string_of_uint (Pos.to_uint p)
  | Zneg p => String "-" (NilEmpty.string_of_uint (Pos.to_uint p))
  end.

Fixpoint join_comma (l : list string) : string :=
  match l with
  | [] => EmptyString
  | [x] => x
  | x :: tl => x ++ String "," (join_comma tl)
  end.

(** [SerializeJSONProperty]: [None] is the result [undefined]. *)
Fixpoint stringify_val (v : jsval) : option string :=
  match v with
  | JUndefined => None
  | JNull => Some "null"
  | JBool true => Some "true"
  | JBool false => Some "false"
  | JNum n => Some (print_Z n)
  | JStr s => Some (quote s)
  | JArr l =>
      Some (String "[" (join_comma
         (List.map (fun x => match stringify_val x with
                             | Some s => s
                             | None => "null"
                             end) l) ++ "]"))
  | JObj m =>
      Some (String "{" (join_comma
         (List.flat_map (fun kv => match stringify_val (snd kv) with
                                   | Some s => [quote (fst kv) ++ String ":" s]
                                   | None => []
                                   end) m) ++ "}"))
  end.

(** [JSON.stringify(v)] with no replacer and no indentation. *)
Definition stringify (v : jsval) : option string := stringify_val v.

(** *** Lexical helpers of [JSON.parse] *)

Definition is_ws (c : ascii) : bool :=
  Ascii.eqb c " " || Ascii.eqb c "009" || Ascii.eqb c "010" || Ascii.eqb c "013".

Fixpoint skip_ws (s : string) : string :=
  match s with
  | String c r => if is_ws c then skip_ws r else s
  | EmptyString => s
  end.

Definition digit_of_char (c : ascii) : option (uint -> uint) :=
  match c with
  | "0" => Some D0 | "1" => Some D1 | "2" => Some D2 | "3" => Some D3
  | "4" => Some D4 | "5" => Some D5 | "6" => Some D6 | "7" => Some D7
  | "8" => Some D8 | "9" => Some D9
  | _ => None
  end%char.

(** The longest prefix of decimal digits, and what follows it. *)
Fixpoint take_digits (s : string) : uint * string :=
  match s with
  | String c r =>
      match digit_of_char c with
      | Some d => let (u, r') := take_digits r in (d u, r')
      | None => (Nil, s)
      end
  | EmptyString => (Nil, s)
  end.

(** The integer part of a JSON number: [0] or a digit string that does not
    start with [0]. *)
Definition int_part_ok (u : uint) : bool :=
  match u with
  | Nil => false
  | D0 Nil => true
  | D0 _ => false
  | _ => true
  end.

(** The optional fraction: its digits (at least one), [Nil] when absent. *)
Definition take_frac (s : string) : option (uint * string) :=
  match s with
  | String "." r =>
      match take_digits r with
      | (Nil, _) => None
      | (f, r') => Some (f, r')
      end
  | _ => Some (Nil, s)
  end.

(** The optional exponent, [0] when absent. *)
Definition take_exp (s : string) : option (Z * string) :=
  let digits (neg : bool) (r : string) :=
    match take_digits r with
    | (Nil, _) => None
    | (e, r') => Some (if neg then (- Z.of_uint e)%Z else Z.of_uint e, r')
    end in
  match s with
  | String c r =>
      if Ascii.eqb c "e" || Ascii.eqb c "E" then
        match r with
        | String "+" r1 => digits false r1
        | String "-" r1 => digits true r1
        | _ => digits false r
        end
      else Some (0%Z, s)
  | EmptyString => Some (0%Z, s)
  end.

(** A JSON number literal.  The literal denotes [m * 10^e]; it is read when
    that is an integer, and is outside the values of this model otherwise. *)
Definition parse_number (s : string) : option (Z * string) :=
  let (neg, s1) := match s with
                   | String "-" r => (true, r)
                   | _ => (false, s)
                   end in
  let (ip, s2) := take_digits s1 in
  if int_part_ok ip then
    match take_frac s2 with
    | Some (fp, s3) =>
        match take_exp s3 with
        | Some (ex, s4) =>
            let m := Z.of_uint (Decimal.app ip fp) in
            let e := (ex - Z.of_nat (nb_digits fp))%Z in
            let sign (z : Z) := if neg then (- z)%Z else z in
            if (0 <=? e)%Z then Some (sign (m * 10 ^ e)%Z, s4)
            else if (m mod 10 ^ (- e) =? 0)%Z then Some (sign (m / 10 ^ (- e))%Z, s4)
            else None
        | None => None
        end
    | None => None
    end
  else None.

Definition hex_value (c : ascii) : option nat :=
  let n := nat_of_ascii c in
  if ((48 <=? n) && (n <=? 57))%nat then Some (n - 48)%nat
  else if ((97 <=? n) && (n <=? 102))%nat then Some (n - 87)%nat
  else if ((65 <=? n) && (n <=? 70))%nat then Some (n - 55)%nat
  else None.

(** The single-character escapes. *)
Definition unescape (c : ascii) : option ascii :=
  if Ascii.eqb c dquote then Some dquote
  else if Ascii.eqb c backslash then Some backslash
  else if Ascii.eqb c "/" then Some "/"%char
  else if Ascii.eqb c "b" then Some "008"%char
  else if Ascii.eqb c "f" then Some "012"%char
  else if Ascii.eqb c "n" then Some "010"%char
  else if Ascii.eqb c "r" then Some "013"%char
  else if Ascii.eqb c "t" then Some "009"%char
  else None.

(** A string literal after its opening quote: the string it denotes and the
    text after the closing quote.  A [\u] escape of a code unit above 255 is
    outside the strings of this model. *)
Fixpoint parse_string_body (s : string) : option (string * string) :=
  match s with
  | EmptyString => None
  | String c r =>
      if Ascii.eqb c dquote then Some (EmptyString, r)
      else if Ascii.eqb c backslash then
        match r with
        | EmptyString => None
        | String e r1 =>
            if Ascii.eqb e "u" then
              match r1 with
              | String h1 (String h2 (String h3 (String h4 r2))) =>
                  match hex_value h1, hex_value h2, hex_value h3, hex_value h4 with
                  | Some a, Some b, Some c', Some d =>
                      if ((a =? 0) && (b =? 0))%nat then
                        match parse_string_body r2 with
                        | Some (t, r3) =>
                            Some (String (ascii_of_nat (16 * c' + d)) t, r3)
                        | None => None
                        end
                      else None
                  | _, _, _, _ => None
                  end
              | _ => None
              end
            else
              match unescape e with
              | Some c' =>
                  match parse_string_body r1 with
                  | Some (t, r2) => Some (String c' t, r2)
                  | None => None
                  end
              | None => None
              end
        end
      else if (nat_of_ascii c <? 32)%nat then None
      else
        match parse_string_body r with
        | Some (t, r') => Some (String c t, r')
        | None => None
        end
  end.

(** The rest of a keyword. *)
Fixpoint expect (lit s : string) : option string :=
  match lit with
  | EmptyString => Some s
  | String a lit' =>
      match s with
      | String b s' => if Ascii.eqb a b then expect lit' s' else None
      | EmptyString => None
      end
  end.

(** Defining a property: an existing name keeps its place and takes the new
    value, a new name goes last. *)
Fixpoint obj_set (k : string) (v : jsval) (m : list (string * jsval))
  : list (string * jsval) :=
  match m with
  | [] => [(k, v)]
  | (k', v') :: tl =>
      if String.eqb k' k then (k', v) :: tl else (k', v') :: obj_set k v tl
  end.

Definition obj_of_members (ms : list (string * jsval)) : list (string * jsval) :=
  fold_left (fun m kv => obj_set (fst kv) (snd kv) m) ms [].

(** [s] without its first character, when that is [c]. *)
Definition starts_with (c : ascii) (s : string) : option string :=
  match s with
  | String c' r => if Ascii.eqb c' c then Some r else None
  | EmptyString => None
  end.

(** *** The recursive-descent parser

    [fuel] bounds the recursion depth.  [parse] supplies twice the length of
    the text and two more; no larger supply reads any text differently
    ([JSONFacts.parse_fuel_enough]). *)
Fixpoint parse_value (fuel : nat) (s : string) : option (jsval * string) :=
  match fuel with
  | O => None
  | S f =>
      match skip_ws s with
      | EmptyString => None
      | String c r =>
          if Ascii.eqb c "n" then option_map (pair JNull) (expect "ull" r)
          else if Ascii.eqb c "t" then option_map (pair (JBool true)) (expect "rue" r)
          else if Ascii.eqb c "f" then option_map (pair (JBool false)) (expect "alse" r)
          else if Ascii.eqb c dquote then
            match parse_string_body r with
            | Some (t, r') => Some (JStr t, r')
            | None => None
            end
          else if Ascii.eqb c "[" then
            match starts_with "]" (skip_ws r) with
            | Some r' => Some (JArr [], r')
            | None =>
                match parse_elements f r with
                | Some (l, r') => Some (JArr l, r')
                | None => None
                end
            end
          else if Ascii.eqb c "{" then
            match starts_with "}" (skip_ws r) with
            | Some r' => Some (JObj [], r')
            | None =>
                match parse_members f r with
                | Some (ms, r') => Some (JObj (obj_of_members ms), r')
                | None => None
                end
            end
          else
            match parse_number (String c r) with
            | Some (z, r') => Some (JNum z, r')
            | None => None
            end
      end
  end

with parse_elements (fuel : nat) (s : string) : option (list jsval * string) :=
  match fuel with
  | O => None
  | S f =>
      match parse_value f s with
      | Some (v, r) =>
          match starts_with "," (skip_ws r) with
          | Some r' =>
              match parse_elements f r' with
              | Some (l, r'') => Some (v :: l, r'')
              | None => None
              end
          | None =>
              match starts_with "]" (skip_ws r) with
              | Some r' => Some ([v], r')
              | None => None
              end
          end
      | None => None
      end
  end

with parse_members (fuel : nat) (s : string)
  : option (list (string * jsval) * string) :=
  match fuel with
  | O => None
  | S f =>
      match starts_with dquote (skip_ws s) with
      | Some r =>
          match parse_string_body r with
          | Some (k, r1) =>
              match starts_with ":" (skip_ws r1) with
              | Some r2 =>
                  match parse_value f r2 with
                  | Some (v, r3) =>
                      match starts_with "," (skip_ws r3) with
                      | Some r4 =>
                          match parse_members f r4 with
                          | Some (ms, r5) => Some ((k, v) :: ms, r5)
                          | None => None
                          end
                      | None =>
                          match starts_with "}" (skip_ws r3) with
                          | Some r4 => Some ([(k, v)], r4)
                          | None => None
                          end
                      end
                  | None => None
                  end
              | None => None
              end
          | None => None
          end
      | None => None
      end
  end.

(** [JSON.parse(s)]: [None] is a thrown [SyntaxError]. *)
Definition parse (s : string) : option jsval :=
  match parse_value (2 * String.length s + 2) s with
  | Some (v, r) =>
      match skip_ws r with
      | EmptyString => Some v
      | _ => None
      end
  | None => None
  end.

(** The values of the JSON data model: no [undefined] inside, and the
    property names of an object pairwise distinct. *)
Fixpoint distinct (l : list string) : bool :=
  match l with
  | [] => true
  | k :: tl => negb (existsb (String.eqb k) tl) && distinct tl
  end.

Fixpoint json_value (v : jsval) : bool :=
  match v with
  | JUndefined => false
  | JArr l => forallb json_value l
  | JObj m =>
      forallb (fun kv => json_value (snd kv)) m && distinct (List.map fst m)
  | _ => true
  end.

(** *** The values this model writes and reads as the engine does

    A number is an integer that a double holds exactly and that
    [Number::toString] writes digit by digit; an object has no property
    whose name is a string of digits, since the engine lists such names
    first and in numeric order, wherever they were defined. *)
Definition safe_integer (n : Z) : bool :=
  (Z.abs n <=? 9007199254740991)%Z.

Fixpoint all_digits (s : string) : bool :=
  match s with
  | EmptyString => true
  | String c r =>
      match digit_of_char c with
      | Some _ => all_digits r
      | None => false
      end
  end.

Definition index_name (s : string) : bool :=
  match s with
  | EmptyString => false
  | _ => all_digits s
  end.

Fixpoint safe_value (v : jsval) : bool :=
  match v with
  | JUndefined => false
  | JNum n => safe_integer n
  | JArr l => forallb safe_value l
  | JObj m =>
      forallb (fun kv => negb (index_name (fst kv)) && safe_value (snd kv)) m
  | _ => true
  end.

Fixpoint jsize (v : jsval) : nat :=
  match v with
  | JArr l => S (list_sum (List.map (fun x => S (jsize x)) l))
  | JObj m => S (list_sum (List.map (fun kv => S (jsize (snd kv))) m))
  | _ => 1
  end.

(** *** Vocabulary of the round-trip proof *)

(** What may follow a number literal without being read as part of it. *)
Definition num_stop (rest : string) : bool :=
  match rest with
  | EmptyString => true
  | String c _ =>
      match digit_of_char c with
      | Some _ => false
      | None => negb (Ascii.eqb c "." || Ascii.eqb c "e" || Ascii.eqb c "E")
      end
  end.

(** The first character of a serialized value: no white space, no closing
    bracket. *)
Definition head_ok (s : string) : bool :=
  match s with
  | String c _ => negb (is_ws c || Ascii.eqb c "]" || Ascii.eqb c "}")
  | EmptyString => false
  end.

Definition num_head (s : string) : bool :=
  match s with
  | String c _ =>
      Ascii.eqb c "-" || match digit_of_char c with Some _ => true | None => false end
  | EmptyString => false
  end.

(** The text of an array element and of an object member. *)
Definition elem_text (x : jsval) : string :=
  match stringify_val x with Some s => s | None => "null" end.

Definition member_text (kv : string * jsval) : list string :=
  match stringify_val (snd kv) with
  | Some s => [quote (fst kv) ++ String ":" s]
  | None => []
  end.

(** Reading back the text of [v], whatever follows it. *)
Definition reads_back (v : jsval) : Prop :=
  forall s fuel rest,
    json_value v = true ->
    stringify_val v = Some s ->
    (jsize v <= fuel)%nat ->
    num_stop rest = true ->
    parse_value fuel (s ++ rest) = Some (v, rest).

End JSON.

(* ================================================================== *)
(** ** [Map]: an insertion-ordered finite map

    The four tables of the cache are JavaScript [Map]s.  A [Map] iterates in
    insertion order; [set] on a key that is present keeps its position.  The
    keys of the cache are the results of [normalizeKey]: a string, or
    [undefined] ([None]) when [JSON.stringify] yields no text. *)

Definition cachekey : Type := option string.

Definition key_eqb (a b : cachekey) : bool :=
  match a, b with
  | Some s, Some t => String.eqb s t
  | None, None => true
  | _, _ => false
  end.

Module JSMap.
Section JSMap.
Context {V : Type}.

Fixpoint get (k : cachekey) (m : list (cachekey * V)) : option V :=
  match m with
  | [] => None
  | (k', v) :: tl => if key_eqb k' k then Some v else get k tl
  end.

Definition has (k : cachekey) (m : list (cachekey * V)) : bool :=
  match get k m with Some _ => true | None => false end.

Fixpoint set (k : cachekey) (v : V) (m : list (cachekey * V))
  : list (cachekey * V) :=
  match m with
  | [] => [(k, v)]
  | (k', v') :: tl =>
      if key_eqb k' k then (k', v) :: tl else (k', v') :: set k v tl
  end.

Fixpoint delete (k : cachekey) (m : list (cachekey * V))
  : list (cachekey * V) :=
  match m with
  | [] => []
  | (k', v') :: tl =>
      if key_eqb k' k then tl else (k', v') :: delete k tl
  end.

Definition size (m : list (cachekey * V)) : Z := Z.of_nat (List.length m).

(** No key occurs twice: what [set] and [delete] maintain. *)
Fixpoint wf (m : list (cachekey * V)) : bool :=
  match m with
  | [] => true
  | (k, _) :: tl => negb (has k tl) && wf tl
  end.
End JSMap.
End JSMap.

(* ================================================================== *)
(** ** [CacheManager] *)

Module CacheManager.

Record Options : Type := mkOptions {
  defaultTTL : Z;
  maxSize : Z;
  compressionEnabled : bool;
  encryptionEnabled : bool
}.

(** A pending [setTimeout]: when it is due, the key its callback deletes, and
    whether [clearTimeout] has cancelled it.  The limit the platform puts on
    the delay of a timer is not represented. *)
Record Timer : Type := mkTimer {
  fireAt : Z;
  timerKey : jsval;
  cleared : bool
}.

Record Entry : Type := mkEntry {
  data : jsval;
  timestamp : Z;
  ttl : Z;
  expiresAt : Z;
  priority : string;
  tags : list string;
  size : Z;
  compressed : bool;
  encrypted : bool
}.

Record Statistics : Type := mkStatistics {
  hits : Z;
  misses : Z;
  sets : Z;
  deletes : Z;
  evictions : Z;
  totalSize : Z
}.

Record t : Type := mkCache {
  options : Options;
  cache : list (cachekey * Entry);
  timers : list (cachekey * Timer);
  accessTimes : list (cachekey * Z);
  hitCount : list (cachekey * Z);
  statistics : Statistics
}.

(** The arguments of the constructor that the cache reads: a field that is
    given replaces the default, whatever its value (the defaults are
    followed by [...options]). *)
Record CtorOptions : Type := mkCtorOptions {
  ctor_defaultTTL : option Z;
  ctor_maxSize : option Z;
  ctor_compressionEnabled : option bool;
  ctor_encryptionEnabled : option bool
}.

Definition from_option {A} (o : option A) (d : A) : A :=
  match o with Some a => a | None => d end.

Definition new (o : CtorOptions) : t :=
  {| options :=
       {| defaultTTL := from_option (ctor_defaultTTL o) (5 * 60 * 1000);
          maxSize := from_option (ctor_maxSize o) 100;
          compressionEnabled := from_option (ctor_compressionEnabled o) false;
          encryptionEnabled := from_option (ctor_encryptionEnabled o) false |};
     cache := [];
     timers := [];
     accessTimes := [];
     hitCount := [];
     statistics :=
       {| hits := 0; misses := 0; sets := 0; deletes := 0; evictions := 0;
          totalSize := 0 |} |}.

(** *** Private helpers *)

Definition normalizeKey (key : jsval) : cachekey :=
  match key with
  | JStr s => Some s
  | _ => JSON.stringify key
  end.

(** [JSON.parse(undefined)] throws, as the text [undefined] is not JSON. *)
Definition denormalizeKey (key : cachekey) : jsval :=
  match key with
  | Some s =>
      match JSON.parse s with
      | Some v => v
      | None => JStr s
      end
  | None => JUndefined
  end.

Definition isExpired (entry : Entry) (now : Z) : bool :=
  (expiresAt entry >? 0) && (now >? expiresAt entry).

Definition is_null (v : jsval) : bool :=
  match v with JNull => true | _ => false end.

Definition cloneData (d : jsval) : jsval :=
  if is_null d || negb (typeof_object d) then d
  else
    match JSON.stringify d with
    | Some s =>
        match JSON.parse s with
        | Some v => v
        | None => d
        end
    | None => d
    end.

(** [JSON.stringify(undefined).length] throws, and the size is then 0. *)
Definition calculateSize (d : jsval) : Z :=
  match JSON.stringify d with
  | Some s => Z.of_nat (String.length s)
  | None => 0
  end.

Definition compress (d : jsval) : jsval := d.
Definition encrypt (d : jsval) : jsval := d.

(** *** Updates of the record *)

Definition with_statistics (f : Statistics -> Statistics) (cm : t) : t :=
  {| options := options cm; cache := cache cm; timers := timers cm;
     accessTimes := accessTimes cm; hitCount := hitCount cm;
     statistics := f (statistics cm) |}.

Definition miss (s : Statistics) : Statistics :=
  {| hits := hits s; misses := misses s + 1; sets := sets s;
     deletes := deletes s; evictions := evictions s; totalSize := totalSize s |}.

Definition hit (s : Statistics) : Statistics :=
  {| hits := hits s + 1; misses := misses s; sets := sets s;
     deletes := deletes s; evictions := evictions s; totalSize := totalSize s |}.

Definition stored (sz : Z) (s : Statistics) : Statistics :=
  {| hits := hits s; misses := misses s; sets := sets s + 1;
     deletes := deletes s; evictions := evictions s;
     totalSize := totalSize s + sz |}.

Definition deleted (sz : Z) (s : Statistics) : Statistics :=
  {| hits := hits s; misses := misses s; sets := sets s;
     deletes := deletes s + 1; evictions := evictions s;
     totalSize := totalSize s - sz |}.

Definition evicted (s : Statistics) : Statistics :=
  {| hits := hits s; misses := misses s; sets := sets s;
     deletes := deletes s; evictions := evictions s + 1;
     totalSize := totalSize s |}.

Definition clearTimeout (tm : Timer) : Timer :=
  {| fireAt := fireAt tm; timerKey := timerKey tm; cleared := true |}.

(** *** [delete] *)

Definition delete (cm : t) (key : jsval) : bool * t :=
  let cacheKey := normalizeKey key in
  match JSMap.get cacheKey (cache cm) with
  | None => (false, cm)
  | Some entry =>
      (true,
       {| options := options cm;
          cache := JSMap.delete cacheKey (cache cm);
          timers := JSMap.delete cacheKey (timers cm);
          accessTimes := JSMap.delete cacheKey (accessTimes cm);
          hitCount := JSMap.delete cacheKey (hitCount cm);
          statistics := deleted (size entry) (statistics cm) |})
  end.

(** *** [get]

    [defaultValue] is [options.defaultValue], [JUndefined] when absent. *)
Definition get (cm : t) (key : jsval) (defaultValue : jsval) (now : Z)
  : jsval * t :=
  let cacheKey := normalizeKey key in
  match JSMap.get cacheKey (cache cm) with
  | None => (js_or defaultValue JNull, with_statistics miss cm)
  | Some entry =>
      if isExpired entry now then
        (js_or defaultValue JNull, with_statistics miss (snd (delete cm key)))
      else
        (cloneData (data entry),
         {| options := options cm;
            cache := cache cm;
            timers := timers cm;
            accessTimes := JSMap.set cacheKey now (accessTimes cm);
            hitCount :=
              JSMap.set cacheKey
                (from_option (JSMap.get cacheKey (hitCount cm)) 0 + 1)
                (hitCount cm);
            statistics := hit (statistics cm) |})
  end.

(** *** [evictLeastUsed] *)

Definition priorityWeight (p : string) : Z :=
  if String.eqb p "high" then 3 else if String.eqb p "normal" then 2 else 1.

(** [(hitCount + 1) * priority * (accessTime / 1000)], as a rational: the
    rounding of the floating-point product is not represented. *)
Definition score (cm : t) (key : cachekey) (entry : Entry) : Q :=
  let accessTime := from_option (JSMap.get key (accessTimes cm)) 0 in
  let hitCount := from_option (JSMap.get key (hitCount cm)) 0 in
  (inject_Z (hitCount + 1) * inject_Z (priorityWeight (priority entry))
   * (accessTime # 1000))%Q.

Definition Qltb (a b : Q) : bool := negb (Qle_bool b a).

(** The loop of [evictLeastUsed]: [leastUsedKey] ([None] is [null]) and
    [leastUsedScore] ([None] is [Infinity]). *)
Fixpoint leastUsed (cm : t) (entries : list (cachekey * Entry))
  (leastUsedKey : option cachekey) (leastUsedScore : option Q)
  : option cachekey * option Q :=
  match entries with
  | [] => (leastUsedKey, leastUsedScore)
  | (key, entry) :: tl =>
      let sc := score cm key entry in
      if match leastUsedScore with
         | None => true
         | Some least => Qltb sc least
         end
      then leastUsed cm tl (Some key) (Some sc)
      else leastUsed cm tl leastUsedKey leastUsedScore
  end.

(** [if (leastUsedKey)]: neither [null], nor [undefined], nor the empty
    string. *)
Definition key_truthy (k : option cachekey) : bool :=
  match k with
  | Some (Some s) => negb (String.eqb s EmptyString)
  | _ => false
  end.

Definition evictLeastUsed (cm : t) : t :=
  let leastUsedKey := fst (leastUsed cm (cache cm) None None) in
  if key_truthy leastUsedKey then
    match leastUsedKey with
    | Some k => with_statistics evicted (snd (delete cm (denormalizeKey k)))
    | None => cm
    end
  else cm.

(** *** [set] *)

Record SetOptions : Type := mkSetOptions {
  opt_ttl : option Z;
  opt_priority : option string;
  opt_tags : option (list string)
}.

(** [options.ttl || this.options.defaultTTL]: a [ttl] of 0 is replaced. *)
Definition effective_ttl (cm : t) (o : SetOptions) : Z :=
  match opt_ttl o with
  | Some n => if n =? 0 then defaultTTL (options cm) else n
  | None => defaultTTL (options cm)
  end.

Definition effective_priority (o : SetOptions) : string :=
  match opt_priority o with
  | Some p => if String.eqb p EmptyString then "normal"%string else p
  | None => "normal"%string
  end.

Definition set (cm : t) (key : jsval) (value : jsval) (o : SetOptions) (now : Z)
  : bool * t :=
  let cacheKey := normalizeKey key in
  let ttl := effective_ttl cm o in
  let priority := effective_priority o in
  let tags := from_option (opt_tags o) [] in
  let cm1 :=
    if (JSMap.size (cache cm) >=? maxSize (options cm))
       && negb (JSMap.has cacheKey (cache cm))
    then evictLeastUsed cm else cm in
  let timers1 :=
    match JSMap.get cacheKey (timers cm1) with
    | Some tm => JSMap.set cacheKey (clearTimeout tm) (timers cm1)
    | None => timers cm1
    end in
  let size := calculateSize value in
  let compressing := compressionEnabled (options cm1) && (size >? 1024) in
  let encrypting := encryptionEnabled (options cm1) in
  let data0 := cloneData value in
  let data1 := if compressing then compress data0 else data0 in
  let data2 := if encrypting then encrypt data1 else data1 in
  let entry :=
    {| data := data2; timestamp := now; ttl := ttl; expiresAt := now + ttl;
       priority := priority; tags := tags; size := size;
       compressed := compressing; encrypted := encrypting |} in
  (true,
   {| options := options cm1;
      cache := JSMap.set cacheKey entry (cache cm1);
      timers :=
        if ttl >? 0
        then JSMap.set cacheKey
               {| fireAt := now + ttl; timerKey := key; cleared := false |}
               timers1
        else timers1;
      accessTimes := JSMap.set cacheKey now (accessTimes cm1);
      hitCount := JSMap.set cacheKey 0 (hitCount cm1);
      statistics := stored size (statistics cm1) |}).

(** *** [clear]

    [pattern] stands for the [test] of the compiled regular expression, when
    a non-empty pattern is given. *)
Record ClearOptions : Type := mkClearOptions {
  clear_tags : option (list string);
  clear_pattern : option (jsval -> bool)
}.

(** [entry.tags.some(tag => tags.includes(tag))] *)
Definition tags_match (tags : list string) (entry : Entry) : bool :=
  existsb (fun tag => existsb (String.eqb tag) tags) (CacheManager.tags entry).

(** A [for ... of] over [this.cache] whose body deletes: the iteration is
    live, so an entry deleted before its turn is not visited.  [entries] is
    the table as it was when the loop started. *)
Fixpoint delete_matching (matches : cachekey -> Entry -> bool)
  (entries : list (cachekey * Entry)) (cm : t) : t :=
  match entries with
  | [] => cm
  | (key, entry) :: tl =>
      if JSMap.has key (cache cm) then
        if matches key entry
        then delete_matching matches tl (snd (delete cm (denormalizeKey key)))
        else delete_matching matches tl cm
      else delete_matching matches tl cm
  end.

Definition clear (cm : t) (o : ClearOptions) : t :=
  match clear_tags o with
  | Some (tag :: more) =>
      delete_matching (fun _ entry => tags_match (tag :: more) entry)
        (cache cm) cm
  | _ =>
      match clear_pattern o with
      | Some test =>
          delete_matching (fun key _ => test (denormalizeKey key)) (cache cm) cm
      | None =>
          {| options := options cm; cache := []; timers := [];
             accessTimes := []; hitCount := [];
             statistics :=
               {| hits := hits (statistics cm);
                  misses := misses (statistics cm);
                  sets := sets (statistics cm);
                  deletes := deletes (statistics cm);
                  evictions := evictions (statistics cm);
                  totalSize := 0 |} |}
      end
  end.

(** *** [cleanupExpired], run by the interval timer every 60000 ms *)

Definition expiredKeys (cm : t) (now : Z) : list jsval :=
  List.map (fun ke => denormalizeKey (fst ke))
    (List.filter (fun ke => isExpired (snd ke) now) (cache cm)).

Definition cleanupExpired (cm : t) (now : Z) : t :=
  fold_left (fun c key => snd (delete c key)) (expiredKeys cm now) cm.

(** The callback of an entry's expiration timer, when it is due: the delay
    is taken as given, which the engine does up to 2^31 - 1 ms. *)
Definition timerFires (cm : t) (cacheKey : cachekey) (now : Z) : t :=
  match JSMap.get cacheKey (timers cm) with
  | Some tm =>
      if negb (cleared tm) && (fireAt tm <=? now)
      then snd (delete cm (timerKey tm))
      else cm
  | None => cm
  end.

(** *** Vocabulary of the properties *)

(** What [set] stores under the normalized key. *)
Definition stored_entry (cm : t) (value : jsval) (o : SetOptions) (now : Z)
  : Entry :=
  let size := calculateSize value in
  {| data := cloneData value; timestamp := now; ttl := effective_ttl cm o;
     expiresAt := now + effective_ttl cm o;
     priority := effective_priority o; tags := from_option (opt_tags o) [];
     size := size;
     compressed := compressionEnabled (options cm) && (size >? 1024);
     encrypted := encryptionEnabled (options cm) |}.

(** A text that [JSON.parse] rejects at its first character: it is empty,
    or it starts with a character that is no white space and starts no
    JSON value, or with the first letter of a keyword that does not
    follow. *)
Definition plain_text (s : string) : bool :=
  match s with
  | EmptyString => true
  | String c r =>
      if JSON.is_ws c then false
      else if Ascii.eqb c "n" then
        match JSON.expect "ull" r with Some _ => false | None => true end
      else if Ascii.eqb c "t" then
        match JSON.expect "rue" r with Some _ => false | None => true end
      else if Ascii.eqb c "f" then
        match JSON.expect "alse" r with Some _ => false | None => true end
      else
        negb (Ascii.eqb c JSON.dquote || Ascii.eqb c "[" || Ascii.eqb c "{"
              || Ascii.eqb c "-"
              || match JSON.digit_of_char c with
                 | Some _ => true
                 | None => false
                 end)
  end.

Definition is_string_value (v : jsval) : bool :=
  match v with JStr _ => true | _ => false end.

Definition text_is (o : option string) (s : string) : bool :=
  match o with Some t => String.eqb t s | None => false end.

(** A cache key on which [denormalizeKey] does here what it does in the
    engine: the key of [undefined], a text that is plainly not JSON, or the
    text that [JSON.stringify] writes for a value that is not a string and
    that this model writes and reads as the engine does.  Texts of numbers
    that are not safe integers, of strings with escapes that are not the
    ones [JSON.stringify] writes, and of objects with index names are left
    out. *)
Definition well_read (k : cachekey) : bool :=
  match k with
  | None => true
  | Some s =>
      plain_text s
      || match JSON.parse s with
         | Some v =>
             JSON.json_value v && JSON.safe_value v
             && negb (is_string_value v) && text_is (JSON.stringify v) s
         | None => false
         end
  end.

(** A key that [denormalizeKey] and [normalizeKey] take back to itself, in
    the engine as here. *)
Definition key_returns (k : cachekey) : Prop :=
  well_read k = true /\ normalizeKey (denormalizeKey k) = k.

(** Two keys with one normalized form: equal strings, a string and the key
    whose JSON text it is, or two keys that are not strings and are
    equal. *)
Definition same_key (k1 k2 : jsval) : Prop :=
  match k1, k2 with
  | JStr s1, JStr s2 => s1 = s2
  | JStr s, k => JSON.stringify k = Some s
  | k, JStr s => JSON.stringify k = Some s
  | _, _ => k1 = k2
  end.

Definition evictable (k : cachekey) : Prop :=
  key_truthy (Some k) = true /\ key_returns k.

Definition tidy (cm : t) : Prop :=
  JSMap.wf (cache cm) = true
  /\ forall k e, In (k, e) (cache cm) -> evictable k.

(** A sequence of [set] calls: key, value, options and the clock of each. *)
Fixpoint set_all (calls : list (jsval * jsval * SetOptions * Z)) (cm : t) : t :=
  match calls with
  | [] => cm
  | (key, value, o, now) :: tl => set_all tl (snd (set cm key value o now))
  end.

(** *** [has] *)

Definition has (cm : t) (key : jsval) (now : Z) : bool * t :=
  let cacheKey := normalizeKey key in
  match JSMap.get cacheKey (cache cm) with
  | None => (false, cm)
  | Some entry =>
      if isExpired entry now then (false, snd (delete cm key)) else (true, cm)
  end.

(** *** [touch]

    [additionalTTL] is [None] when the argument is not given.  The entry is
    changed where it stands in the table. *)
Definition extension (additionalTTL : option Z) (entry : Entry) : Z :=
  match additionalTTL with
  | Some n => if n =? 0 then ttl entry else n
  | None => ttl entry
  end.

Definition touch (cm : t) (key : jsval) (additionalTTL : option Z) (now : Z)
  : bool * t :=
  let cacheKey := normalizeKey key in
  match JSMap.get cacheKey (cache cm) with
  | None => (false, cm)
  | Some entry =>
      if isExpired entry now then (false, cm)
      else
        let entry' :=
          {| data := data entry; timestamp := timestamp entry;
             ttl := ttl entry;
             expiresAt := now + extension additionalTTL entry;
             priority := priority entry; tags := tags entry;
             size := size entry; compressed := compressed entry;
             encrypted := encrypted entry |} in
        let timers1 :=
          match JSMap.get cacheKey (timers cm) with
          | Some tm => JSMap.set cacheKey (clearTimeout tm) (timers cm)
          | None => timers cm
          end in
        (true,
         {| options := options cm;
            cache := JSMap.set cacheKey entry' (cache cm);
            timers :=
              JSMap.set cacheKey
                {| fireAt := now + extension additionalTTL entry;
                   timerKey := key; cleared := false |}
                timers1;
            accessTimes := accessTimes cm;
            hitCount := hitCount cm;
            statistics := statistics cm |})
  end.

(** *** [getOrSet]

    [factory] is how the one call [factory()] settles; the second component
    of the result tells whether the call was made.  [now] is the clock of
    the lookup and [now'] the clock of the store, after the wait. *)
Definition is_undefined (v : jsval) : bool :=
  match v with JUndefined => true | _ => false end.

Definition getOrSet {E : Type} (cm : t) (key : jsval) (factory : jsval + E)
  (o : SetOptions) (now now' : Z) : (jsval + E) * bool * t :=
  let (value, cm1) := get cm key JUndefined now in
  if is_null value then
    match factory with
    | inl v =>
        if negb (is_null v) && negb (is_undefined v)
        then (inl v, true, snd (set cm1 key v o now'))
        else (inl v, true, cm1)
    | inr e => (inr e, true, cm1)
    end
  else (inl value, false, cm1).

(** *** [getMultiple] and [setMultiple]

    The result is an object: a key names the property [String(key)]. *)
Fixpoint toPropertyKey (key : jsval) : string :=
  match key with
  | JUndefined => "undefined"
  | JNull => "null"
  | JBool true => "true"
  | JBool false => "false"
  | JNum n => JSON.print_Z n
  | JStr s => s
  | JArr l =>
      String.concat ","
        (List.map (fun x => match x with
                            | JUndefined | JNull => EmptyString
                            | _ => toPropertyKey x
                            end) l)
  | JObj _ => "[object Object]"
  end%string.

(** [o[name] = v] on an object made by [{}]: the name [__proto__] reaches
    the setter of [Object.prototype] and defines no property. *)
Definition assign (name : string) (v : jsval) (o : list (string * jsval))
  : list (string * jsval) :=
  if String.eqb name "__proto__" then o else JSON.obj_set name v o.

Fixpoint getMultiple_from (keys : list jsval) (result : list (string * jsval))
  (cm : t) (now : Z) : list (string * jsval) * t :=
  match keys with
  | [] => (result, cm)
  | key :: tl =>
      let (value, cm1) := get cm key JUndefined now in
      getMultiple_from tl (assign (toPropertyKey key) value result) cm1 now
  end.

Definition getMultiple (cm : t) (keys : list jsval) (now : Z)
  : list (string * jsval) * t :=
  getMultiple_from keys [] cm now.

(** [entries] are the properties of the argument, in order. *)
Fixpoint setMultiple_from (entries : list (string * jsval))
  (results : list (string * jsval)) (cm : t) (o : SetOptions) (now : Z)
  : list (string * jsval) * t :=
  match entries with
  | [] => (results, cm)
  | (key, value) :: tl =>
      let (ok, cm1) := set cm (JStr key) value o now in
      setMultiple_from tl (assign key (JBool ok) results) cm1 o now
  end.

Definition setMultiple (cm : t) (entries : list (string * jsval))
  (o : SetOptions) (now : Z) : list (string * jsval) * t :=
  setMultiple_from entries [] cm o now.

(** *** [keys]

    [pattern] stands for the [test] of the compiled regular expression, when
    a non-empty pattern is given. *)
Definition keys (cm : t) (pattern : option (jsval -> bool)) : list jsval :=
  let ks := List.map (fun ke => denormalizeKey (fst ke)) (cache cm) in
  match pattern with
  | Some test => List.filter test ks
  | None => ks
  end.

(** *** [getOldestEntry], [getMostAccessedEntry], [getMemoryUsage] *)

(** The loop of [getOldestEntry]: [oldest] ([None] is [null]) and
    [oldestTime] ([None] is [Infinity]). *)
Fixpoint oldest_from (entries : list (cachekey * Entry))
  (oldest : option jsval) (oldestTime : option Z) : option jsval :=
  match entries with
  | [] => oldest
  | (key, entry) :: tl =>
      if match oldestTime with
         | None => true
         | Some t0 => timestamp entry <? t0
         end
      then oldest_from tl (Some (denormalizeKey key)) (Some (timestamp entry))
      else oldest_from tl oldest oldestTime
  end.

Definition getOldestEntry (cm : t) : option jsval :=
  oldest_from (cache cm) None None.

Fixpoint mostAccessed_from (counts : list (cachekey * Z))
  (mostAccessed : option jsval) (maxHits : Z) : option jsval * Z :=
  match counts with
  | [] => (mostAccessed, maxHits)
  | (key, hits) :: tl =>
      if hits >? maxHits
      then mostAccessed_from tl (Some (denormalizeKey key)) hits
      else mostAccessed_from tl mostAccessed maxHits
  end.

Definition getMostAccessedEntry (cm : t) : option jsval * Z :=
  mostAccessed_from (hitCount cm) None 0.

(** [totalSize] and [compressedSize]; the ratio, a formatted decimal, is not
    represented. *)
Definition memory_of (entries : list (cachekey * Entry)) : Z * Z :=
  fold_left
    (fun acc ke =>
       (fst acc + size (snd ke),
        if compressed (snd ke) then snd acc + size (snd ke) else snd acc))
    entries (0, 0).

Definition getMemoryUsage (cm : t) : Z * Z := memory_of (cache cm).

(** *** Sequences of operations *)

Inductive operation : Type :=
| OpGet (key defaultValue : jsval) (now : Z)
| OpSet (key value : jsval) (o : SetOptions) (now : Z)
| OpDelete (key : jsval)
| OpHas (key : jsval) (now : Z)
| OpTouch (key : jsval) (additionalTTL : option Z) (now : Z)
| OpClear (o : ClearOptions)
| OpCleanup (now : Z)
| OpTimer (cacheKey : cachekey) (now : Z).

Definition step (cm : t) (op : operation) : t :=
  match op with
  | OpGet key d now => snd (get cm key d now)
  | OpSet key value o now => snd (set cm key value o now)
  | OpDelete key => snd (delete cm key)
  | OpHas key now => snd (has cm key now)
  | OpTouch key a now => snd (touch cm key a now)
  | OpClear o => clear cm o
  | OpCleanup now => cleanupExpired cm now
  | OpTimer k now => timerFires cm k now
  end.

Definition run (ops : list operation) (cm : t) : t := fold_left step ops cm.

(** The tables agree on their keys: an access time and a hit count exactly
    for the keys of the cache, a timer for no other key. *)
Definition in_step (cm : t) : Prop :=
  forall k,
    JSMap.has k (accessTimes cm) = JSMap.has k (cache cm)
    /\ JSMap.has k (hitCount cm) = JSMap.has k (cache cm)
    /\ (JSMap.has k (timers cm) = true -> JSMap.has k (cache cm) = true).

(** The cache as [set] finds it after its capacity check. *)
Definition after_eviction (cm : t) (key : jsval) : t :=
  if (JSMap.size (cache cm) >=? maxSize (options cm))
     && negb (JSMap.has (normalizeKey key) (cache cm))
  then evictLeastUsed cm else cm.

(** [o[p]] on the properties of an object: [None] is [undefined]. *)
Fixpoint property (p : string) (o : list (string * jsval)) : option jsval :=
  match o with
  | [] => None
  | (q, v) :: tl => if String.eqb q p then Some v else property p tl
  end.

(** What the operations keep: no key twice in a table, and the tables in
    step. *)
Definition kept (cm : t) : Prop :=
  JSMap.wf (cache cm) = true
  /\ JSMap.wf (timers cm) = true
  /\ JSMap.wf (accessTimes cm) = true
  /\ JSMap.wf (hitCount cm) = true
  /\ in_step cm.


(** A [set] whose key is evictable once normalized. *)
Definition sets_evictable (op : operation) : Prop :=
  match op with
  | OpSet key _ _ _ => evictable (normalizeKey key)
  | _ => True
  end.

(** [cm'] has the options of [cm], no key that [cm] lacks, and no more
    entries. *)
Definition no_growth (cm cm' : t) : Prop :=
  options cm' = options cm
  /\ (forall k, JSMap.has k (cache cm') = true -> JSMap.has k (cache cm) = true)
  /\ JSMap.size (cache cm') <= JSMap.size (cache cm).

(** The access times and hit counts are integers that a double holds
    exactly, so that every score is a finite number. *)
Definition finite_scores (cm : t) : Prop :=
  (forall k a, In (k, a) (accessTimes cm) -> Z.abs a <= 2 ^ 53)
  /\ (forall k h, In (k, h) (hitCount cm) -> Z.abs h <= 2 ^ 53).

(** Every entry has a size that is not negative. *)
Definition sizes_nonneg (cm : t) : Prop :=
  forall k e, In (k, e) (cache cm) -> 0 <= size e.

(** What [statistics.totalSize] reports above the sizes of the entries that
    are there. *)
Definition slack (cm : t) : Z :=
  totalSize (statistics cm) - fst (getMemoryUsage cm).

(** *** [import]

    [entries] is [Object.entries(parsedData)], in its order.  An entry of
    the data has a [value], an [expiresAt] that is a number or is missing,
    [tags] and a [priority] that may be missing.  The clock does not move
    during the call. *)
Record ImportOptions : Type := mkImportOptions {
  overwrite : option bool;
  skipExpired : option bool
}.

Record Imported : Type := mkImported {
  imp_value : jsval;
  imp_expiresAt : option Z;
  imp_tags : option (list string);
  imp_priority : option string
}.

(** [entry.expiresAt < Date.now()]: false when [expiresAt] is missing. *)
Definition expires_before (entry : Imported) (now : Z) : bool :=
  match imp_expiresAt entry with
  | Some x => x <? now
  | None => false
  end.

(** [Math.max(0, entry.expiresAt - Date.now())]: [None] is [NaN], which
    [set] takes as no [ttl]. *)
Definition remainingTTL (entry : Imported) (now : Z) : option Z :=
  match imp_expiresAt entry with
  | Some x => Some (Z.max 0 (x - now))
  | None => None
  end.

Fixpoint import_from (entries : list (string * Imported)) (cm : t)
  (o : ImportOptions) (now : Z) (imported skipped : Z) : Z * Z * t :=
  match entries with
  | [] => (imported, skipped, cm)
  | (key, entry) :: tl =>
      let (present, cm1) :=
        if from_option (overwrite o) false then (false, cm)
        else has cm (JStr key) now in
      if present then import_from tl cm1 o now imported (skipped + 1)
      else if from_option (skipExpired o) true && expires_before entry now
      then import_from tl cm1 o now imported (skipped + 1)
      else
        let cm2 :=
          snd (set cm1 (JStr key) (imp_value entry)
                 {| opt_ttl := remainingTTL entry now;
                    opt_priority := imp_priority entry;
                    opt_tags := imp_tags entry |} now) in
        import_from tl cm2 o now (imported + 1) skipped
  end.

(** The result: [imported], [skipped], and the cache afterwards. *)
Definition import (cm : t) (entries : list (string * Imported))
  (o : ImportOptions) (now : Z) : Z * Z * t :=
  import_from entries cm o now 0 0.
End CacheManager.

(* ================================================================== *)
(** ** [ErrorHandler]: classification and retry *)

Module ErrorHandler.

Local Open Scope string_scope.

(** A thrown error, an object: its [message] ([None] when it has none) and
    its [code] ([JUndefined] when it has none). *)
Record jserror : Type := mkError {
  message : option string;
  code : jsval
}.

Inductive errorType : Type :=
| network | contract | wallet | validation | permission | timeout | unknown.

Record errorInfo : Type := mkInfo {
  type : errorType;
  canRetry : bool;
  severity : string
}.

Definition lower_char (c : ascii) : ascii :=
  let n := nat_of_ascii c in
  if ((65 <=? n) && (n <=? 90))%nat then ascii_of_nat (n + 32) else c.

Fixpoint toLowerCase (s : string) : string :=
  match s with
  | EmptyString => EmptyString
  | String c r => String (lower_char c) (toLowerCase r)
  end.

(** [s.includes(sub)] *)
Fixpoint includes (s sub : string) : bool :=
  String.prefix sub s ||
  match s with
  | EmptyString => false
  | String _ r => includes r sub
  end.

(** [v === s] and [v === n] against a literal. *)
Definition is_string (v : jsval) (s : string) : bool :=
  match v with JStr t => String.eqb t s | _ => false end.

Definition is_number (v : jsval) (n : Z) : bool :=
  match v with JNum m => Z.eqb m n | _ => false end.

Definition classifyError (error : jserror) : errorInfo :=
  let message :=
    match message error with
    | Some m => toLowerCase m
    | None => EmptyString
    end in
  let code := code error in
  if includes message "network" || includes message "fetch"
     || includes message "connection" || is_string code "NETWORK_ERROR"
  then {| type := network; canRetry := true; severity := "medium" |}
  else if includes message "revert" || includes message "gas"
          || includes message "contract" || is_string code "CALL_EXCEPTION"
  then {| type := contract; canRetry := false; severity := "high" |}
  else if includes message "wallet" || includes message "metamask"
          || includes message "user rejected" || is_number code 4001
  then {| type := wallet; canRetry := true; severity := "medium" |}
  else if includes message "invalid" || includes message "validation"
          || includes message "required"
  then {| type := validation; canRetry := false; severity := "low" |}
  else if includes message "permission" || includes message "unauthorized"
          || includes message "forbidden" || is_number code 403
  then {| type := permission; canRetry := false; severity := "high" |}
  else if includes message "timeout" || includes message "timed out"
          || is_string code "TIMEOUT"
  then {| type := timeout; canRetry := true; severity := "medium" |}
  else {| type := unknown; canRetry := true; severity := "medium" |}.

Record retryConfig : Type := mkConfig {
  maxRetries : Z;
  baseDelay : Z;
  maxDelay : Z;
  backoffFactor : Z
}.

Definition defaultConfig : retryConfig :=
  {| maxRetries := 3; baseDelay := 1000; maxDelay := 10000; backoffFactor := 2 |}.

Record retryOptions : Type := mkRetryOptions {
  opt_maxRetries : option Z;
  opt_baseDelay : option Z;
  opt_maxDelay : option Z;
  opt_backoffFactor : option Z
}.

(** [{ ...this.retryConfig, ...options }] *)
Definition merge (c : retryConfig) (o : retryOptions) : retryConfig :=
  {| maxRetries := CacheManager.from_option (opt_maxRetries o) (maxRetries c);
     baseDelay := CacheManager.from_option (opt_baseDelay o) (baseDelay c);
     maxDelay := CacheManager.from_option (opt_maxDelay o) (maxDelay c);
     backoffFactor :=
       CacheManager.from_option (opt_backoffFactor o) (backoffFactor c) |}.

(** [Math.min(baseDelay * Math.pow(backoffFactor, attempt), maxDelay)], on
    integers. *)
Definition delay (config : retryConfig) (attempt : nat) : Z :=
  Z.min (baseDelay config * backoffFactor config ^ Z.of_nat attempt)
        (maxDelay config).

Section Retry.
(** The type of what [fn] resolves to. *)
Context {A : Type}.

(** What [retry] does, in order: a call [fn(attempt)], a [sleep(delay)]. *)
Inductive event : Type :=
| Called (attempt : nat)
| Slept (ms : Z).

(** How [retry] ends: with the value of [fn], or with [throw lastError],
    where [None] is the [undefined] that [lastError] holds before any
    failure. *)
Inductive outcome : Type :=
| Returned (a : A)
| Threw (e : option jserror).

(** [fn attempt] is how the call [fn(attempt)] settles. *)
Variable fn : nat -> A + jserror.
Variable config : retryConfig.

(** The [for] loop from [attempt] on; [fuel] bounds the iterations left. *)
Fixpoint retry_loop (fuel attempt : nat) (lastError : option jserror)
  : outcome * list event :=
  match fuel with
  | O => (Threw lastError, [])
  | S fuel' =>
      if (Z.of_nat attempt <=? maxRetries config)%Z then
        match fn attempt with
        | inl result => (Returned result, [Called attempt])
        | inr error =>
            if negb (canRetry (classifyError error))
               || (Z.of_nat attempt =? maxRetries config)%Z
            then (Threw (Some error), [Called attempt])
            else
              let (res, evs) := retry_loop fuel' (S attempt) (Some error) in
              (res, Called attempt :: Slept (delay config attempt) :: evs)
        end
      else (Threw lastError, [])
  end.
End Retry.

(** [retry(fn, options)]: the loop runs at most [maxRetries + 1] times, and
    one more turn of fuel lets its condition fail. *)
Definition retry {A : Type} (fn : nat -> A + jserror) (o : retryOptions)
  : outcome * list event :=
  let config := merge defaultConfig o in
  retry_loop fn config (S (Z.to_nat (maxRetries config + 1))) 0 None.

(** *** Vocabulary of the properties *)

(** What [retry] does over [n] failed attempts from attempt [a] on: each call
    is followed by its wait. *)
Definition backoff_trace (config : retryConfig) (a n : nat) : list event :=
  List.flat_map (fun i => [Called i; Slept (delay config i)]) (List.seq a n).

(** The waits after the first [n] attempts are computed by the engine as
    they are here: the base delay, the factor, the cap, the powers and the
    products are integers that a double holds exactly. *)
Definition exact_waits (b d f : Z) (n : nat) : Prop :=
  (Z.abs b <= 2 ^ 53 /\ Z.abs d <= 2 ^ 53 /\ Z.abs f <= 2 ^ 53)%Z
  /\ forall i, (i < n)%nat ->
               (Z.abs (f ^ Z.of_nat i) <= 2 ^ 53
                /\ Z.abs (b * f ^ Z.of_nat i) <= 2 ^ 53)%Z.

(** How the loop ends at attempt [i]: [fn] succeeds, or it fails with an
    error that is not retried (by its class, or because [i] is the last
    attempt). *)
Definition ends_at {A : Type} (fn : nat -> A + jserror) (config : retryConfig)
  (i : nat) (res : @outcome A) : Prop :=
  match fn i with
  | inl v => res = Returned v
  | inr e =>
      res = Threw (Some e)
      /\ (canRetry (classifyError e) = false \/ Z.of_nat i = maxRetries config)
  end.


(** The waits of a trace, added up, and its calls. *)
Definition total_wait (evs : list event) : Z :=
  fold_right (fun ev acc => match ev with
                            | Slept ms => ms + acc
                            | Called _ => acc
                            end)%Z 0%Z evs.

Definition calls (evs : list event) : list nat :=
  List.flat_map (fun ev => match ev with
                           | Called i => [i]
                           | Slept _ => []
                           end) evs.

(** *** [getUserFriendlyMessage] *)

(** The values of [errorTypes]. *)
Definition type_name (t : errorType) : string :=
  match t with
  | network => "network"
  | contract => "contract"
  | wallet => "wallet"
  | validation => "validation"
  | permission => "permission"
  | timeout => "timeout"
  | unknown => "unknown"
  end.

(** [s.replace(pattern, '')] for a pattern that is a string: the first
    occurrence is taken out. *)
Fixpoint remove_first (pattern s : string) : string :=
  if String.prefix pattern s
  then String.substring (String.length pattern)
         (String.length s - String.length pattern) s
  else match s with
       | EmptyString => EmptyString
       | String c r => String c (remove_first pattern r)
       end.

(** An entry of [errorMessages]; the [icon], an emoji, is not
    represented. *)
Record userMessage : Type := mkMessage {
  title : string;
  text : string
}.

(** [this.errorMessages[name]]: [None] is [undefined]. *)
Definition errorMessages (name : string) : option userMessage :=
  if String.eqb name "network" then
    Some {| title := "Network Error";
            text := "Please check your internet connection and try again." |}
  else if String.eqb name "contract" then
    Some {| title := "Smart Contract Error";
            text := "There was an issue with the blockchain transaction." |}
  else if String.eqb name "wallet" then
    Some {| title := "Wallet Error";
            text := "Please check your wallet connection and try again." |}
  else if String.eqb name "validation" then
    Some {| title := "Validation Error";
            text := "Please check your input and try again." |}
  else if String.eqb name "permission" then
    Some {| title := "Permission Denied";
            text := "You do not have permission to perform this action." |}
  else if String.eqb name "timeout" then
    Some {| title := "Request Timeout";
            text := "The request took too long to complete. Please try again." |}
  else if String.eqb name "unknown" then
    Some {| title := "Unexpected Error";
            text := "An unexpected error occurred. Please try again." |}
  else None.

(** [originalError.message?.includes(sub)], where [undefined] is falsy. *)
Definition message_includes (error : jserror) (sub : string) : bool :=
  match message error with
  | Some m => includes m sub
  | None => false
  end.

Definition eq_type (a b : errorType) : bool :=
  String.eqb (type_name a) (type_name b).

(** [None] is the [TypeError] of reading [message] of [undefined]. *)
Definition getUserFriendlyMessage (info : errorInfo) (originalError : jserror)
  : option userMessage :=
  match errorMessages (remove_first "_error" (type_name (type info))) with
  | None => None
  | Some baseMessage =>
      let customMessage :=
        if eq_type (type info) contract then
          if message_includes originalError "insufficient funds"
          then "Insufficient funds to complete the transaction."
          else if message_includes originalError "gas"
          then "Transaction failed due to gas issues. Please try again with higher gas limit."
          else if message_includes originalError "revert"
          then "Transaction was reverted by the smart contract."
          else text baseMessage
        else if eq_type (type info) wallet then
          if is_number (code originalError) 4001
          then "Transaction was rejected by user."
          else if message_includes originalError "not connected"
          then "Please connect your wallet first."
          else text baseMessage
        else text baseMessage in
      Some {| title := title baseMessage; text := customMessage |}
  end.

(** *** [shouldIgnoreError] and the global listeners *)

(** What a listener receives as [event.error] or [event.reason]: a falsy
    value, or a value with its [message] and [code], its [stack] and what
    its [toString()] returns. *)
Inductive raised : Type :=
| Falsy
| Raised (error : jserror) (stack : option string) (toString : string).

(** [x || d] on an optional string: [undefined] and the empty string are
    falsy. *)
Definition string_or (x : option string) (d : string) : string :=
  match x with
  | Some s => if String.eqb s EmptyString then d else s
  | None => d
  end.

Definition extensionPatterns : list string :=
  [ "solana.js"; "btc.js"; "sui.js"; "inject.js"; "content-script";
    "extension://"; "chrome-extension://"; "moz-extension://";
    "Cannot destructure property 'register' of 'undefined'";
    "phantom"; "metamask"; "coinbase"; "walletconnect" ].

Definition ignoredMessages : list string :=
  [ "Script error"; "Non-Error promise rejection captured";
    "ResizeObserver loop limit exceeded"; "Network request failed" ].

Definition shouldIgnoreError (error : raised) (filename : string) : bool :=
  match error with
  | Falsy => true
  | Raised e stack toString =>
      let errorMessage := string_or (message e) toString in
      let errorStack := string_or stack EmptyString in
      let isExtensionError :=
        existsb (fun pattern =>
                   includes (toLowerCase errorMessage) (toLowerCase pattern)
                   || includes (toLowerCase errorStack) (toLowerCase pattern)
                   || includes (toLowerCase filename) (toLowerCase pattern))
          extensionPatterns in
      if isExtensionError then true
      else existsb (fun msg => includes errorMessage msg) ignoredMessages
  end.

(** The listeners of [error] and [unhandledrejection]: whether
    [handleError] is called. *)
Definition listener_handles (error : raised) (filename : string) : bool :=
  negb (shouldIgnoreError error filename).
End ErrorHandler.

(* ================================================================== *)
(** ** Concrete caches, values and functions *)

Module Examples.
Import CacheManager ErrorHandler.

Definition example_cache : t := new (mkCtorOptions None None None None).
Definition example_value : jsval := JObj [("id"%string, JNum 1)].
Definition ttl_1000 : SetOptions := mkSetOptions (Some 1000) None None.

Definition no_options : SetOptions := mkSetOptions None None None.
Definition cache_of_capacity (n : Z) : t := new (mkCtorOptions None (Some n) None None).

(** The text of a string literal used as a key: a quote, the letter a, a
    quote. *)
Definition quoted_a : string :=
  String JSON.dquote (String "a" (String JSON.dquote EmptyString)).

Definition tagged (tag : string) : SetOptions :=
  mkSetOptions None None (Some [tag]).

Definition two_tagged_entries : t :=
  snd (set (snd (set example_cache (JStr "p1") (JNum 1) (tagged "x") 0))
         (JStr "p2") (JNum 2) (tagged "y") 0).

Definition transient : jserror := mkError (Some "socket hang up"%string) JUndefined.
Definition reverted : jserror := mkError (Some "execution reverted"%string) JUndefined.
Definition defaults : retryOptions := mkRetryOptions None None None None.

(** Two failures and a success, with the default configuration: waits of
    1000 and 2000 ms. *)
Definition fails_twice (attempt : nat) : Z + jserror :=
  if (attempt <? 2)%nat then inr transient else inl 42.

Definition always_reverts (attempt : nat) : Z + jserror := inr reverted.

(** Options given by the caller: up to 5 retries, waits of 100 ms times 3
    to the attempt, capped at 250 ms. *)
Definition slow_start : retryOptions :=
  mkRetryOptions (Some 5) (Some 100) (Some 250) (Some 3).


(** A cache of capacity 2 that is full. *)
Definition full_of_two : t :=
  snd (set (snd (set (cache_of_capacity 2) (JStr "old") (JNum 1) no_options 1000))
         (JStr "new") (JNum 2) no_options 2000).

End Examples.

(* ================================================================== *)
(** ** [StateManager]: the history of dispatched actions *)

Module StateManager.
Section History.
Context {A : Type}.

(** [this.history.push(entry)], then [this.history.shift()] when the
    history is longer than [maxHistorySize]. *)
Definition addToHistory (maxHistorySize : Z) (history : list A) (entry : A)
  : list A :=
  let pushed := history ++ [entry] in
  if (Z.of_nat (List.length pushed) >? maxHistorySize)%Z
  then List.tl pushed
  else pushed.

End History.

(** The value the constructor gives to [maxHistorySize]. *)
Definition maxHistorySize : Z := 50.

End StateManager.

(* ================================================================== *)
(** * Properties *)

(** ** [JSON.parse] reads back what [JSON.stringify] writes *)

Module JSONFacts.
Import JSON.
Local Open Scope string_scope.

Lemma append_assoc (a b c : string) : (a ++ b) ++ c = a ++ (b ++ c).
Proof. induction a as [|x a IH]; simpl; [reflexivity | now rewrite IH]. Qed.

Lemma length_append (a b : string) :
  String.length (a ++ b) = (String.length a + String.length b)%nat.
Proof. induction a as [|x a IH]; simpl; [reflexivity | now rewrite IH]. Qed.

Lemma take_digits_stop (rest : string) :
  num_stop rest = true -> take_digits rest = (Nil, rest).
Proof.
  destruct rest as [|c r]; simpl; [reflexivity|].
  destruct (digit_of_char c); [discriminate | reflexivity].
Qed.

Lemma take_digits_print (d : uint) (rest : string) :
  num_stop rest = true ->
  take_digits (NilEmpty.string_of_uint d ++ rest) = (d, rest).
Proof.
  intros Hr; induction d; simpl; try rewrite IHd; try reflexivity.
  now apply take_digits_stop.
Qed.

Lemma to_uint_int_part_ok (p : positive) : int_part_ok (Pos.to_uint p) = true.
Proof.
  pose proof (Unsigned.to_of (Pos.to_uint p)) as H.
  rewrite Unsigned.of_to in H. simpl in H.
  pose proof (Unsigned.to_uint_nonnil p) as Hnil.
  destruct (Pos.to_uint p) as [|u|u|u|u|u|u|u|u|u|u] eqn:E; try reflexivity;
    [contradiction|].
  destruct u; try reflexivity; exfalso.
  all: rewrite unorm_D0 in H;
    match type of H with
    | D0 ?u = unorm ?u =>
        assert (Hne : u <> Nil) by discriminate;
        pose proof (nb_digits_unorm u Hne) as Hle;
        rewrite <- H in Hle; simpl in Hle; lia
    end.
Qed.

Lemma of_uint_to_uint (p : positive) : Z.of_uint (Pos.to_uint p) = Zpos p.
Proof. unfold Z.of_uint. now rewrite Unsigned.of_to. Qed.

Lemma app_nil_r (d : uint) : Decimal.app d Nil = d.
Proof.
  unfold Decimal.app. rewrite <- (rev_rev d) at 2. unfold rev at 2.
  reflexivity.
Qed.

Lemma take_frac_stop (rest : string) :
  num_stop rest = true -> take_frac rest = Some (Nil, rest).
Proof.
  destruct rest as [|c r]; [reflexivity|].
  destruct c as [[] [] [] [] [] [] [] []]; intros Hr; try reflexivity;
    discriminate Hr.
Qed.

Lemma take_exp_stop (rest : string) :
  num_stop rest = true -> take_exp rest = Some (0%Z, rest).
Proof.
  destruct rest as [|c r]; [reflexivity|].
  destruct c as [[] [] [] [] [] [] [] []]; intros Hr; try reflexivity;
    discriminate Hr.
Qed.

Lemma parse_number_uint (p : positive) (rest : string) :
  num_stop rest = true ->
  parse_number (NilEmpty.string_of_uint (Pos.to_uint p) ++ rest) = Some (Zpos p, rest).
Proof.
  intros Hr. unfold parse_number.
  assert (Hhd : (match NilEmpty.string_of_uint (Pos.to_uint p) ++ rest with
                 | String "-" r => (true, r)
                 | _ => (false, NilEmpty.string_of_uint (Pos.to_uint p) ++ rest)
                 end) = (false, NilEmpty.string_of_uint (Pos.to_uint p) ++ rest)).
  { pose proof (Unsigned.to_uint_nonnil p) as Hnil.
    destruct (Pos.to_uint p); try contradiction; reflexivity. }
  rewrite Hhd. rewrite take_digits_print by assumption.
  rewrite to_uint_int_part_ok.
  rewrite (take_frac_stop rest Hr), (take_exp_stop rest Hr). cbv zeta. rewrite app_nil_r, of_uint_to_uint. simpl.
  f_equal. f_equal. lia.
Qed.

Lemma parse_number_print (z : Z) (rest : string) :
  num_stop rest = true ->
  parse_number (print_Z z ++ rest) = Some (z, rest).
Proof.
  intros Hr. destruct z as [|p|p].
  - simpl print_Z. unfold parse_number. simpl.
    rewrite (take_digits_stop rest Hr). simpl.
      rewrite (take_frac_stop rest Hr), (take_exp_stop rest Hr). reflexivity.
  - now apply parse_number_uint.
  - simpl print_Z.
    pose proof (parse_number_uint p rest Hr) as H.
    unfold parse_number in *. cbn [append].
    assert (Hhd : (match NilEmpty.string_of_uint (Pos.to_uint p) ++ rest with
                 | String "-" r => (true, r)
                 | _ => (false, NilEmpty.string_of_uint (Pos.to_uint p) ++ rest)
                 end) = (false, NilEmpty.string_of_uint (Pos.to_uint p) ++ rest)).
    { pose proof (Unsigned.to_uint_nonnil p) as Hnil.
      destruct (Pos.to_uint p); try contradiction; reflexivity. }
    rewrite Hhd in H.
    destruct (take_digits (NilEmpty.string_of_uint (Pos.to_uint p) ++ rest)) as [ip s2].
    destruct (int_part_ok ip); [|discriminate].
    destruct (take_frac s2) as [[fp s3]|]; [|discriminate].
    destruct (take_exp s3) as [[ex s4]|]; [|discriminate].
    cbv zeta in *.
    destruct (0 <=? ex - Z.of_nat (nb_digits fp))%Z.
    + injection H as H1 H2. now rewrite H1, H2.
    + destruct (_ =? 0)%Z; [|discriminate].
      injection H as H1 H2. now rewrite H1, H2.
Qed.

Lemma parse_string_char (c : ascii) (t : string) :
  parse_string_body (quote_char c ++ t) =
  match parse_string_body t with
  | Some (u, r) => Some (String c u, r)
  | None => None
  end.
Proof. destruct c as [[] [] [] [] [] [] [] []]; reflexivity. Qed.

Lemma parse_string_quote (s rest : string) :
  parse_string_body (quote_body s ++ String dquote rest) = Some (s, rest).
Proof.
  induction s as [|c s IH].
  - reflexivity.
  - cbn [quote_body]. rewrite append_assoc, parse_string_char, IH.
    reflexivity.
Qed.

Lemma append_nil_r (a : string) : a ++ EmptyString = a.
Proof. induction a as [|x a IH]; simpl; [reflexivity | now rewrite IH]. Qed.

Lemma head_ok_append (s rest : string) :
  head_ok s = true -> head_ok (s ++ rest) = true.
Proof. destruct s; [discriminate | trivial]. Qed.

Lemma head_ok_skip_ws (s : string) : head_ok s = true -> skip_ws s = s.
Proof.
  destruct s as [|c r]; [discriminate|]. simpl.
  destruct (is_ws c); [discriminate | reflexivity].
Qed.

Lemma head_ok_not_closing (s : string) :
  head_ok s = true ->
  starts_with "]" s = None /\ starts_with "}" s = None.
Proof.
  destruct s as [|c r]; [discriminate|]. simpl.
  destruct (is_ws c), (Ascii.eqb c "]"), (Ascii.eqb c "}"); simpl;
    intros; try discriminate; auto.
Qed.

Lemma head_ok_length (s : string) : head_ok s = true -> (1 <= String.length s)%nat.
Proof. destruct s; [discriminate | simpl; lia]. Qed.

Lemma print_uint_head (p : positive) :
  exists c r, NilEmpty.string_of_uint (Pos.to_uint p) = String c r /\
              digit_of_char c <> None.
Proof.
  pose proof (Unsigned.to_uint_nonnil p) as Hnil.
  destruct (Pos.to_uint p); try contradiction; simpl;
    eexists; eexists; (split; [reflexivity | discriminate]).
Qed.

Lemma print_Z_head (z : Z) (rest : string) : num_head (print_Z z ++ rest) = true.
Proof.
  destruct z as [|p|p]; try reflexivity.
  simpl. destruct (print_uint_head p) as (c & r & -> & Hc). simpl.
  destruct (digit_of_char c); [apply orb_true_r | contradiction].
Qed.

Lemma num_head_ok (s : string) : num_head s = true -> head_ok s = true.
Proof.
  destruct s as [|c r]; [discriminate|].
  destruct c as [[] [] [] [] [] [] [] []]; intros H; try reflexivity;
    discriminate H.
Qed.

Lemma parse_value_number (f : nat) (s : string) (z : Z) (r' : string) :
  num_head s = true ->
  parse_number s = Some (z, r') ->
  parse_value (S f) s = Some (JNum z, r').
Proof.
  destruct s as [|c r]; [discriminate|].
  destruct c as [[] [] [] [] [] [] [] []]; intros H Hp; try discriminate H;
    cbn -[parse_number]; rewrite Hp; reflexivity.
Qed.

Lemma stringify_head (v : jsval) (s : string) :
  stringify_val v = Some s -> head_ok s = true.
Proof.
  destruct v as [| |[]|n|t|l|m]; simpl; intros H; try discriminate;
    injection H as <-; try reflexivity.
  apply num_head_ok. rewrite <- (append_nil_r (print_Z n)). apply print_Z_head.
Qed.

Lemma json_value_stringify (v : jsval) :
  json_value v = true -> exists s, stringify_val v = Some s.
Proof. destruct v as [| |[]|n|t|l|m]; simpl; intros; try discriminate; eauto. Qed.

Lemma obj_set_fresh (k : string) (v : jsval) (m : list (string * jsval)) :
  existsb (String.eqb k) (List.map fst m) = false ->
  obj_set k v m = (m ++ [(k, v)])%list.
Proof.
  induction m as [|[k' v'] tl IH]; simpl; [reflexivity|].
  intros H. apply orb_false_elim in H as [H1 H2].
  rewrite String.eqb_sym, H1. now rewrite IH.
Qed.

Lemma existsb_app_false {A} (f : A -> bool) (l1 l2 : list A) :
  existsb f (l1 ++ l2)%list = false <->
  existsb f l1 = false /\ existsb f l2 = false.
Proof. rewrite existsb_app. apply orb_false_iff. Qed.

Lemma distinct_fold (m acc : list (string * jsval)) :
  distinct (List.map fst (acc ++ m)%list) = true ->
  fold_left (fun a kv => obj_set (fst kv) (snd kv) a) m acc = (acc ++ m)%list.
Proof.
  revert acc. induction m as [|[k v] tl IH]; intros acc H; simpl.
  - now rewrite List.app_nil_r.
  - replace (acc ++ (k, v) :: tl)%list with ((acc ++ [(k, v)]) ++ tl)%list in *
      by now rewrite <- List.app_assoc.
    rewrite obj_set_fresh; [now apply IH|].
    clear IH. induction acc as [|[k' v'] acc IHa]; [reflexivity|].
    simpl in H. apply andb_true_iff in H as [H1 H2].
    simpl. rewrite (IHa H2), orb_false_r.
    apply negb_true_iff in H1.
    rewrite !List.map_app in H1. simpl in H1.
    apply existsb_app_false in H1 as [H1 _].
    apply existsb_app_false in H1 as [_ H1]. simpl in H1.
    rewrite orb_false_r in H1. now rewrite String.eqb_sym.
Qed.

Lemma obj_of_members_distinct (m : list (string * jsval)) :
  distinct (List.map fst m) = true -> obj_of_members m = m.
Proof. intros H. unfold obj_of_members. now rewrite distinct_fold. Qed.

Lemma join_comma_cons (a b : string) (tl : list string) :
  join_comma (a :: b :: tl) = a ++ String "," (join_comma (b :: tl)).
Proof. reflexivity. Qed.

Lemma parse_elements_eq (f : nat) (s : string) :
  parse_elements (S f) s =
  match parse_value f s with
  | Some (v, r) =>
      match starts_with "," (skip_ws r) with
      | Some r' =>
          match parse_elements f r' with
          | Some (l, r'') => Some (v :: l, r'')
          | None => None
          end
      | None =>
          match starts_with "]" (skip_ws r) with
          | Some r' => Some ([v], r')
          | None => None
          end
      end
  | None => None
  end.
Proof. reflexivity. Qed.

Lemma parse_members_eq (f : nat) (s : string) :
  parse_members (S f) s =
  match starts_with dquote (skip_ws s) with
  | Some r =>
      match parse_string_body r with
      | Some (k, r1) =>
          match starts_with ":" (skip_ws r1) with
          | Some r2 =>
              match parse_value f r2 with
              | Some (v, r3) =>
                  match starts_with "," (skip_ws r3) with
                  | Some r4 =>
                      match parse_members f r4 with
                      | Some (ms, r5) => Some ((k, v) :: ms, r5)
                      | None => None
                      end
                  | None =>
                      match starts_with "}" (skip_ws r3) with
                      | Some r4 => Some ([(k, v)], r4)
                      | None => None
                      end
                  end
              | None => None
              end
          | None => None
          end
      | None => None
      end
  | None => None
  end.
Proof. reflexivity. Qed.

Lemma after_comma (r : string) : starts_with "," (skip_ws (String "," r)) = Some r.
Proof. reflexivity. Qed.

Lemma after_colon (r : string) : starts_with ":" (skip_ws (String ":" r)) = Some r.
Proof. reflexivity. Qed.

Lemma after_quote (r : string) :
  starts_with dquote (skip_ws (String dquote r)) = Some r.
Proof. reflexivity. Qed.

Lemma at_bracket (r : string) :
  starts_with "," (skip_ws (String "]" r)) = None /\
  starts_with "]" (skip_ws (String "]" r)) = Some r.
Proof. split; reflexivity. Qed.

Lemma at_brace (r : string) :
  starts_with "," (skip_ws (String "}" r)) = None /\
  starts_with "}" (skip_ws (String "}" r)) = Some r.
Proof. split; reflexivity. Qed.

Lemma parse_elements_text (l : list jsval) :
  Forall reads_back l ->
  forall x f rest,
    reads_back x ->
    forallb json_value (x :: l) = true ->
    (list_sum (List.map (fun y => S (jsize y)) (x :: l)) <= f)%nat ->
    parse_elements f (join_comma (List.map elem_text (x :: l)) ++ String "]" rest)
    = Some (x :: l, rest).
Proof.
  induction 1 as [|y tl Hy Htl IH]; intros x f rest Hx Hj Hf;
    cbn [forallb] in Hj; apply andb_true_iff in Hj as [Hjx Hj];
    simpl in Hf; (destruct f as [|f]; [lia|]);
    destruct (json_value_stringify x Hjx) as [sx Hsx];
    rewrite parse_elements_eq.
  - change (join_comma (List.map elem_text [x])) with (elem_text x).
    unfold elem_text. rewrite Hsx.
    rewrite (Hx sx f (String "]" rest) Hjx Hsx); [| lia | reflexivity].
    destruct (at_bracket rest) as [-> ->]. reflexivity.
  - change (List.map elem_text (x :: y :: tl))
      with (elem_text x :: elem_text y :: List.map elem_text tl).
    rewrite join_comma_cons, append_assoc.
    change (String "," (join_comma (elem_text y :: List.map elem_text tl)) ++ String "]" rest)
      with (String "," (join_comma (List.map elem_text (y :: tl)) ++ String "]" rest)).
    unfold elem_text at 1. rewrite Hsx.
    rewrite (Hx sx f _ Hjx Hsx); [| lia | reflexivity].
    rewrite after_comma.
    rewrite (IH y f rest Hy Hj); [reflexivity|].
    simpl. lia.
Qed.

Lemma member_text_value (k : string) (x : jsval) :
  json_value x = true ->
  exists sx, stringify_val x = Some sx /\
             member_text (k, x) = [quote k ++ String ":" sx].
Proof.
  intros H. destruct (json_value_stringify x H) as [sx Hsx].
  exists sx. split; [assumption|]. unfold member_text. simpl. now rewrite Hsx.
Qed.

Lemma parse_members_text (m : list (string * jsval)) :
  Forall (fun kv => reads_back (snd kv)) m ->
  forall kx f rest,
    reads_back (snd kx) ->
    forallb (fun kv => json_value (snd kv)) (kx :: m) = true ->
    (list_sum (List.map (fun kv => S (jsize (snd kv))) (kx :: m)) <= f)%nat ->
    parse_members f
      (join_comma (List.flat_map member_text (kx :: m)) ++ String "}" rest)
    = Some (kx :: m, rest).
Proof.
  induction 1 as [|[k' y] tl Hy Htl IH]; intros [k x] f rest Hx Hj Hf;
    cbn [forallb snd] in Hj; apply andb_true_iff in Hj as [Hjx Hj];
    simpl in Hf, Hx; (destruct f as [|f]; [lia|]);
    destruct (member_text_value k x Hjx) as (sx & Hsx & Hmx);
    rewrite parse_members_eq.
  - cbn [List.flat_map]. rewrite Hmx. cbn [List.app join_comma].
    unfold quote. cbn [append]. rewrite after_quote.
    rewrite !append_assoc. cbn [append].
    rewrite parse_string_quote, after_colon.
    rewrite (Hx sx f (String "}" rest) Hjx Hsx); [| lia | reflexivity].
    destruct (at_brace rest) as [-> ->]. reflexivity.
  - cbn [forallb snd] in Hj. pose proof Hj as Hj'.
    apply andb_true_iff in Hj' as [Hjy _].
    destruct (member_text_value k' y Hjy) as (sy & Hsy & Hmy).
    specialize (IH (k', y) f rest Hy Hj).
    cbn [List.flat_map] in IH |- *. rewrite Hmx. rewrite Hmy in IH |- *.
    cbn [List.app] in IH |- *.
    rewrite join_comma_cons.
    unfold quote at 1. cbn [append]. rewrite after_quote.
    rewrite !append_assoc. cbn [append].
    rewrite parse_string_quote, after_colon.
    rewrite ?append_assoc.
    rewrite (Hx sx f _ Hjx Hsx); [| lia | reflexivity].
    cbn [append]. rewrite after_comma.
    rewrite IH; [reflexivity|].
    simpl. lia.
Qed.

Lemma parse_value_array_eq (f : nat) (r : string) :
  parse_value (S f) (String "[" r) =
  match starts_with "]" (skip_ws r) with
  | Some r' => Some (JArr [], r')
  | None =>
      match parse_elements f r with
      | Some (l, r') => Some (JArr l, r')
      | None => None
      end
  end.
Proof. reflexivity. Qed.

Lemma parse_value_object_eq (f : nat) (r : string) :
  parse_value (S f) (String "{" r) =
  match starts_with "}" (skip_ws r) with
  | Some r' => Some (JObj [], r')
  | None =>
      match parse_members f r with
      | Some (ms, r') => Some (JObj (obj_of_members ms), r')
      | None => None
      end
  end.
Proof. reflexivity. Qed.

Lemma parse_value_string_eq (f : nat) (r : string) :
  parse_value (S f) (String dquote r) =
  match parse_string_body r with
  | Some (t, r') => Some (JStr t, r')
  | None => None
  end.
Proof. reflexivity. Qed.

Lemma join_head_ok (x : string) (tl : list string) (rest : string) :
  head_ok x = true -> head_ok (join_comma (x :: tl) ++ rest) = true.
Proof.
  intros H. destruct tl as [|y tl].
  - now apply head_ok_append.
  - rewrite join_comma_cons, append_assoc. now apply head_ok_append.
Qed.

Lemma elem_text_head (x : jsval) : head_ok (elem_text x) = true.
Proof.
  unfold elem_text. destruct (stringify_val x) eqn:E; [|reflexivity].
  eapply stringify_head; eauto.
Qed.

Lemma stringify_array (l : list jsval) :
  stringify_val (JArr l) =
  Some (String "[" (join_comma (List.map elem_text l) ++ "]")).
Proof. reflexivity. Qed.

Lemma stringify_object (m : list (string * jsval)) :
  stringify_val (JObj m) =
  Some (String "{" (join_comma (List.flat_map member_text m) ++ "}")).
Proof. reflexivity. Qed.

Theorem parse_stringify_val (v : jsval) : reads_back v.
Proof.
  induction v as [| |b|n|t|l IH|m IH] using jsval_nested_ind;
    intros s fuel rest Hj Hs Hf Hr; simpl in Hj; try discriminate;
    (destruct fuel as [|f]; [simpl in Hf; lia|]).
  - injection Hs as <-. reflexivity.
  - destruct b; injection Hs as <-; reflexivity.
  - simpl in Hs. injection Hs as <-.
    apply parse_value_number; [apply print_Z_head | now apply parse_number_print].
  - simpl in Hs. injection Hs as <-. unfold quote. cbn [append].
    rewrite parse_value_string_eq, append_assoc. cbn [append].
    now rewrite parse_string_quote.
  - rewrite stringify_array in Hs. injection Hs as <-. cbn [append].
    rewrite parse_value_array_eq, append_assoc. cbn [append].
    destruct l as [|x tl]; [reflexivity|].
    inversion IH as [|? ? Hx Htl]; subst.
    rewrite head_ok_skip_ws
      by (apply join_head_ok; apply elem_text_head).
    destruct (head_ok_not_closing
                (join_comma (List.map elem_text (x :: tl)) ++ String "]" rest))
      as [-> _]; [apply join_head_ok; apply elem_text_head|].
    rewrite parse_elements_text; auto.
    simpl in Hf. simpl. lia.
  - rewrite stringify_object in Hs. injection Hs as <-. cbn [append].
    apply andb_true_iff in Hj as [Hj Hd].
    rewrite parse_value_object_eq, append_assoc. cbn [append].
    destruct m as [|[k x] tl]; [reflexivity|].
    inversion IH as [|? ? Hx Htl]; subst.
    assert (Hh : head_ok (join_comma (List.flat_map member_text ((k, x) :: tl))
                          ++ String "}" rest) = true).
    { pose proof Hj as Hj'. cbn [forallb snd] in Hj'.
      apply andb_true_iff in Hj' as [Hjx _].
      destruct (member_text_value k x Hjx) as (sx & _ & Hmx).
      cbn [List.flat_map]. rewrite Hmx. cbn [List.app].
      now apply join_head_ok. }
    rewrite head_ok_skip_ws by assumption.
    destruct (head_ok_not_closing _ Hh) as [_ ->].
    rewrite parse_members_text; auto.
    + now rewrite obj_of_members_distinct.
    + simpl in Hf. simpl. lia.
Qed.

Lemma elements_size (l : list jsval) :
  Forall (fun x => forall s, json_value x = true -> stringify_val x = Some s ->
                             (jsize x <= 2 * String.length s)%nat) l ->
  forallb json_value l = true ->
  (list_sum (List.map (fun y => S (jsize y)) l)
   <= 2 * String.length (join_comma (List.map elem_text l)) + 2)%nat.
Proof.
  induction 1 as [|x tl Hx Htl IH]; intros Hj; [simpl; lia|].
  cbn [forallb] in Hj. apply andb_true_iff in Hj as [Hjx Hj].
  destruct (json_value_stringify x Hjx) as [sx Hsx].
  specialize (Hx sx Hjx Hsx). specialize (IH Hj).
  cbn [List.map list_sum fold_right] in *.
  change (fold_right Nat.add 0%nat (List.map (fun y => S (jsize y)) tl))
    with (list_sum (List.map (fun y => S (jsize y)) tl)) in *.
  destruct tl as [|y tl].
  - simpl. unfold elem_text. rewrite Hsx. lia.
  - change (List.map elem_text (y :: tl))
      with (elem_text y :: List.map elem_text tl) in *.
    rewrite join_comma_cons, length_append. cbn [String.length].
    unfold elem_text at 1. rewrite Hsx. lia.
Qed.

Lemma members_size (m : list (string * jsval)) :
  Forall (fun kv => forall s, json_value (snd kv) = true ->
                              stringify_val (snd kv) = Some s ->
                              (jsize (snd kv) <= 2 * String.length s)%nat) m ->
  forallb (fun kv => json_value (snd kv)) m = true ->
  (list_sum (List.map (fun kv => S (jsize (snd kv))) m)
   <= 2 * String.length (join_comma (List.flat_map member_text m)) + 2)%nat.
Proof.
  induction 1 as [|[k x] tl Hx Htl IH]; intros Hj; [simpl; lia|].
  cbn [forallb snd] in Hj. apply andb_true_iff in Hj as [Hjx Hj].
  destruct (member_text_value k x Hjx) as (sx & Hsx & Hmx).
  cbn [snd] in Hx. specialize (Hx sx Hjx Hsx). specialize (IH Hj).
  cbn [List.map list_sum fold_right List.flat_map snd] in *.
  change (fold_right Nat.add 0%nat (List.map (fun kv => S (jsize (snd kv))) tl))
    with (list_sum (List.map (fun kv => S (jsize (snd kv))) tl)) in *.
  rewrite Hmx. cbn [List.app].
  destruct tl as [|[k' y] tl].
  - simpl. rewrite length_append. simpl. lia.
  - cbn [forallb snd] in Hj. apply andb_true_iff in Hj as [Hjy _].
    destruct (member_text_value k' y Hjy) as (sy & Hsy & Hmy).
    cbn [List.flat_map] in *. rewrite Hmy in *. cbn [List.app] in *.
    rewrite (join_comma_cons (quote k ++ String ":" sx)).
    rewrite !length_append. cbn [String.length]. lia.
Qed.

Lemma jsize_text (v : jsval) :
  forall s, json_value v = true -> stringify_val v = Some s ->
            (jsize v <= 2 * String.length s)%nat.
Proof.
  induction v as [| |b|n|t|l IH|m IH] using jsval_nested_ind;
    intros s Hj Hs;
    try (pose proof (head_ok_length s (stringify_head _ s Hs)); simpl; lia).
  - rewrite stringify_array in Hs. simpl in Hj. injection Hs as <-.
    pose proof (elements_size l IH Hj).
    cbn [jsize String.length]. rewrite length_append. simpl String.length. lia.
  - rewrite stringify_object in Hs. simpl in Hj. injection Hs as <-.
    apply andb_true_iff in Hj as [Hj _].
    pose proof (members_size m IH Hj).
    cbn [jsize String.length]. rewrite length_append. simpl String.length. lia.
Qed.

(** [JSON.parse(JSON.stringify(v))] is [v] on the values of the JSON data
    model. *)
Theorem parse_stringify (v : jsval) :
  json_value v = true ->
  exists s, stringify v = Some s /\ parse s = Some v.
Proof.
  intros Hj. destruct (json_value_stringify v Hj) as [s Hs].
  exists s. split; [assumption|]. unfold parse.
  pose proof (jsize_text v s Hj Hs) as Hsz.
  rewrite <- (append_nil_r s) at 2.
  rewrite (parse_stringify_val v s _ EmptyString Hj Hs); [reflexivity | lia | reflexivity].
Qed.
(** *** The fuel of the parser *)

Lemma skip_ws_length (s : string) : (String.length (skip_ws s) <= String.length s)%nat.
Proof.
  induction s as [|c r IH]; simpl; [lia|].
  destruct (is_ws c); simpl; lia.
Qed.

Lemma starts_with_length (c : ascii) (s r : string) :
  starts_with c s = Some r -> String.length s = S (String.length r).
Proof.
  destruct s as [|c' s]; simpl; [discriminate|].
  destruct (Ascii.eqb c' c); [|discriminate]. now intros [= ->].
Qed.

Lemma expect_length (lit s r : string) :
  expect lit s = Some r -> (String.length r <= String.length s)%nat.
Proof.
  revert s. induction lit as [|a lit IH]; simpl; intros s.
  - intros [= ->]. lia.
  - destruct s as [|b s]; [discriminate|].
    destruct (Ascii.eqb a b); [|discriminate].
    intros H. apply IH in H. simpl. lia.
Qed.

Lemma parse_string_body_length (s t r : string) :
  parse_string_body s = Some (t, r) -> (String.length r < String.length s)%nat.
Proof.
  remember (String.length s) as n eqn:Hn. revert s t r Hn.
  induction n as [n IH] using lt_wf_ind. intros s t r Hn.
  destruct s as [|c s]; [discriminate|]. cbn [parse_string_body].
  destruct (Ascii.eqb c dquote).
  { intros [= _ <-]. subst. simpl. lia. }
  destruct (Ascii.eqb c backslash).
  - destruct s as [|e s1]; [discriminate|].
    destruct (Ascii.eqb e "u").
    + destruct s1 as [|h1 [|h2 [|h3 [|h4 s2]]]]; try discriminate.
      destruct (hex_value h1), (hex_value h2), (hex_value h3), (hex_value h4);
        try discriminate.
      destruct (_ && _)%bool; [|discriminate].
      destruct (parse_string_body s2) as [[t' r']|] eqn:E; [|discriminate].
      intros [= _ <-]. subst n. simpl.
      specialize (IH (String.length s2) ltac:(simpl; lia) s2 t' r' eq_refl E). lia.
    + destruct (unescape e); [|discriminate].
      destruct (parse_string_body s1) as [[t' r']|] eqn:E; [|discriminate].
      intros [= _ <-]. subst n. simpl.
      specialize (IH (String.length s1) ltac:(simpl; lia) s1 t' r' eq_refl E). lia.
  - destruct (nat_of_ascii c <? 32)%nat; [discriminate|].
    destruct (parse_string_body s) as [[t' r']|] eqn:E; [|discriminate].
    intros [= _ <-]. subst n. simpl.
    specialize (IH (String.length s) ltac:(simpl; lia) s t' r' eq_refl E). lia.
Qed.

Lemma take_digits_length (s : string) :
  (String.length (snd (take_digits s)) <= String.length s)%nat.
Proof.
  induction s as [|c r IH]; simpl; [lia|].
  destruct (digit_of_char c); [|simpl; lia].
  destruct (take_digits r). simpl in *. lia.
Qed.

Lemma take_frac_length (s : string) (f : uint) (r : string) :
  take_frac s = Some (f, r) -> (String.length r <= String.length s)%nat.
Proof.
  unfold take_frac. destruct s as [|c s]; [intros [= _ <-]; lia|].
  pose proof (take_digits_length s) as H.
  destruct c as [[] [] [] [] [] [] [] []]; try (intros [= _ <-]; simpl; lia).
  destruct (take_digits s) as [u r']. simpl in H.
  destruct u; try discriminate; intros [= _ <-]; simpl; lia.
Qed.

Lemma take_exp_length (s : string) (e : Z) (r : string) :
  take_exp s = Some (e, r) -> (String.length r <= String.length s)%nat.
Proof.
  unfold take_exp. destruct s as [|c s]; [intros [= _ <-]; lia|].
  destruct (Ascii.eqb c "e" || Ascii.eqb c "E")%bool; [|intros [= _ <-]; lia].
  destruct s as [|c1 s1]; [discriminate|].
  destruct c1 as [[] [] [] [] [] [] [] []];
    match goal with
    | |- context [take_digits ?x] =>
        pose proof (take_digits_length x) as H;
        destruct (take_digits x) as [u r']; simpl in H;
        destruct u; try discriminate; intros [= _ <-]; simpl in *; lia
    end.
Qed.

Lemma parse_number_length (s : string) (z : Z) (r : string) :
  parse_number s = Some (z, r) -> (String.length r <= String.length s)%nat.
Proof.
  unfold parse_number.
  set (hd := match s with String "-" r0 => (true, r0) | _ => (false, s) end).
  assert (Hhd : (String.length (snd hd) <= String.length s)%nat).
  { subst hd. destruct s as [|c s]; [simpl; lia|].
    destruct c as [[] [] [] [] [] [] [] []]; simpl; lia. }
  destruct hd as [neg s1]. simpl in Hhd.
  pose proof (take_digits_length s1) as H1.
  destruct (take_digits s1) as [ip s2]. simpl in H1.
  destruct (int_part_ok ip); [|discriminate].
  destruct (take_frac s2) as [[fp s3]|] eqn:Ef; [|discriminate].
  destruct (take_exp s3) as [[ex s4]|] eqn:Ee; [|discriminate].
  apply take_frac_length in Ef. apply take_exp_length in Ee. cbv zeta.
  destruct (0 <=? _)%Z; [intros [= _ <-]; lia|].
  destruct (_ =? 0)%Z; [intros [= _ <-]; lia | discriminate].
Qed.

Lemma parse_value_eq (f : nat) (s : string) :
  parse_value (S f) s =
  match skip_ws s with
  | EmptyString => None
  | String c r =>
      if Ascii.eqb c "n" then option_map (pair JNull) (expect "ull" r)
      else if Ascii.eqb c "t" then option_map (pair (JBool true)) (expect "rue" r)
      else if Ascii.eqb c "f" then option_map (pair (JBool false)) (expect "alse" r)
      else if Ascii.eqb c dquote then
        match parse_string_body r with
        | Some (t, r') => Some (JStr t, r')
        | None => None
        end
      else if Ascii.eqb c "[" then
        match starts_with "]" (skip_ws r) with
        | Some r' => Some (JArr [], r')
        | None =>
            match parse_elements f r with
            | Some (l, r') => Some (JArr l, r')
            | None => None
            end
        end
      else if Ascii.eqb c "{" then
        match starts_with "}" (skip_ws r) with
        | Some r' => Some (JObj [], r')
        | None =>
            match parse_members f r with
            | Some (ms, r') => Some (JObj (obj_of_members ms), r')
            | None => None
            end
        end
      else
        match parse_number (String c r) with
        | Some (z, r') => Some (JNum z, r')
        | None => None
        end
  end.
Proof. reflexivity. Qed.

(** No parser returns more text than it was given. *)
Lemma parse_length (f : nat) :
  (forall s v r, parse_value f s = Some (v, r) ->
                 (String.length r <= String.length s)%nat)
  /\ (forall s l r, parse_elements f s = Some (l, r) ->
                    (String.length r <= String.length s)%nat)
  /\ (forall s ms r, parse_members f s = Some (ms, r) ->
                     (String.length r <= String.length s)%nat).
Proof.
  induction f as [|f (IHv & IHe & IHm)].
  { repeat split; intros; discriminate. }
  split; [|split].
  - intros s v r. rewrite parse_value_eq.
    pose proof (skip_ws_length s) as Hs.
    destruct (skip_ws s) as [|c s1]; [discriminate|]. simpl in Hs.
    destruct (Ascii.eqb c "n").
    { destruct (expect "ull" s1) eqn:E; [|discriminate].
      apply expect_length in E. intros [= _ <-]. lia. }
    destruct (Ascii.eqb c "t").
    { destruct (expect "rue" s1) eqn:E; [|discriminate].
      apply expect_length in E. intros [= _ <-]. lia. }
    destruct (Ascii.eqb c "f").
    { destruct (expect "alse" s1) eqn:E; [|discriminate].
      apply expect_length in E. intros [= _ <-]. lia. }
    destruct (Ascii.eqb c dquote).
    { destruct (parse_string_body s1) as [[t r']|] eqn:E; [|discriminate].
      apply parse_string_body_length in E. intros [= _ <-]. lia. }
    pose proof (skip_ws_length s1) as Hs1.
    destruct (Ascii.eqb c "[").
    { destruct (starts_with "]" (skip_ws s1)) eqn:E.
      - apply starts_with_length in E. intros [= _ <-]. lia.
      - destruct (parse_elements f s1) as [[l r']|] eqn:E'; [|discriminate].
        apply IHe in E'. intros [= _ <-]. lia. }
    destruct (Ascii.eqb c "{").
    { destruct (starts_with "}" (skip_ws s1)) eqn:E.
      - apply starts_with_length in E. intros [= _ <-]. lia.
      - destruct (parse_members f s1) as [[l r']|] eqn:E'; [|discriminate].
        apply IHm in E'. intros [= _ <-]. lia. }
    destruct (parse_number (String c s1)) as [[z r']|] eqn:E; [|discriminate].
    apply parse_number_length in E. simpl in E. intros [= _ <-]. lia.
  - intros s l r. rewrite parse_elements_eq.
    destruct (parse_value f s) as [[v r1]|] eqn:E; [|discriminate].
    apply IHv in E. pose proof (skip_ws_length r1) as Hs.
    destruct (starts_with "," (skip_ws r1)) as [r2|] eqn:E1.
    + apply starts_with_length in E1.
      destruct (parse_elements f r2) as [[l' r3]|] eqn:E2; [|discriminate].
      apply IHe in E2. intros [= _ <-]. lia.
    + destruct (starts_with "]" (skip_ws r1)) as [r2|] eqn:E2; [|discriminate].
      apply starts_with_length in E2. intros [= _ <-]. lia.
  - intros s ms r. rewrite parse_members_eq.
    pose proof (skip_ws_length s) as Hs.
    destruct (starts_with dquote (skip_ws s)) as [r0|] eqn:E0; [|discriminate].
    apply starts_with_length in E0.
    destruct (parse_string_body r0) as [[k r1]|] eqn:E1; [|discriminate].
    apply parse_string_body_length in E1.
    pose proof (skip_ws_length r1) as Hs1.
    destruct (starts_with ":" (skip_ws r1)) as [r2|] eqn:E2; [|discriminate].
    apply starts_with_length in E2.
    destruct (parse_value f r2) as [[v r3]|] eqn:E3; [|discriminate].
    apply IHv in E3. pose proof (skip_ws_length r3) as Hs3.
    destruct (starts_with "," (skip_ws r3)) as [r4|] eqn:E4.
    + apply starts_with_length in E4.
      destruct (parse_members f r4) as [[ms' r5]|] eqn:E5; [|discriminate].
      apply IHm in E5. intros [= _ <-]. lia.
    + destruct (starts_with "}" (skip_ws r3)) as [r4|] eqn:E5; [|discriminate].
      apply starts_with_length in E5. intros [= _ <-]. lia.
Qed.

(** More fuel than twice the length of the text changes nothing. *)
Lemma parse_fuel_stable (f : nat) :
  (forall s f', (2 * String.length s + 1 <= f)%nat -> (f <= f')%nat ->
                parse_value f' s = parse_value f s)
  /\ (forall s f', (2 * String.length s + 2 <= f)%nat -> (f <= f')%nat ->
                   parse_elements f' s = parse_elements f s)
  /\ (forall s f', (2 * String.length s + 2 <= f)%nat -> (f <= f')%nat ->
                   parse_members f' s = parse_members f s).
Proof.
  induction f as [|f (IHv & IHe & IHm)].
  { repeat split; intros; lia. }
  destruct (parse_length f) as (Lv & Le & Lm).
  split; [|split]; intros s f' Hf Hf'; (destruct f' as [|f']; [lia|]).
  - rewrite !parse_value_eq.
    pose proof (skip_ws_length s) as Hs.
    destruct (skip_ws s) as [|c s1]; [reflexivity|]. simpl in Hs.
    rewrite (IHe s1 f'), (IHm s1 f') by lia. reflexivity.
  - rewrite !parse_elements_eq.
    rewrite (IHv s f') by lia.
    destruct (parse_value f s) as [[v r1]|] eqn:E; [|reflexivity].
    apply Lv in E. pose proof (skip_ws_length r1) as Hs.
    destruct (starts_with "," (skip_ws r1)) as [r2|] eqn:E1; [|reflexivity].
    apply starts_with_length in E1.
    rewrite (IHe r2 f') by lia. reflexivity.
  - rewrite !parse_members_eq.
    pose proof (skip_ws_length s) as Hs.
    destruct (starts_with dquote (skip_ws s)) as [r0|] eqn:E0; [|reflexivity].
    apply starts_with_length in E0.
    destruct (parse_string_body r0) as [[k r1]|] eqn:E1; [|reflexivity].
    apply parse_string_body_length in E1.
    pose proof (skip_ws_length r1) as Hs1.
    destruct (starts_with ":" (skip_ws r1)) as [r2|] eqn:E2; [|reflexivity].
    apply starts_with_length in E2.
    rewrite (IHv r2 f') by lia.
    destruct (parse_value f r2) as [[v r3]|] eqn:E3; [|reflexivity].
    apply Lv in E3. pose proof (skip_ws_length r3) as Hs3.
    destruct (starts_with "," (skip_ws r3)) as [r4|] eqn:E4; [|reflexivity].
    apply starts_with_length in E4.
    rewrite (IHm r4 f') by lia. reflexivity.
Qed.

(** [JSON.parse] does not depend on its fuel: every larger supply reads the
    text the same way, so a failure is a failure of the text. *)
Theorem parse_fuel_enough (s : string) (f : nat) :
  (2 * String.length s + 2 <= f)%nat ->
  parse_value f s = parse_value (2 * String.length s + 2) s.
Proof.
  intros Hf. destruct (parse_fuel_stable (2 * String.length s + 2)) as (Hv & _ & _).
  apply Hv; lia.
Qed.
End JSONFacts.

(* ================================================================== *)
(** ** The insertion-ordered map *)

Module JSMapFacts.

Lemma key_eqb_spec (a b : cachekey) : reflect (a = b) (key_eqb a b).
Proof.
  destruct a as [s|], b as [t|]; simpl; try (constructor; congruence).
  destruct (String.eqb_spec s t); constructor; congruence.
Qed.

Lemma key_eqb_refl (a : cachekey) : key_eqb a a = true.
Proof. destruct (key_eqb_spec a a); congruence. Qed.

Lemma key_eqb_neq (a b : cachekey) : a <> b -> key_eqb a b = false.
Proof. destruct (key_eqb_spec a b); congruence. Qed.

Section WithValue.
Context {V : Type}.
Implicit Types (m : list (cachekey * V)) (k : cachekey) (v : V).

Lemma get_set_same k v m : JSMap.get k (JSMap.set k v m) = Some v.
Proof.
  induction m as [|[k' v'] tl IH]; simpl.
  - now rewrite key_eqb_refl.
  - destruct (key_eqb k' k) eqn:E; simpl; now rewrite E.
Qed.

Lemma get_set_other k k' v m :
  k <> k' -> JSMap.get k' (JSMap.set k v m) = JSMap.get k' m.
Proof.
  intros Hne. induction m as [|[k0 v0] tl IH]; simpl.
  - now rewrite key_eqb_neq.
  - destruct (key_eqb_spec k0 k) as [->|Hk]; simpl.
    + now rewrite key_eqb_neq.
    + now rewrite IH.
Qed.

Lemma get_delete_other k k' m :
  k <> k' -> JSMap.get k' (JSMap.delete k m) = JSMap.get k' m.
Proof.
  intros Hne. induction m as [|[k0 v0] tl IH]; simpl; [reflexivity|].
  destruct (key_eqb_spec k0 k) as [->|Hk]; simpl.
  - now rewrite key_eqb_neq.
  - now rewrite IH.
Qed.

Lemma get_delete_same k m :
  JSMap.wf m = true -> JSMap.get k (JSMap.delete k m) = None.
Proof.
  induction m as [|[k0 v0] tl IH]; simpl; [reflexivity|].
  intros H. apply andb_true_iff in H as [Hn Hw].
  destruct (key_eqb_spec k0 k) as [->|Hk]; simpl.
  - unfold JSMap.has in Hn. now destruct (JSMap.get k tl).
  - rewrite key_eqb_neq by assumption. now apply IH.
Qed.

Lemma has_delete_other k k' m :
  k <> k' -> JSMap.has k' (JSMap.delete k m) = JSMap.has k' m.
Proof. intros. unfold JSMap.has. now rewrite get_delete_other. Qed.

Lemma has_set_other k k' v m :
  k <> k' -> JSMap.has k' (JSMap.set k v m) = JSMap.has k' m.
Proof. intros. unfold JSMap.has. now rewrite get_set_other. Qed.

Lemma has_delete_le k k' m :
  JSMap.has k' m = false -> JSMap.has k' (JSMap.delete k m) = false.
Proof.
  unfold JSMap.has. induction m as [|[k0 v0] tl IH]; simpl; [reflexivity|].
  destruct (key_eqb k0 k') eqn:E0; [discriminate|]. intros H.
  destruct (key_eqb k0 k); simpl; [assumption|]. rewrite E0. now apply IH.
Qed.

Lemma wf_delete k m : JSMap.wf m = true -> JSMap.wf (JSMap.delete k m) = true.
Proof.
  induction m as [|[k0 v0] tl IH]; simpl; [reflexivity|].
  intros H. apply andb_true_iff in H as [Hn Hw].
  destruct (key_eqb k0 k); simpl; [assumption|].
  rewrite (IH Hw), andb_true_r. apply negb_true_iff in Hn.
  now rewrite has_delete_le.
Qed.

Lemma wf_set k v m : JSMap.wf m = true -> JSMap.wf (JSMap.set k v m) = true.
Proof.
  induction m as [|[k0 v0] tl IH]; simpl; [reflexivity|].
  intros H. apply andb_true_iff in H as [Hn Hw].
  destruct (key_eqb_spec k0 k) as [->|Hk]; simpl.
  - now rewrite Hn, Hw.
  - rewrite (IH Hw), andb_true_r.
    rewrite has_set_other by congruence. assumption.
Qed.

Lemma length_set k v m :
  List.length (JSMap.set k v m) =
  if JSMap.has k m then List.length m else S (List.length m).
Proof.
  unfold JSMap.has. induction m as [|[k0 v0] tl IH]; simpl; [reflexivity|].
  destruct (key_eqb k0 k); simpl; [reflexivity|].
  rewrite IH. now destruct (JSMap.get k tl).
Qed.

Lemma length_delete k m :
  List.length (JSMap.delete k m) =
  if JSMap.has k m then pred (List.length m) else List.length m.
Proof.
  unfold JSMap.has. induction m as [|[k0 v0] tl IH]; simpl; [reflexivity|].
  destruct (key_eqb k0 k); simpl; [reflexivity|].
  rewrite IH. destruct (JSMap.get k tl) eqn:E; [|reflexivity].
  destruct tl; [discriminate | reflexivity].
Qed.

Lemma delete_absent k m : JSMap.has k m = false -> JSMap.delete k m = m.
Proof.
  unfold JSMap.has. induction m as [|[k0 v0] tl IH]; simpl; [reflexivity|].
  destruct (key_eqb k0 k); [discriminate|]. intros H. now rewrite IH.
Qed.

Lemma get_app_absent k (pre m : list (cachekey * V)) :
  JSMap.has k pre = false -> JSMap.get k (pre ++ m) = JSMap.get k m.
Proof.
  unfold JSMap.has. induction pre as [|[k0 v0] tl IH]; simpl; [reflexivity|].
  destruct (key_eqb k0 k); [discriminate | assumption].
Qed.

Lemma delete_app_absent k (pre m : list (cachekey * V)) :
  JSMap.has k pre = false ->
  JSMap.delete k (pre ++ m) = pre ++ JSMap.delete k m.
Proof.
  unfold JSMap.has. induction pre as [|[k0 v0] tl IH]; simpl; [reflexivity|].
  destruct (key_eqb k0 k); [discriminate|]. intros H. now rewrite IH.
Qed.

Lemma has_app k (pre m : list (cachekey * V)) :
  JSMap.has k (pre ++ m) = JSMap.has k pre || JSMap.has k m.
Proof.
  unfold JSMap.has. induction pre as [|[k0 v0] tl IH]; simpl; [reflexivity|].
  destruct (key_eqb k0 k); [reflexivity | assumption].
Qed.

Lemma get_In k v m : JSMap.get k m = Some v -> In (k, v) m.
Proof.
  induction m as [|[k0 v0] tl IH]; simpl; [discriminate|].
  destruct (key_eqb_spec k0 k) as [->|Hk].
  - intros [= ->]. now left.
  - intros H. right. now apply IH.
Qed.

Lemma In_has k v m : In (k, v) m -> JSMap.has k m = true.
Proof.
  unfold JSMap.has. induction m as [|[k0 v0] tl IH]; simpl; [tauto|].
  intros [[= -> ->]|H].
  - now rewrite key_eqb_refl.
  - destruct (key_eqb k0 k); [reflexivity | now apply IH].
Qed.

Lemma wf_In_get k v m : JSMap.wf m = true -> In (k, v) m -> JSMap.get k m = Some v.
Proof.
  induction m as [|[k0 v0] tl IH]; simpl; [tauto|].
  intros H. apply andb_true_iff in H as [Hn Hw].
  intros [[= -> ->]|Hin].
  - now rewrite key_eqb_refl.
  - destruct (key_eqb_spec k0 k) as [->|Hk]; [|now apply IH].
    apply In_has in Hin. rewrite Hin in Hn. discriminate.
Qed.
Lemma wf_app_cons k v (pre tl : list (cachekey * V)) :
  JSMap.wf (pre ++ (k, v) :: tl) = true ->
  JSMap.has k pre = false /\ JSMap.wf (pre ++ tl) = true.
Proof.
  induction pre as [|[k0 v0] pre IH]; simpl.
  - intros H. apply andb_true_iff in H as [_ Hw]. auto.
  - intros H. apply andb_true_iff in H as [Hn Hw].
    destruct (IH Hw) as [Hp Hw']. apply negb_true_iff in Hn.
    rewrite has_app in Hn. apply orb_false_iff in Hn as [Hn1 Hn2].
    unfold JSMap.has in *. simpl in *.
    destruct (key_eqb_spec k0 k) as [->|Hk].
    + now rewrite key_eqb_refl in Hn2.
    + split; [assumption|]. rewrite Hw', andb_true_r.
      apply negb_true_iff.
      change (JSMap.has k0 (pre ++ tl) = false). rewrite has_app.
      unfold JSMap.has. rewrite Hn1. simpl.
      destruct (key_eqb k k0); [discriminate | assumption].
Qed.
End WithValue.

End JSMapFacts.

(* ================================================================== *)
(** ** The cache *)

Module CacheFacts.
Import CacheManager JSMapFacts Examples.

(** [cloneData] returns a value of the JSON data model as it is, having
    written it to text and read it back when it is an array or an object. *)
Lemma cloneData_json_value (v : jsval) :
  JSON.json_value v = true -> cloneData v = v.
Proof.
  intros Hj. unfold cloneData.
  destruct (is_null v || negb (typeof_object v)); [reflexivity|].
  destruct (JSONFacts.parse_stringify v Hj) as (s & -> & ->). reflexivity.
Qed.

Lemma cloneData_text (v : jsval) :
  is_null v = false -> typeof_object v = true ->
  cloneData v =
  match JSON.stringify v with
  | Some s => match JSON.parse s with Some w => w | None => v end
  | None => v
  end.
Proof. intros H1 H2. unfold cloneData. now rewrite H1, H2. Qed.

Lemma delete_options (cm : t) (key : jsval) :
  options (snd (delete cm key)) = options cm.
Proof. unfold delete. now destruct (JSMap.get _ _). Qed.

Lemma evictLeastUsed_options (cm : t) : options (evictLeastUsed cm) = options cm.
Proof.
  unfold evictLeastUsed. destruct (key_truthy _); [|reflexivity].
  destruct (fst _); [|reflexivity]. simpl. apply delete_options.
Qed.

Lemma set_lookup (cm : t) (key value : jsval) (o : SetOptions) (now : Z) :
  JSMap.get (normalizeKey key) (cache (snd (set cm key value o now)))
  = Some (stored_entry cm value o now).
Proof.
  unfold set. cbn [snd cache]. rewrite get_set_same. f_equal.
  unfold stored_entry.
  assert (Ho : options (if (JSMap.size (cache cm) >=? maxSize (options cm))
                           && negb (JSMap.has (normalizeKey key) (cache cm))
                        then evictLeastUsed cm else cm) = options cm).
  { destruct (_ && _); [apply evictLeastUsed_options | reflexivity]. }
  rewrite Ho. unfold compress, encrypt.
  destruct (compressionEnabled (options cm) && _),
           (encryptionEnabled (options cm)); reflexivity.
Qed.

(** Reading, under any key of the same normalized form and before the expiry,
    what [set] has just stored. *)
Lemma get_after_set (cm : t) (k1 k2 value d : jsval) (o : SetOptions)
  (now now' : Z) :
  normalizeKey k1 = normalizeKey k2 ->
  now' <= now + effective_ttl cm o ->
  fst (get (snd (set cm k1 value o now)) k2 d now')
  = cloneData (cloneData value).
Proof.
  intros Hk Hnow. unfold get. rewrite <- Hk, set_lookup.
  unfold isExpired. cbn [expiresAt stored_entry].
  assert (Hgt : (now' >? now + effective_ttl cm o) = false)
    by (rewrite Z.gtb_ltb; apply Z.ltb_ge; lia).
  rewrite Hgt, andb_false_r. reflexivity.
Qed.

(** C1.  Storing a value of the JSON data model under a key and reading
    the key back no later than [ttl] after the store returns that value:
    [set] keeps [cloneData value], [get] returns [cloneData] of what is
    kept, and both clones are the value itself. *)
Theorem set_get_roundtrip (cm : t) (key value d : jsval) (o : SetOptions)
  (now now' : Z) :
  JSON.json_value value = true ->
  now' <= now + effective_ttl cm o ->
  fst (get (snd (set cm key value o now)) key d now') = value
  /\ exists e,
       JSMap.get (normalizeKey key) (cache (snd (set cm key value o now))) = Some e
       /\ data e = cloneData value
       /\ fst (get (snd (set cm key value o now)) key d now') = cloneData (data e).
Proof.
  intros Hj Hnow.
  pose proof (get_after_set cm key key value d o now now' eq_refl Hnow) as Hget.
  split.
  - rewrite Hget, (cloneData_json_value value Hj).
    exact (cloneData_json_value value Hj).
  - exists (stored_entry cm value o now).
    split; [apply set_lookup | split; [reflexivity | exact Hget]].
Qed.

Lemma set_get_roundtrip_witness :
  JSON.json_value example_value = true
  /\ 500 <= 0 + effective_ttl example_cache ttl_1000
  /\ fst (get (snd (set example_cache (JStr "p1") example_value ttl_1000 0))
            (JStr "p1") JUndefined 500) = example_value.
Proof.
  split; [reflexivity|]. split; [cbn; lia|].
  apply (set_get_roundtrip example_cache (JStr "p1") example_value JUndefined
           ttl_1000 0 500); [reflexivity | cbn; lia].
Defined.

Lemma delete_lookup (cm : t) (key : jsval) :
  JSMap.wf (cache cm) = true ->
  JSMap.get (normalizeKey key) (cache (snd (delete cm key))) = None.
Proof.
  intros Hwf. unfold delete.
  destruct (JSMap.get (normalizeKey key) (cache cm)) eqn:E; cbn [snd cache].
  - now apply get_delete_same.
  - assumption.
Qed.

Lemma set_wf (cm : t) (key value : jsval) (o : SetOptions) (now : Z) :
  JSMap.wf (cache cm) = true ->
  JSMap.wf (cache (snd (set cm key value o now))) = true.
Proof.
  intros Hwf. unfold set. cbn [snd cache]. apply wf_set.
  destruct (_ && _); [|assumption].
  unfold evictLeastUsed. destruct (key_truthy _); [|assumption].
  destruct (fst _); [|assumption].
  cbn [with_statistics cache]. unfold delete.
  destruct (JSMap.get _ _); cbn [snd cache]; [now apply wf_delete | assumption].
Qed.





Lemma stringify_injective (k1 k2 : jsval) :
  JSON.json_value k1 = true -> JSON.json_value k2 = true ->
  JSON.stringify k1 = JSON.stringify k2 -> k1 = k2.
Proof.
  intros H1 H2 Heq.
  destruct (JSONFacts.parse_stringify k1 H1) as (s1 & Hs1 & Hp1).
  destruct (JSONFacts.parse_stringify k2 H2) as (s2 & Hs2 & Hp2).
  rewrite Hs1, Hs2 in Heq. injection Heq as <-. congruence.
Qed.

(** The normalized forms of two keys of the JSON data model are equal
    exactly when the keys are the same in the sense above. *)
Lemma normalizeKey_same_key (k1 k2 : jsval) :
  JSON.json_value k1 = true -> JSON.json_value k2 = true ->
  normalizeKey k1 = normalizeKey k2 <-> same_key k1 k2.
Proof.
  intros H1 H2.
  assert (Hinj : JSON.stringify k1 = JSON.stringify k2 -> k1 = k2)
    by now apply stringify_injective.
  destruct k1 as [| |b1|n1|s1|l1|m1], k2 as [| |b2|n2|s2|l2|m2];
    try discriminate H1; try discriminate H2;
    unfold normalizeKey, same_key;
    try (split; [exact Hinj | now intros ->]);
    try (split; [intros [= ->]; reflexivity | now intros ->]);
    try (split; intros H; congruence).
Qed.

(** C10.  A key is looked up under its normalized form: a string under
    itself, a key that is not a string under its JSON text.  So the forms
    of two keys are equal exactly when the keys are equal strings, a string
    and the key whose JSON text it is, or equal keys that are not strings;
    and two such keys name one entry: what [set] stores under the first is
    read by [get] under the second, and [get], [has], [delete], [touch]
    and [set] do to the cache under one what they do under the other.  The
    keys are values of the JSON data model that this model writes as the
    engine does. *)
Theorem same_normalized_key_same_entry (cm : t) (k1 k2 value d : jsval)
  (o : SetOptions) (a : option Z) (now now' : Z) :
  JSON.json_value k1 = true -> JSON.safe_value k1 = true ->
  JSON.json_value k2 = true -> JSON.safe_value k2 = true ->
  JSON.json_value value = true ->
  now' <= now + effective_ttl cm o ->
  (normalizeKey k1 = normalizeKey k2 <-> same_key k1 k2)
  /\ (same_key k1 k2 ->
      fst (get (snd (set cm k1 value o now)) k2 d now') = value
      /\ get cm k1 d now = get cm k2 d now
      /\ has cm k1 now = has cm k2 now
      /\ delete cm k1 = delete cm k2
      /\ fst (touch cm k1 a now) = fst (touch cm k2 a now)
      /\ cache (snd (touch cm k1 a now)) = cache (snd (touch cm k2 a now))
      /\ cache (snd (set cm k1 value o now))
         = cache (snd (set cm k2 value o now))).
Proof.
  intros Hj1 _ Hj2 _ Hj Hnow.
  pose proof (normalizeKey_same_key k1 k2 Hj1 Hj2) as Hiff.
  split; [exact Hiff|]. intros Hsame. apply Hiff in Hsame as Hk.
  assert (Hdel : delete cm k1 = delete cm k2)
    by (unfold delete; now rewrite Hk).
  split.
  { rewrite (get_after_set cm k1 k2 value d o now now' Hk Hnow).
    rewrite (cloneData_json_value value Hj).
    exact (cloneData_json_value value Hj). }
  split; [unfold get; now rewrite Hk, Hdel|].
  split; [unfold has; now rewrite Hk, Hdel|].
  split; [exact Hdel|].
  split; [unfold touch; rewrite Hk;
          destruct (JSMap.get (normalizeKey k2) (cache cm)); [|reflexivity];
          now destruct (isExpired _ _)|].
  split; [unfold touch; rewrite Hk;
          destruct (JSMap.get (normalizeKey k2) (cache cm)); [|reflexivity];
          now destruct (isExpired _ _)|].
  unfold set. cbn [snd cache]. now rewrite Hk.
Qed.

(** The number 1 and the string of the digit 1 name one entry; the number 1
    and the array of the number 1 do not. *)
Lemma same_normalized_key_same_entry_witness :
  normalizeKey (JNum 1) = Some "1"%string
  /\ normalizeKey (JStr "1") = Some "1"%string
  /\ normalizeKey (JArr [JNum 1]) = Some "[1]"%string
  /\ fst (get (snd (set example_cache (JNum 1) example_value ttl_1000 0))
            (JStr "1") JUndefined 500) = example_value
  /\ has example_cache (JNum 1) 0 = has example_cache (JStr "1") 0.
Proof.
  destruct (same_normalized_key_same_entry example_cache (JNum 1) (JStr "1")
              example_value JUndefined ttl_1000 None 0 500
              eq_refl eq_refl eq_refl eq_refl eq_refl ltac:(cbn; lia))
    as [Hiff Hsame].
  destruct (Hsame (proj1 Hiff eq_refl)) as (Hget & _ & Hhas & _).
  repeat split; assumption || reflexivity.
Defined.

(** Every operation that takes a key looks it up under [normalizeKey]: a
    string under itself, any other key under its JSON text. *)
Lemma normalizeKey_text (k : jsval) :
  normalizeKey k = match k with JStr s => Some s | _ => JSON.stringify k end.
Proof. reflexivity. Qed.

(** *** Capacity and eviction *)

(** What [set] records about the expiry of the entry it stores. *)
Lemma stored_entry_expiry (cm : t) (value : jsval) (o : SetOptions) (now : Z) :
  ttl (stored_entry cm value o now) = effective_ttl cm o
  /\ timestamp (stored_entry cm value o now) = now
  /\ expiresAt (stored_entry cm value o now)
     = timestamp (stored_entry cm value o now) + ttl (stored_entry cm value o now).
Proof. repeat split. Qed.

(** A [set] under a key that is present evicts nothing: the entry of the key
    is replaced where it stands. *)
Lemma set_present_key (cm : t) (key value : jsval) (o : SetOptions) (now : Z) :
  JSMap.has (normalizeKey key) (cache cm) = true ->
  cache (snd (set cm key value o now))
  = JSMap.set (normalizeKey key) (stored_entry cm value o now) (cache cm)
  /\ evictions (statistics (snd (set cm key value o now)))
     = evictions (statistics cm).
Proof.
  intros Hhas.
  pose proof (set_lookup cm key value o now) as Hl.
  unfold set in *. rewrite Hhas, andb_false_r in *. cbn [snd cache] in *.
  rewrite get_set_same in Hl. injection Hl as Hl. rewrite Hl.
  split; reflexivity.
Qed.

(** C3 at a failing input.  With [maxSize = 1], [set] under the empty string
    and then under another key leaves two entries: the entry chosen for
    eviction has the empty string as its key, which [if (leastUsedKey)] takes
    for no key at all. *)
Lemma set_exceeds_maxSize :
  let cm1 := snd (set (cache_of_capacity 1) (JStr EmptyString) (JNum 1) no_options 1000) in
  let cm2 := snd (set cm1 (JStr "b") (JNum 2) no_options 2000) in
  maxSize (options cm2) = 1
  /\ JSMap.size (cache cm1) = 1
  /\ JSMap.size (cache cm2) = 2
  /\ evictions (statistics cm2) = 0.
Proof. repeat split. Qed.

(** C4 at a failing input.  With [maxSize = 1] and the one entry stored under
    a key that is the text of a JSON string literal, a [set] under a new key
    removes nothing: [evictLeastUsed] chooses that entry, [denormalizeKey]
    turns its key into the string the literal denotes, and [delete] looks
    that string up and finds no entry.  The eviction is counted all the
    same. *)
Lemma set_at_capacity_removes_nothing :
  let cm1 := snd (set (cache_of_capacity 1) (JStr quoted_a) (JNum 1) no_options 1000) in
  let cm2 := snd (set cm1 (JStr "b") (JNum 2) no_options 2000) in
  JSMap.size (cache cm1) = maxSize (options cm1)
  /\ JSMap.has (Some "b"%string) (cache cm1) = false
  /\ fst (leastUsed cm1 (cache cm1) None None) = Some (Some quoted_a)
  /\ denormalizeKey (Some quoted_a) = JStr "a"
  /\ List.map fst (cache cm2) = [Some quoted_a; Some "b"%string]
  /\ deletes (statistics cm2) = 0
  /\ evictions (statistics cm2) = 1.
Proof. repeat split. Qed.

(** C5 at a failing input.  With [maxSize = 2], an entry under the text of a
    string literal (score 2) and an entry under the string that literal
    denotes (score 4), a [set] under a third key evicts the entry of score 4:
    the entry of the lowest score is chosen, and the key handed to [delete]
    is the other entry's. *)
Lemma evicts_entry_of_higher_score :
  let cm1 := snd (set (cache_of_capacity 2) (JStr quoted_a) (JNum 1) no_options 1000) in
  let cm2 := snd (set cm1 (JStr "a") (JNum 2) no_options 2000) in
  let cm3 := snd (set cm2 (JStr "b") (JNum 3) no_options 3000) in
  List.map (fun ke => (fst ke, Qred (score cm2 (fst ke) (snd ke)))) (cache cm2)
    = [(Some quoted_a, 2 # 1); (Some "a"%string, 4 # 1)]
  /\ fst (leastUsed cm2 (cache cm2) None None) = Some (Some quoted_a)
  /\ List.map fst (cache cm3) = [Some quoted_a; Some "b"%string]
  /\ evictions (statistics cm3) = 1.
Proof. repeat split. Qed.

(** *** Keys that are read back

    The hypothesis [key_returns] of what follows holds of the keys an
    application uses: of strings that are plainly no JSON text, and of the
    normalized forms of keys that are not strings. *)

Lemma plain_text_not_json (s : string) :
  plain_text s = true -> JSON.parse s = None.
Proof.
  intros Hp. unfold JSON.parse.
  replace (2 * String.length s + 2)%nat with (S (2 * String.length s + 1))
    by lia.
  rewrite JSONFacts.parse_value_eq.
  destruct s as [|c r]; [reflexivity|].
  cbn [plain_text] in Hp. cbn [JSON.skip_ws].
  destruct (JSON.is_ws c); [discriminate|].
  destruct (Ascii.eqb c "n").
  { destruct (JSON.expect "ull" r); [discriminate | reflexivity]. }
  destruct (Ascii.eqb c "t").
  { destruct (JSON.expect "rue" r); [discriminate | reflexivity]. }
  destruct (Ascii.eqb c "f").
  { destruct (JSON.expect "alse" r); [discriminate | reflexivity]. }
  apply negb_true_iff in Hp.
  apply orb_false_elim in Hp as [Hp Hd].
  apply orb_false_elim in Hp as [Hp Hm].
  apply orb_false_elim in Hp as [Hp Hb].
  apply orb_false_elim in Hp as [Hq Ha].
  rewrite Hq, Ha, Hb.
  unfold JSON.parse_number.
  destruct c as [[] [] [] [] [] [] [] []]; try discriminate Hm;
    try discriminate Hd; reflexivity.
Qed.

Lemma well_read_returns (k : cachekey) :
  well_read k = true -> key_returns k.
Proof.
  intros Hw. split; [assumption|].
  destruct k as [s|]; [|reflexivity].
  cbn [well_read] in Hw. apply orb_true_iff in Hw as [Hp|Hv].
  - cbn [denormalizeKey]. now rewrite (plain_text_not_json s Hp).
  - cbn [denormalizeKey]. destruct (JSON.parse s) as [v|]; [|discriminate].
    apply andb_true_iff in Hv as [Hv Ht].
    apply andb_true_iff in Hv as [_ Hn].
    unfold text_is in Ht.
    destruct (JSON.stringify v) as [t|] eqn:Es; [|discriminate].
    apply String.eqb_eq in Ht. subst t.
    destruct v; try discriminate Hn; exact Es.
Qed.

Lemma safe_key_returns (key : jsval) :
  JSON.json_value key = true -> JSON.safe_value key = true ->
  is_string_value key = false ->
  key_returns (normalizeKey key).
Proof.
  intros Hj Hs Hn. apply well_read_returns.
  destruct (JSONFacts.parse_stringify key Hj) as (s & Es & Ep).
  assert (Hk : normalizeKey key = Some s)
    by (destruct key; try discriminate Hn; exact Es).
  rewrite Hk. cbn [well_read]. rewrite Ep, Hj, Hs, Hn, Es.
  unfold text_is. rewrite String.eqb_refl. apply orb_true_r.
Qed.

(** *** [clear] by tags *)

Lemma delete_matching_filter (matches : cachekey -> Entry -> bool)
  (es : list (cachekey * Entry)) :
  forall (pre : list (cachekey * Entry)) (cm : t),
    cache cm = pre ++ es ->
    JSMap.wf (pre ++ es) = true ->
    (forall k e, In (k, e) es -> key_returns k) ->
    cache (delete_matching matches es cm)
    = pre ++ List.filter (fun ke => negb (matches (fst ke) (snd ke))) es.
Proof.
  induction es as [|[k e] tl IH]; intros pre cm Hc Hwf Hk.
  - simpl. now rewrite Hc.
  - cbn [delete_matching List.filter fst snd].
    assert (Hhas : JSMap.has k (cache cm) = true).
    { rewrite Hc, has_app. unfold JSMap.has at 2. simpl.
      rewrite key_eqb_refl. apply orb_true_r. }
    rewrite Hhas.
    destruct (wf_app_cons k e pre tl Hwf) as [Hpre Hwf'].
    destruct (matches k e); cbn [negb].
    + apply IH; [|assumption|intros; eapply Hk; right; eassumption].
      unfold delete. rewrite (proj2 (Hk k e (or_introl eq_refl))).
      unfold JSMap.has in Hhas.
      destruct (JSMap.get k (cache cm)); [|discriminate].
      cbn [snd cache]. rewrite Hc, delete_app_absent by assumption.
      simpl. now rewrite key_eqb_refl.
    + rewrite (IH (pre ++ [(k, e)]) cm).
      * now rewrite <- List.app_assoc.
      * now rewrite <- List.app_assoc.
      * now rewrite <- List.app_assoc.
      * intros; eapply Hk; right; eassumption.
Qed.

(** C6, as the code has it.  When every key of the cache is taken back to
    itself by [denormalizeKey] and [normalizeKey], in the engine as here
    ([key_returns]), [clear] with a tag list
    that is not empty leaves exactly the entries none of whose tags is in the
    list, each as it was and in the same order. *)
Theorem clear_by_tags (cm : t) (ts : list string) (p : option (jsval -> bool)) :
  ts <> [] ->
  JSMap.wf (cache cm) = true ->
  (forall k e, In (k, e) (cache cm) -> key_returns k) ->
  cache (clear cm {| clear_tags := Some ts; clear_pattern := p |})
  = List.filter (fun ke => negb (tags_match ts (snd ke))) (cache cm).
Proof.
  intros Hts Hwf Hk. unfold clear. cbn [clear_tags].
  destruct ts as [|tag more]; [contradiction|].
  now rewrite (delete_matching_filter _ (cache cm) [] cm).
Qed.

Lemma clear_by_tags_witness :
  ["x"%string] <> []
  /\ JSMap.wf (cache two_tagged_entries) = true
  /\ List.map fst
       (cache (clear two_tagged_entries
                 {| clear_tags := Some ["x"%string]; clear_pattern := None |}))
     = [Some "p2"%string].
Proof.
  split; [discriminate|]. split; [reflexivity|].
  rewrite (clear_by_tags two_tagged_entries ["x"%string] None);
    [reflexivity | discriminate | reflexivity |].
  intros k e [H|[H|[]]]; injection H as <- _; split; reflexivity.
Defined.

(** C6, as the specification has it, fails: [clear] with an empty tag list
    removes every entry, though no entry has a tag in the empty list. *)
Lemma clear_empty_tags_removes_all :
  List.map fst (cache two_tagged_entries) = [Some "p1"%string; Some "p2"%string]
  /\ List.filter (fun ke => negb (tags_match [] (snd ke))) (cache two_tagged_entries)
     = cache two_tagged_entries
  /\ cache (clear two_tagged_entries {| clear_tags := Some []; clear_pattern := None |})
     = [].
Proof. repeat split. Qed.

(** The periodic sweep removes exactly the expired entries of a cache whose
    keys are taken back to themselves. *)
Lemma cleanupExpired_filter (cm : t) (now : Z) :
  JSMap.wf (cache cm) = true ->
  (forall k e, In (k, e) (cache cm) -> key_returns k) ->
  cache (cleanupExpired cm now)
  = List.filter (fun ke => negb (isExpired (snd ke) now)) (cache cm).
Proof.
  unfold cleanupExpired, expiredKeys.
  enough (H : forall es pre c,
             cache c = pre ++ es ->
             JSMap.wf (pre ++ es) = true ->
             (forall k e, In (k, e) es -> key_returns k) ->
             cache (fold_left (fun c key => snd (delete c key))
                      (List.map (fun ke => denormalizeKey (fst ke))
                         (List.filter (fun ke => isExpired (snd ke) now) es)) c)
             = pre ++ List.filter (fun ke => negb (isExpired (snd ke) now)) es).
  { intros Hwf Hk. now apply (H (cache cm) [] cm). }
  induction es as [|[k e] tl IH]; intros pre c Hc Hwf Hk.
  - simpl. now rewrite Hc.
  - cbn [List.filter snd].
    destruct (wf_app_cons k e pre tl Hwf) as [Hpre Hwf'].
    destruct (isExpired e now); cbn [negb List.map fold_left fst].
    + apply IH; [|assumption|intros; eapply Hk; right; eassumption].
      unfold delete. rewrite (proj2 (Hk k e (or_introl eq_refl))).
      rewrite Hc, get_app_absent by assumption. simpl.
      rewrite key_eqb_refl. cbn [snd cache].
      rewrite delete_app_absent by assumption.
      simpl. now rewrite key_eqb_refl.
    + rewrite (IH (pre ++ [(k, e)]) c).
      * now rewrite <- List.app_assoc.
      * now rewrite <- List.app_assoc.
      * now rewrite <- List.app_assoc.
      * intros; eapply Hk; right; eassumption.
Qed.

(** *** What eviction does when the keys are plain

    The three evaluations above come from one place: [evictLeastUsed] hands
    the chosen key to [delete] through [if (leastUsedKey)] and
    [denormalizeKey].  On a cache whose keys are not empty and are taken
    back to themselves, eviction is what the specification describes. *)

Lemma Qltb_true (a b : Q) : Qltb a b = true -> (a <= b)%Q.
Proof.
  unfold Qltb. intros H. apply negb_true_iff in H.
  apply Qlt_le_weak, Qnot_le_lt. intros Hle.
  apply Qle_bool_iff in Hle. congruence.
Qed.

Lemma Qltb_false (a b : Q) : Qltb a b = false -> (b <= a)%Q.
Proof.
  unfold Qltb. intros H. apply negb_false_iff in H. now apply Qle_bool_iff.
Qed.

Lemma leastUsed_from (cm : t) (es : list (cachekey * Entry)) :
  forall seen k0 e0,
    In (k0, e0) seen ->
    (forall k e, In (k, e) seen -> (score cm k0 e0 <= score cm k e)%Q) ->
    exists k e,
      fst (leastUsed cm es (Some k0) (Some (score cm k0 e0))) = Some k
      /\ In (k, e) (seen ++ es)
      /\ forall k' e', In (k', e') (seen ++ es) ->
                       (score cm k e <= score cm k' e')%Q.
Proof.
  induction es as [|[k1 e1] tl IH]; intros seen k0 e0 Hin Hmin.
  - exists k0, e0. rewrite List.app_nil_r. auto.
  - cbn [leastUsed].
    destruct (Qltb (score cm k1 e1) (score cm k0 e0)) eqn:E.
    + destruct (IH (seen ++ [(k1, e1)]) k1 e1) as (k & e & H1 & H2 & H3).
      * apply in_or_app. right. now left.
      * intros k e Hke. apply in_app_or in Hke as [Hke|[[= <- <-]|[]]].
        -- eapply Qle_trans; [apply Qltb_true; eassumption | now apply Hmin].
        -- apply Qle_refl.
      * exists k, e. rewrite <- List.app_assoc in H2, H3. auto.
    + destruct (IH (seen ++ [(k1, e1)]) k0 e0) as (k & e & H1 & H2 & H3).
      * apply in_or_app. now left.
      * intros k e Hke. apply in_app_or in Hke as [Hke|[[= <- <-]|[]]].
        -- now apply Hmin.
        -- now apply Qltb_false.
      * exists k, e. rewrite <- List.app_assoc in H2, H3. auto.
Qed.

(** The loop of [evictLeastUsed] ends on an entry of the lowest score. *)
Lemma leastUsed_lowest (cm : t) (es : list (cachekey * Entry)) :
  es <> [] ->
  exists k e,
    fst (leastUsed cm es None None) = Some k
    /\ In (k, e) es
    /\ forall k' e', In (k', e') es -> (score cm k e <= score cm k' e')%Q.
Proof.
  destruct es as [|[k0 e0] tl]; [contradiction|]. intros _.
  cbn [leastUsed].
  destruct (leastUsed_from cm tl [(k0, e0)] k0 e0) as (k & e & H1 & H2 & H3).
  - now left.
  - intros k e [[= <- <-]|[]]. apply Qle_refl.
  - exists k, e. auto.
Qed.

(** On a tidy cache that is not empty, [evictLeastUsed] removes one entry,
    and that entry has the lowest score. *)
Lemma evictLeastUsed_tidy (cm : t) :
  tidy cm -> cache cm <> [] ->
  exists k e,
    In (k, e) (cache cm)
    /\ (forall k' e', In (k', e') (cache cm) ->
                      (score cm k e <= score cm k' e')%Q)
    /\ cache (evictLeastUsed cm) = JSMap.delete k (cache cm)
    /\ JSMap.size (cache (evictLeastUsed cm)) = JSMap.size (cache cm) - 1.
Proof.
  intros [Hwf Hkeys] Hne.
  destruct (leastUsed_lowest cm (cache cm) Hne) as (k & e & Hk & Hin & Hmin).
  exists k, e. split; [assumption|]. split; [assumption|].
  destruct (Hkeys k e Hin) as [Htruthy [_ Hback]].
  assert (Hc : cache (evictLeastUsed cm) = JSMap.delete k (cache cm)).
  { unfold evictLeastUsed. rewrite Hk, Htruthy.
    cbn [with_statistics cache]. unfold delete. rewrite Hback.
    now rewrite (wf_In_get k e (cache cm) Hwf Hin). }
  split; [assumption|].
  rewrite Hc. unfold JSMap.size. rewrite length_delete.
  rewrite (In_has k e (cache cm) Hin).
  destruct (cache cm); [contradiction | cbn [List.length pred]; lia].
Qed.

Lemma In_delete (k k' : cachekey) (e : Entry) (m : list (cachekey * Entry)) :
  In (k', e) (JSMap.delete k m) -> In (k', e) m.
Proof.
  induction m as [|[k0 e0] tl IH]; simpl; [tauto|].
  destruct (key_eqb k0 k); simpl; intuition.
Qed.

Lemma In_set (k k' : cachekey) (e e' : Entry) (m : list (cachekey * Entry)) :
  In (k', e') (JSMap.set k e m) -> k' = k \/ In (k', e') m.
Proof.
  induction m as [|[k0 e0] tl IH]; simpl.
  - intros [[= <- <-]|[]]. now left.
  - destruct (key_eqb_spec k0 k) as [->|Hne]; simpl.
    + intros [[= <- <-]|H]; auto.
    + intros [H|H]; auto. destruct (IH H); auto.
Qed.

Lemma evictLeastUsed_In (cm : t) (k : cachekey) (e : Entry) :
  In (k, e) (cache (evictLeastUsed cm)) -> In (k, e) (cache cm).
Proof.
  unfold evictLeastUsed. destruct (key_truthy _); [|auto].
  destruct (fst _); [|auto]. cbn [with_statistics cache]. unfold delete.
  destruct (JSMap.get _ _); cbn [snd cache]; [apply In_delete | auto].
Qed.

(** One [set] keeps a tidy cache within its capacity. *)
Lemma set_within_capacity (cm : t) (key value : jsval) (o : SetOptions) (now : Z) :
  tidy cm ->
  evictable (normalizeKey key) ->
  1 <= maxSize (options cm) ->
  JSMap.size (cache cm) <= maxSize (options cm) ->
  tidy (snd (set cm key value o now))
  /\ maxSize (options (snd (set cm key value o now))) = maxSize (options cm)
  /\ JSMap.size (cache (snd (set cm key value o now))) <= maxSize (options cm).
Proof.
  intros Htidy Hkey Hmax Hsize. pose proof Htidy as [Hwf Hkeys].
  split; [split|split].
  - now apply set_wf.
  - unfold set. cbn [snd cache]. intros k e Hin.
    apply In_set in Hin as [->|Hin]; [assumption|].
    destruct (_ && _); [apply evictLeastUsed_In in Hin|]; eauto.
  - unfold set. cbn [snd options].
    destruct (_ && _); [apply f_equal, evictLeastUsed_options | reflexivity].
  - unfold set. cbn [snd cache]. unfold JSMap.size in *.
    rewrite length_set.
    destruct ((Z.of_nat (Datatypes.length (cache cm)) >=? maxSize (options cm))
              && negb (JSMap.has (normalizeKey key) (cache cm))) eqn:E.
    + apply andb_true_iff in E as [E1 E2]. apply negb_true_iff in E2.
      apply Z.geb_le in E1.
      assert (Hne : cache cm <> []).
      { intros Hnil. rewrite Hnil in E1. simpl in E1. lia. }
      destruct (evictLeastUsed_tidy cm Htidy Hne) as (k & e & _ & _ & Hc & Hsz).
      unfold JSMap.size in Hsz.
      destruct (JSMap.has (normalizeKey key) (cache (evictLeastUsed cm))); lia.
    + apply andb_false_iff in E as [E|E].
      * rewrite Z.geb_leb in E. apply Z.leb_gt in E.
        destruct (JSMap.has (normalizeKey key) (cache cm)); lia.
      * apply negb_false_iff in E. rewrite E. lia.
Qed.

(** From an empty cache of capacity at least 1, [set] calls under keys that
    are not empty and are taken back to themselves never leave more than
    [maxSize] entries. *)
Lemma set_all_within_capacity (calls : list (jsval * jsval * SetOptions * Z))
  (cm : t) :
  tidy cm ->
  1 <= maxSize (options cm) ->
  JSMap.size (cache cm) <= maxSize (options cm) ->
  Forall (fun c => evictable (normalizeKey (fst (fst (fst c))))) calls ->
  JSMap.size (cache (set_all calls cm)) <= maxSize (options cm).
Proof.
  revert cm. induction calls as [|[[[key value] o] now] tl IH];
    intros cm Htidy Hmax Hsize Hkeys; [assumption|].
  inversion Hkeys as [|? ? Hk Htl]; subst. cbn [fst] in Hk.
  destruct (set_within_capacity cm key value o now Htidy Hk Hmax Hsize)
    as (Ht & Hm & Hs).
  cbn [set_all]. rewrite <- Hm. apply IH; try assumption; rewrite Hm; assumption.
Qed.

End CacheFacts.

(* ================================================================== *)
(** ** Retry *)

Module RetryFacts.
Import ErrorHandler Examples.

Section Loop.
Context {A : Type}.
Variable fn : nat -> A + jserror.
Variable config : retryConfig.

Lemma retry_loop_ends (n : nat) :
  forall (a fuel : nat) (last : option jserror) (res : @outcome A),
    (forall i, (a <= i < a + n)%nat ->
               exists e, fn i = inr e /\ canRetry (classifyError e) = true) ->
    Z.of_nat (a + n) <= maxRetries config ->
    ends_at fn config (a + n) res ->
    retry_loop fn config (S n + fuel) a last
    = (res, backoff_trace config a n ++ [Called (a + n)%nat]).
Proof.
  induction n as [|n IH]; intros a fuel last res Hfail Hmax Hend.
  - rewrite Nat.add_0_r in *. cbn [retry_loop Nat.add].
    assert (Hle : (Z.of_nat a <=? maxRetries config) = true)
      by (apply Z.leb_le; lia).
    rewrite Hle. unfold ends_at in Hend.
    destruct (fn a) as [v|e].
    + now subst.
    + destruct Hend as [-> [Hc|Hm]].
      * now rewrite Hc.
      * apply Z.eqb_eq in Hm. rewrite Hm, orb_true_r. reflexivity.
  - destruct (Hfail a) as (e & Hfa & Hre); [lia|].
    change (S (S n) + fuel)%nat with (S (S n + fuel)).
    cbn [retry_loop].
    assert (Hle : (Z.of_nat a <=? maxRetries config) = true)
      by (apply Z.leb_le; lia).
    assert (Hne : (Z.of_nat a =? maxRetries config) = false)
      by (apply Z.eqb_neq; lia).
    rewrite Hle, Hfa, Hre, Hne. cbn [negb orb].
    rewrite (IH (S a) fuel (Some e) res).
    + replace (S a + n)%nat with (a + S n)%nat by lia. reflexivity.
    + intros i Hi. apply Hfail. lia.
    + replace (S a + n)%nat with (a + S n)%nat by lia. assumption.
    + replace (S a + n)%nat with (a + S n)%nat by lia. assumption.
Qed.
End Loop.

Lemma retry_ends {A : Type} (fn : nat -> A + jserror) (o : retryOptions)
  (n : nat) (res : @outcome A) :
  (forall i, (i < n)%nat ->
             exists e, fn i = inr e /\ canRetry (classifyError e) = true) ->
  Z.of_nat n <= maxRetries (merge defaultConfig o) ->
  ends_at fn (merge defaultConfig o) n res ->
  retry fn o
  = (res, backoff_trace (merge defaultConfig o) 0 n ++ [Called n]).
Proof.
  intros Hfail Hmax Hend. unfold retry.
  replace (S (Z.to_nat (maxRetries (merge defaultConfig o) + 1)))
    with (S n + (Z.to_nat (maxRetries (merge defaultConfig o) + 1) - n))%nat
    by lia.
  apply (retry_loop_ends fn (merge defaultConfig o) n 0); auto.
  intros i Hi. apply Hfail. lia.
Qed.

(** C7.  With the options the caller gives, and 3, 1000, 10000 and 2 for
    [maxRetries], [baseDelay], [maxDelay] and [backoffFactor] where it gives
    none: when the first [n] attempts fail with errors that are retried,
    [retry] calls [fn] with attempts 0 to [n], waits
    [min(baseDelay * backoffFactor^i, maxDelay)] after failed attempt [i],
    and: returns the value of attempt [n] when that attempt succeeds and
    [n < maxRetries]; throws the error of attempt [n] when that attempt
    fails and is the last one ([n = maxRetries], or an error that is not
    retried).  The products of the waits are within what a double holds
    exactly. *)
Theorem retry_backoff {A : Type} (fn : nat -> A + jserror) (o : retryOptions)
  (n : nat) :
  let m := CacheManager.from_option (opt_maxRetries o) 3 in
  let b := CacheManager.from_option (opt_baseDelay o) 1000 in
  let d := CacheManager.from_option (opt_maxDelay o) 10000 in
  let f := CacheManager.from_option (opt_backoffFactor o) 2 in
  (forall i, (i < n)%nat ->
             exists e, fn i = inr e /\ canRetry (classifyError e) = true) ->
  exact_waits b d f n ->
  (forall v,
      Z.of_nat n < m ->
      fn n = inl v ->
      retry fn o
      = (Returned v,
         List.flat_map
           (fun i => [Called i; Slept (Z.min (b * f ^ Z.of_nat i) d)])
           (List.seq 0 n) ++ [Called n]))
  /\ (forall e,
        Z.of_nat n <= m ->
        fn n = inr e ->
        canRetry (classifyError e) = false \/ Z.of_nat n = m ->
        retry fn o
        = (Threw (Some e),
           List.flat_map
             (fun i => [Called i; Slept (Z.min (b * f ^ Z.of_nat i) d)])
             (List.seq 0 n) ++ [Called n])).
Proof.
  intros m b d f Hfail _. split.
  - intros v Hn Hv.
    rewrite (retry_ends fn o n (Returned v)); [reflexivity | assumption | |].
    + change (maxRetries (merge defaultConfig o)) with m. lia.
    + unfold ends_at. now rewrite Hv.
  - intros e Hn He Hlast.
    rewrite (retry_ends fn o n (Threw (Some e)));
      [reflexivity | assumption | exact Hn |].
    unfold ends_at. rewrite He. auto.
Qed.

Lemma retry_backoff_witness :
  (forall i, (i < 2)%nat ->
             exists e, fails_twice i = inr e /\ canRetry (classifyError e) = true)
  /\ exact_waits 100 250 3 2
  /\ retry fails_twice slow_start
     = (Returned 42, [Called 0; Slept 100; Called 1; Slept 250; Called 2]).
Proof.
  assert (H : forall i, (i < 2)%nat ->
              exists e, fails_twice i = inr e /\ canRetry (classifyError e) = true).
  { intros i Hi. exists transient.
    destruct i as [|[|i]]; [split; reflexivity | split; reflexivity | lia]. }
  assert (Hw : exact_waits 100 250 3 2).
  { split; [cbn; lia|]. intros i Hi.
    destruct i as [|[|i]]; [cbn; lia | cbn; lia | lia]. }
  split; [exact H|]. split; [exact Hw|].
  apply (proj1 (retry_backoff fails_twice slow_start 2 H Hw) 42);
    [cbn; lia | reflexivity].
Defined.

Lemma retry_loop_eq {A : Type} (fn : nat -> A + jserror) (config : retryConfig)
  (fuel attempt : nat) (last : option jserror) :
  retry_loop fn config (S fuel) attempt last
  = if Z.of_nat attempt <=? maxRetries config then
      match fn attempt with
      | inl result => (Returned result, [Called attempt])
      | inr error =>
          if negb (canRetry (classifyError error))
             || (Z.of_nat attempt =? maxRetries config)
          then (Threw (Some error), [Called attempt])
          else
            let (res, evs) :=
              retry_loop fn config fuel (S attempt) (Some error) in
            (res, Called attempt :: Slept (delay config attempt) :: evs)
      end
    else (Threw last, []).
Proof. reflexivity. Qed.

Lemma retry_loop_calls {A : Type} (fn : nat -> A + jserror)
  (config : retryConfig) (fuel attempt : nat) (last : option jserror) :
  Z.of_nat attempt <= maxRetries config ->
  exists res evs,
    retry_loop fn config (S fuel) attempt last = (res, Called attempt :: evs).
Proof.
  intros Hle. rewrite retry_loop_eq.
  apply Z.leb_le in Hle. rewrite Hle.
  destruct (fn attempt) as [v|e]; [eauto|].
  destruct (negb _ || _); [eauto|].
  destruct (retry_loop fn config fuel (S attempt) (Some e)). eauto.
Qed.

Lemma retry_after_retryable {A : Type} (fn : nat -> A + jserror)
  (o : retryOptions) (e : jserror) :
  0 < maxRetries (merge defaultConfig o) ->
  fn 0%nat = inr e ->
  canRetry (classifyError e) = true ->
  exists res evs,
    retry fn o
    = (res, Called 0 :: Slept (delay (merge defaultConfig o) 0) :: Called 1 :: evs).
Proof.
  intros Hmax Hfn Hre. unfold retry.
  set (config := merge defaultConfig o) in *.
  destruct (Z.to_nat (maxRetries config + 1)) as [|[|f]] eqn:Ef; try lia.
  rewrite retry_loop_eq.
  assert (H0 : (Z.of_nat 0 <=? maxRetries config) = true) by (apply Z.leb_le; lia).
  assert (H0' : (Z.of_nat 0 =? maxRetries config) = false) by (apply Z.eqb_neq; lia).
  rewrite H0, Hfn, Hre, H0'. cbn [negb orb].
  destruct (retry_loop_calls fn config (S f) 1 (Some e)) as (res & evs & ->); [lia|].
  eauto.
Qed.

Lemma canRetry_by_type (e : jserror) :
  canRetry (classifyError e)
  = match type (classifyError e) with
    | network | wallet | timeout | unknown => true
    | contract | validation | permission => false
    end.
Proof.
  unfold classifyError.
  repeat match goal with
         | |- context [if ?b then _ else _] => destruct b
         end; reflexivity.
Qed.

(** C8.  When the first call fails with an error of class contract,
    validation or permission, [retry] calls [fn] once, waits for nothing and
    throws that error.  An error of class network, wallet, timeout or unknown
    is marked as retryable, and, when a retry is left, is followed by the
    wait and by the second call. *)
Theorem retry_by_class {A : Type} (fn : nat -> A + jserror) (o : retryOptions)
  (e : jserror) :
  0 <= maxRetries (merge defaultConfig o) ->
  fn 0%nat = inr e ->
  (In (type (classifyError e)) [contract; validation; permission] ->
   canRetry (classifyError e) = false
   /\ retry fn o = (Threw (Some e), [Called 0]))
  /\ (In (type (classifyError e)) [network; wallet; timeout; unknown] ->
      canRetry (classifyError e) = true
      /\ (0 < maxRetries (merge defaultConfig o) ->
          exists res evs,
            retry fn o
            = (res, Called 0 :: Slept (delay (merge defaultConfig o) 0)
                      :: Called 1 :: evs))).
Proof.
  intros Hmax Hfn. pose proof (canRetry_by_type e) as Hc. split; intros Hin.
  - assert (Hno : canRetry (classifyError e) = false).
    { rewrite Hc. destruct Hin as [<-|[<-|[<-|[]]]]; reflexivity. }
    split; [assumption|].
    apply (retry_ends fn o 0 (Threw (Some e))); [intros i Hi; lia | lia |].
    unfold ends_at. rewrite Hfn. auto.
  - assert (Hyes : canRetry (classifyError e) = true).
    { rewrite Hc. destruct Hin as [<-|[<-|[<-|[<-|[]]]]]; reflexivity. }
    split; [assumption|]. intros Hpos.
    now apply (retry_after_retryable fn o e).
Qed.

Lemma retry_by_class_witness :
  0 <= maxRetries (merge defaultConfig defaults)
  /\ always_reverts 0%nat = inr reverted
  /\ type (classifyError reverted) = contract
  /\ retry always_reverts defaults = (Threw (Some reverted), [Called 0]).
Proof.
  split; [cbn; lia|]. split; [reflexivity|]. split; [reflexivity|].
  apply (proj1 (retry_by_class always_reverts defaults reverted
                  ltac:(cbn; lia) eq_refl)).
  left. reflexivity.
Defined.

End RetryFacts.

(* ================================================================== *)
(** ** The other operations of the cache *)

Module CacheMore.
Import CacheManager JSMapFacts CacheFacts Examples.

Lemma get_options (cm : t) (key d : jsval) (now : Z) :
  options (snd (get cm key d now)) = options cm.
Proof.
  unfold get. destruct (JSMap.get _ _); [|reflexivity].
  destruct (isExpired _ _); [|reflexivity].
  cbn [snd with_statistics options]. apply delete_options.
Qed.

Lemma get_wf (cm : t) (key d : jsval) (now : Z) :
  JSMap.wf (cache cm) = true ->
  JSMap.wf (cache (snd (get cm key d now))) = true.
Proof.
  intros Hwf. unfold get. destruct (JSMap.get _ _); [|assumption].
  destruct (isExpired _ _); [|assumption].
  cbn [snd with_statistics cache]. unfold delete.
  destruct (JSMap.get _ _); cbn [snd cache]; [now apply wf_delete | assumption].
Qed.

Lemma after_eviction_options (cm : t) (key : jsval) :
  options (after_eviction cm key) = options cm.
Proof.
  unfold after_eviction. destruct (_ && _);
    [apply evictLeastUsed_options | reflexivity].
Qed.

(** The tables of the cache after [set]. *)
Lemma set_cache (cm : t) (key value : jsval) (o : SetOptions) (now : Z) :
  cache (snd (set cm key value o now))
  = JSMap.set (normalizeKey key) (stored_entry cm value o now)
      (cache (after_eviction cm key)).
Proof.
  pose proof (after_eviction_options cm key) as Ho.
  unfold set, after_eviction in *. cbn [snd cache]. f_equal.
  unfold stored_entry. rewrite Ho. unfold compress, encrypt.
  destruct (compressionEnabled (options cm) && _),
           (encryptionEnabled (options cm)); reflexivity.
Qed.

Lemma set_accessTimes (cm : t) (key value : jsval) (o : SetOptions) (now : Z) :
  accessTimes (snd (set cm key value o now))
  = JSMap.set (normalizeKey key) now (accessTimes (after_eviction cm key)).
Proof. reflexivity. Qed.

Lemma set_hitCount (cm : t) (key value : jsval) (o : SetOptions) (now : Z) :
  hitCount (snd (set cm key value o now))
  = JSMap.set (normalizeKey key) 0 (hitCount (after_eviction cm key)).
Proof. reflexivity. Qed.

Lemma set_timers (cm : t) (key value : jsval) (o : SetOptions) (now : Z) :
  timers (snd (set cm key value o now))
  = let timers1 :=
      match JSMap.get (normalizeKey key) (timers (after_eviction cm key)) with
      | Some tm =>
          JSMap.set (normalizeKey key) (clearTimeout tm)
            (timers (after_eviction cm key))
      | None => timers (after_eviction cm key)
      end in
    if effective_ttl cm o >? 0
    then JSMap.set (normalizeKey key)
           {| fireAt := now + effective_ttl cm o; timerKey := key;
              cleared := false |} timers1
    else timers1.
Proof. reflexivity. Qed.

Lemma evictLeastUsed_empty (cm : t) :
  cache cm = [] -> evictLeastUsed cm = cm.
Proof. intros H. unfold evictLeastUsed. now rewrite H. Qed.

Lemma In_keys (cm : t) (k : cachekey) (e : Entry) :
  In (k, e) (cache cm) -> In (denormalizeKey k) (keys cm None).
Proof.
  intros Hin. unfold keys.
  change (denormalizeKey k) with ((fun ke : cachekey * Entry => denormalizeKey (fst ke)) (k, e)).
  now apply in_map.
Qed.

(** X1.  A key that is not a string and is a value of the JSON data model
    is listed by [keys()] as it was given to [set]: [denormalizeKey] reads
    back what [normalizeKey] wrote. *)
Theorem keys_lists_set_key (cm : t) (key value : jsval) (o : SetOptions)
  (now : Z) :
  JSON.json_value key = true ->
  (forall s, key <> JStr s) ->
  denormalizeKey (normalizeKey key) = key
  /\ In key (keys (snd (set cm key value o now)) None).
Proof.
  intros Hj Hns.
  assert (Hback : denormalizeKey (normalizeKey key) = key).
  { destruct (JSONFacts.parse_stringify key Hj) as (s & Hs & Hp).
    destruct key as [| |b|n|t|l|m]; try discriminate Hj;
      try (unfold normalizeKey; rewrite Hs; simpl; now rewrite Hp).
    exfalso. now apply (Hns t). }
  split; [assumption|].
  rewrite <- Hback at 1.
  eapply In_keys, get_In, set_lookup.
Qed.

Lemma keys_lists_set_key_witness :
  JSON.json_value (JArr [JNum 1; JStr "a"]) = true
  /\ In (JArr [JNum 1; JStr "a"])
       (keys (snd (set example_cache (JArr [JNum 1; JStr "a"]) (JNum 7)
                     no_options 0)) None).
Proof.
  split; [reflexivity|].
  apply (keys_lists_set_key example_cache (JArr [JNum 1; JStr "a"]) (JNum 7)
           no_options 0); [reflexivity | discriminate].
Defined.

(** X2.  A string key that is the text [JSON.stringify] writes for a value
    (of the JSON data model, with safe integers and no index names) is
    listed by [keys()] as that value, not as the string that was given to
    [set]. *)
Theorem keys_lists_parsed_string (cm : t) (s : string) (v value : jsval)
  (o : SetOptions) (now : Z) :
  JSON.json_value v = true ->
  JSON.safe_value v = true ->
  JSON.stringify v = Some s ->
  In v (keys (snd (set cm (JStr s) value o now)) None)
  /\ (JSMap.size (cache cm) = 0 ->
      keys (snd (set cm (JStr s) value o now)) None = [v]).
Proof.
  intros Hj _ Hs.
  assert (Hp : JSON.parse s = Some v).
  { destruct (JSONFacts.parse_stringify v Hj) as (s' & Hs' & Hp').
    rewrite Hs in Hs'. now injection Hs' as <-. }
  assert (Hd : denormalizeKey (Some s) = v) by (simpl; now rewrite Hp).
  split.
  - rewrite <- Hd.
    eapply In_keys, get_In. apply (set_lookup cm (JStr s) value o now).
  - intros Hsz. unfold JSMap.size in Hsz.
    destruct (cache cm) as [|x tl] eqn:Ec; [|simpl in Hsz; lia].
    unfold keys. rewrite set_cache.
    assert (He : cache (after_eviction cm (JStr s)) = []).
    { unfold after_eviction. destruct (_ && _); [|assumption].
      now rewrite evictLeastUsed_empty. }
    rewrite He. simpl. now rewrite Hp.
Qed.

Lemma keys_lists_parsed_string_witness :
  JSON.stringify (JNum 42) = Some "42"%string
  /\ keys (snd (set example_cache (JStr "42") (JNum 7) no_options 0)) None
     = [JNum 42].
Proof.
  split; [reflexivity|].
  apply (keys_lists_parsed_string example_cache "42" (JNum 42) (JNum 7)
           no_options 0); reflexivity.
Defined.

(** *** [delete], [has], [touch] *)

Lemma get_other_after_delete (cm : t) (key key' d : jsval) (now : Z) :
  normalizeKey key' <> normalizeKey key ->
  fst (get (snd (delete cm key)) key' d now) = fst (get cm key' d now).
Proof.
  intros Hne. unfold get, delete.
  destruct (JSMap.get (normalizeKey key) (cache cm)); cbn [snd cache];
    [|reflexivity].
  rewrite get_delete_other by congruence.
  destruct (JSMap.get (normalizeKey key') (cache cm)); [|reflexivity].
  destruct (isExpired _ _); reflexivity.
Qed.






(** *** Expiry timers *)

(** X6.  After a [set] with a positive [ttl] that [setTimeout] takes as it
    is (no more than 2^31 - 1 ms), the timer of the key does nothing before
    [now + ttl]; from then on its callback removes the entry, read or
    not. *)
Theorem timer_removes_at_expiry (cm : t) (key value : jsval) (o : SetOptions)
  (now now' : Z) :
  JSMap.wf (cache cm) = true ->
  0 < effective_ttl cm o ->
  effective_ttl cm o <= 2147483647 ->
  (now' < now + effective_ttl cm o ->
   timerFires (snd (set cm key value o now)) (normalizeKey key) now'
   = snd (set cm key value o now))
  /\ (now + effective_ttl cm o <= now' ->
      JSMap.get (normalizeKey key)
        (cache (timerFires (snd (set cm key value o now)) (normalizeKey key) now'))
      = None).
Proof.
  intros Hwf Httl _.
  assert (Ht : JSMap.get (normalizeKey key) (timers (snd (set cm key value o now)))
               = Some {| fireAt := now + effective_ttl cm o; timerKey := key;
                         cleared := false |}).
  { rewrite set_timers. cbv zeta.
    assert (Hpos : (effective_ttl cm o >? 0) = true)
      by (rewrite Z.gtb_ltb; apply Z.ltb_lt; lia).
    rewrite Hpos. apply get_set_same. }
  split; intros Hnow; unfold timerFires; rewrite Ht; cbn [cleared fireAt timerKey negb andb].
  - assert (Hle : (now + effective_ttl cm o <=? now') = false)
      by (apply Z.leb_gt; lia).
    now rewrite Hle.
  - assert (Hle : (now + effective_ttl cm o <=? now') = true)
      by (apply Z.leb_le; lia).
    rewrite Hle. apply delete_lookup. now apply set_wf.
Qed.

Lemma timer_removes_at_expiry_witness :
  JSMap.wf (cache example_cache) = true
  /\ 0 < effective_ttl example_cache ttl_1000 <= 2147483647
  /\ timerFires (snd (set example_cache (JStr "p1") example_value ttl_1000 0))
       (Some "p1"%string) 999
     = snd (set example_cache (JStr "p1") example_value ttl_1000 0)
  /\ JSMap.get (Some "p1"%string)
       (cache (timerFires (snd (set example_cache (JStr "p1") example_value
                                  ttl_1000 0))
                 (Some "p1"%string) 1000)) = None.
Proof.
  destruct (timer_removes_at_expiry example_cache (JStr "p1") example_value
              ttl_1000 0 999 eq_refl ltac:(cbn; lia) ltac:(cbn; lia)) as [H1 _].
  destruct (timer_removes_at_expiry example_cache (JStr "p1") example_value
              ttl_1000 0 1000 eq_refl ltac:(cbn; lia) ltac:(cbn; lia)) as [_ H2].
  split; [reflexivity|]. split; [cbn; lia|].
  split; [apply H1; cbn; lia | apply H2; cbn; lia].
Defined.

(** X7.  A [set] with a negative [ttl] stores an entry that has already
    expired (when [now + ttl] is positive): the next [get], at that clock
    or later, is a miss and removes it; and the [set] leaves no timer that
    would remove it. *)
Theorem negative_ttl_is_expired (cm : t) (key value d : jsval)
  (o : SetOptions) (t0 now now' : Z) :
  JSMap.wf (cache cm) = true ->
  opt_ttl o = Some t0 ->
  t0 < 0 ->
  0 < now + t0 ->
  now <= now' ->
  fst (get (snd (set cm key value o now)) key d now') = js_or d JNull
  /\ JSMap.get (normalizeKey key)
       (cache (snd (get (snd (set cm key value o now)) key d now'))) = None
  /\ timerFires (snd (set cm key value o now)) (normalizeKey key) now'
     = snd (set cm key value o now).
Proof.
  intros Hwf Ho Hneg Hpos Hnow.
  assert (Heff : effective_ttl cm o = t0).
  { unfold effective_ttl. rewrite Ho.
    destruct (Z.eqb_spec t0 0); [lia | reflexivity]. }
  assert (Hgo : get (snd (set cm key value o now)) key d now'
                = (js_or d JNull,
                   with_statistics miss
                     (snd (delete (snd (set cm key value o now)) key)))).
  { unfold get at 1. rewrite set_lookup. unfold isExpired.
    cbn [expiresAt stored_entry]. rewrite Heff.
    assert (H1 : (now + t0 >? 0) = true)
      by (rewrite Z.gtb_ltb; apply Z.ltb_lt; lia).
    assert (H2 : (now' >? now + t0) = true)
      by (rewrite Z.gtb_ltb; apply Z.ltb_lt; lia).
    now rewrite H1, H2. }
  rewrite Hgo. split; [reflexivity|]. split.
  - cbn [snd with_statistics cache]. apply delete_lookup. now apply set_wf.
  - unfold timerFires. rewrite set_timers. cbv zeta. rewrite Heff.
    assert (H0 : (t0 >? 0) = false)
      by (rewrite Z.gtb_ltb; apply Z.ltb_ge; lia).
    rewrite H0.
    destruct (JSMap.get (normalizeKey key) (timers (after_eviction cm key)))
      as [tm|] eqn:E.
    + now rewrite get_set_same.
    + now rewrite E.
Qed.

Lemma negative_ttl_is_expired_witness :
  fst (get (snd (set example_cache (JStr "p1") example_value
                   (mkSetOptions (Some (-5)) None None) 100))
         (JStr "p1") JUndefined 100) = JNull.
Proof.
  destruct (negative_ttl_is_expired example_cache (JStr "p1") example_value
              JUndefined (mkSetOptions (Some (-5)) None None) (-5) 100 100
              eq_refl eq_refl ltac:(lia) ltac:(lia) ltac:(lia)) as [H _].
  rewrite H. reflexivity.
Defined.

(** *** [getOrSet] *)

Lemma json_value_not_undefined (v : jsval) :
  JSON.json_value v = true -> is_undefined v = false.
Proof. destruct v; simpl; congruence. Qed.

Lemma is_null_false (v : jsval) : v <> JNull -> is_null v = false.
Proof. destruct v; simpl; congruence. Qed.





(** *** [getMultiple] and [setMultiple] *)

Lemma property_obj_set_same (p : string) (v : jsval) (o : list (string * jsval)) :
  property p (JSON.obj_set p v o) = Some v.
Proof.
  induction o as [|[q w] tl IH]; simpl.
  - now rewrite String.eqb_refl.
  - destruct (String.eqb q p) eqn:E; simpl; now rewrite E.
Qed.

Lemma property_obj_set_other (p q : string) (v : jsval)
  (o : list (string * jsval)) :
  q <> p -> property p (JSON.obj_set q v o) = property p o.
Proof.
  intros Hne. induction o as [|[r w] tl IH]; simpl.
  - apply String.eqb_neq in Hne. now rewrite Hne.
  - destruct (String.eqb_spec r q) as [->|Hrq]; simpl.
    + apply String.eqb_neq in Hne. now rewrite Hne.
    + now rewrite IH.
Qed.

Lemma property_assign_same (p : string) (v : jsval) (o : list (string * jsval)) :
  p <> "__proto__"%string -> property p (assign p v o) = Some v.
Proof.
  intros Hp. unfold assign. apply String.eqb_neq in Hp. rewrite Hp.
  apply property_obj_set_same.
Qed.

Lemma property_assign_other (p q : string) (v : jsval)
  (o : list (string * jsval)) :
  q <> p -> property p (assign q v o) = property p o.
Proof.
  intros Hne. unfold assign. destruct (String.eqb q "__proto__"); [reflexivity|].
  now apply property_obj_set_other.
Qed.

Lemma get_value_cache (cm1 cm2 : t) (key d : jsval) (now : Z) :
  cache cm1 = cache cm2 ->
  fst (get cm1 key d now) = fst (get cm2 key d now).
Proof.
  intros H. unfold get. rewrite H.
  destruct (JSMap.get _ _); [|reflexivity].
  destruct (isExpired _ _); reflexivity.
Qed.

(** A lookup does not change what a lookup at the same clock returns. *)
Lemma get_after_get (cm : t) (k1 k2 d1 d2 : jsval) (now : Z) :
  JSMap.wf (cache cm) = true ->
  fst (get (snd (get cm k1 d1 now)) k2 d2 now) = fst (get cm k2 d2 now).
Proof.
  intros Hwf. unfold get at 2.
  destruct (JSMap.get (normalizeKey k1) (cache cm)) as [e1|] eqn:E1;
    [|now apply get_value_cache].
  destruct (isExpired e1 now) eqn:X1; [|now apply get_value_cache].
  cbn [snd].
  rewrite (get_value_cache _ (snd (delete cm k1))) by reflexivity.
  destruct (key_eqb_spec (normalizeKey k2) (normalizeKey k1)) as [Heq|Hne].
  - unfold get. rewrite Heq, delete_lookup, E1, X1 by assumption. reflexivity.
  - now apply get_other_after_delete.
Qed.

Lemma getMultiple_from_later (now : Z) (p : string) (keys : list jsval) :
  forall acc cm,
    (forall k, In k keys -> toPropertyKey k <> p) ->
    property p (fst (getMultiple_from keys acc cm now)) = property p acc.
Proof.
  induction keys as [|k tl IH]; intros acc cm Hp; [reflexivity|].
  cbn [getMultiple_from].
  destruct (get cm k JUndefined now) as [v cm1].
  rewrite IH by (intros; apply Hp; now right).
  apply property_assign_other. apply Hp. now left.
Qed.

Lemma getMultiple_from_get (now : Z) (cm0 : t) (pre : list jsval) :
  forall acc cm key post,
    JSMap.wf (cache cm) = true ->
    (forall k, fst (get cm k JUndefined now) = fst (get cm0 k JUndefined now)) ->
    toPropertyKey key <> "__proto__"%string ->
    (forall k, In k post -> toPropertyKey k <> toPropertyKey key) ->
    property (toPropertyKey key)
      (fst (getMultiple_from (pre ++ key :: post) acc cm now))
    = Some (fst (get cm0 key JUndefined now)).
Proof.
  induction pre as [|k tl IH]; intros acc cm key post Hwf Hsame Hname Hpost.
  - cbn [List.app getMultiple_from]. specialize (Hsame key).
    destruct (get cm key JUndefined now) as [v cm1]. simpl in Hsame. subst v.
    rewrite getMultiple_from_later by assumption.
    now apply property_assign_same.
  - cbn [List.app getMultiple_from].
    pose proof (get_wf cm k JUndefined now Hwf) as Hwf1.
    pose proof (fun k' => get_after_get cm k k' JUndefined JUndefined now Hwf) as Hs1.
    destruct (get cm k JUndefined now) as [v cm1]. cbn [snd] in *.
    apply IH; [assumption | | assumption | assumption].
    intros k'. now rewrite Hs1.
Qed.



(** A [set] evicts nothing while the cache is below its capacity. *)
Lemma after_eviction_room (cm : t) (key : jsval) :
  JSMap.size (cache cm) < maxSize (options cm) ->
  after_eviction cm key = cm.
Proof.
  intros H. unfold after_eviction.
  assert (Hge : (JSMap.size (cache cm) >=? maxSize (options cm)) = false)
    by (rewrite Z.geb_leb; apply Z.leb_gt; lia).
  now rewrite Hge.
Qed.

Lemma set_options (cm : t) (key value : jsval) (o : SetOptions) (now : Z) :
  options (snd (set cm key value o now)) = options cm.
Proof. apply (after_eviction_options cm key). Qed.

Lemma set_size_room (cm : t) (key value : jsval) (o : SetOptions) (now : Z) :
  JSMap.size (cache cm) < maxSize (options cm) ->
  JSMap.size (cache (snd (set cm key value o now))) <= JSMap.size (cache cm) + 1.
Proof.
  intros H. rewrite set_cache, after_eviction_room by assumption.
  unfold JSMap.size. rewrite length_set.
  destruct (JSMap.has _ _); lia.
Qed.

Lemma setMultiple_from_keeps (o : SetOptions) (now : Z) (k : cachekey)
  (entries : list (string * jsval)) :
  forall acc cm,
    JSMap.size (cache cm) + Z.of_nat (List.length entries)
      <= maxSize (options cm) ->
    (forall q v, In (q, v) entries -> Some q <> k) ->
    JSMap.get k (cache (snd (setMultiple_from entries acc cm o now)))
    = JSMap.get k (cache cm)
    /\ options (snd (setMultiple_from entries acc cm o now)) = options cm.
Proof.
  induction entries as [|[q v] tl IH]; intros acc cm Hroom Hk; [auto|].
  cbn [setMultiple_from].
  pose proof (set_cache cm (JStr q) v o now) as Hc.
  pose proof (set_options cm (JStr q) v o now) as Ho.
  assert (Hlt : JSMap.size (cache cm) < maxSize (options cm))
    by (cbn [List.length] in Hroom; lia).
  pose proof (set_size_room cm (JStr q) v o now Hlt) as Hs.
  destruct (set cm (JStr q) v o now) as [ok cm1]. cbn [snd] in *.
  destruct (IH (assign q (JBool ok) acc) cm1) as [H1 H2].
  - rewrite Ho. cbn [List.length] in Hroom. lia.
  - intros; eapply Hk; right; eassumption.
  - rewrite H1, H2, Ho, Hc, after_eviction_room by assumption.
    split; [|reflexivity].
    apply get_set_other. apply (Hk q v). now left.
Qed.

Lemma setMultiple_from_lookup (o : SetOptions) (now : Z)
  (entries : list (string * jsval)) :
  forall acc cm k v,
    JSMap.size (cache cm) + Z.of_nat (List.length entries)
      <= maxSize (options cm) ->
    NoDup (List.map fst entries) ->
    In (k, v) entries ->
    JSMap.get (Some k) (cache (snd (setMultiple_from entries acc cm o now)))
    = Some (stored_entry cm v o now).
Proof.
  induction entries as [|[q w] tl IH]; intros acc cm k v Hroom Hnd Hin;
    [contradiction|].
  cbn [List.map fst] in Hnd. inversion Hnd as [|? ? Hq Hnd']; subst.
  cbn [setMultiple_from].
  pose proof (set_lookup cm (JStr q) w o now) as Hl.
  pose proof (set_options cm (JStr q) w o now) as Ho.
  assert (Hlt : JSMap.size (cache cm) < maxSize (options cm))
    by (cbn [List.length] in Hroom; lia).
  pose proof (set_size_room cm (JStr q) w o now Hlt) as Hs.
  destruct (set cm (JStr q) w o now) as [ok cm1]. cbn [snd] in *.
  assert (Hroom1 : JSMap.size (cache cm1) + Z.of_nat (List.length tl)
                   <= maxSize (options cm1))
    by (rewrite Ho; cbn [List.length] in Hroom; lia).
  destruct Hin as [[= -> ->]|Hin].
  - destruct (setMultiple_from_keeps o now (Some k) tl
                (assign k (JBool ok) acc) cm1 Hroom1) as [H1 _].
    + intros q' v' Hin' Heq. injection Heq as Heq. subst q'. apply Hq.
      change k with (fst (k, v')). now apply in_map.
    + now rewrite H1.
  - rewrite (IH _ cm1 k v Hroom1 Hnd' Hin).
    unfold stored_entry, effective_ttl. now rewrite Ho.
Qed.

(** X11.  When the cache has room for all of them, [setMultiple] stores
    every entry of its argument: until its expiry, [get] of each name
    returns the value given for it. *)
Theorem setMultiple_then_get (cm : t) (entries : list (string * jsval))
  (o : SetOptions) (now now' : Z) (k : string) (v d : jsval) :
  JSMap.size (cache cm) + Z.of_nat (List.length entries)
    <= maxSize (options cm) ->
  NoDup (List.map fst entries) ->
  In (k, v) entries ->
  JSON.json_value v = true ->
  now' <= now + effective_ttl cm o ->
  fst (get (snd (setMultiple cm entries o now)) (JStr k) d now') = v.
Proof.
  intros Hroom Hnd Hin Hj Hnow. unfold setMultiple, get.
  change (normalizeKey (JStr k)) with (Some k).
  rewrite (setMultiple_from_lookup o now entries [] cm k v Hroom Hnd Hin).
  unfold isExpired. cbn [expiresAt stored_entry data].
  assert (Hgt : (now' >? now + effective_ttl cm o) = false)
    by (rewrite Z.gtb_ltb; apply Z.ltb_ge; lia).
  rewrite Hgt, andb_false_r. cbn [fst].
  rewrite (cloneData_json_value v Hj). exact (cloneData_json_value v Hj).
Qed.

Lemma setMultiple_then_get_witness :
  fst (get (snd (setMultiple example_cache
                   [("a"%string, JNum 1); ("b"%string, example_value)]
                   ttl_1000 0))
         (JStr "b") JUndefined 500) = example_value.
Proof.
  apply (setMultiple_then_get example_cache
           [("a"%string, JNum 1); ("b"%string, example_value)]
           ttl_1000 0 500 "b" example_value JUndefined);
    [cbn; lia | | right; left; reflexivity | reflexivity | cbn; lia].
  repeat constructor; simpl; intuition discriminate.
Defined.

(** *** The four tables stay in step *)

Lemma has_set {V : Type} (k k' : cachekey) (v : V) (m : list (cachekey * V)) :
  JSMap.has k (JSMap.set k' v m) = key_eqb k' k || JSMap.has k m.
Proof.
  unfold JSMap.has. induction m as [|[k0 v0] tl IH]; simpl.
  - destruct (key_eqb k' k); reflexivity.
  - destruct (key_eqb_spec k0 k') as [->|Hne]; simpl.
    + destruct (key_eqb k' k); reflexivity.
    + destruct (key_eqb_spec k0 k) as [->|Hne0].
      * now rewrite orb_true_r.
      * exact IH.
Qed.

Lemma has_delete {V : Type} (k k' : cachekey) (m : list (cachekey * V)) :
  JSMap.wf m = true ->
  JSMap.has k (JSMap.delete k' m) = negb (key_eqb k' k) && JSMap.has k m.
Proof.
  intros Hwf. destruct (key_eqb_spec k' k) as [->|Hne]; simpl.
  - unfold JSMap.has. now rewrite get_delete_same.
  - now apply has_delete_other.
Qed.

Lemma kept_delete (cm : t) (key : jsval) : kept cm -> kept (snd (delete cm key)).
Proof.
  intros (Hc & Ht & Ha & Hh & Hs). unfold delete.
  destruct (JSMap.get _ _); cbn [snd]; [|repeat split; auto; apply Hs].
  repeat split; cbn [cache timers accessTimes hitCount];
    try (now apply wf_delete);
    destruct (Hs k) as (H1 & H2 & H3); rewrite !has_delete by assumption.
  - now rewrite H1.
  - now rewrite H2.
  - intros H. apply andb_true_iff in H as [Hn Hk].
    rewrite Hn. now apply H3.
Qed.

Lemma kept_statistics (f : Statistics -> Statistics) (cm : t) :
  kept cm -> kept (with_statistics f cm).
Proof. intros H. exact H. Qed.

Lemma has_true_get {V : Type} (k : cachekey) (v : V) (m : list (cachekey * V)) :
  JSMap.get k m = Some v -> JSMap.has k m = true.
Proof. unfold JSMap.has. now intros ->. Qed.

Lemma absorb_present (k k' : cachekey) (b : bool) :
  (k' = k -> b = true) -> key_eqb k' k || b = b.
Proof.
  intros H. destruct (key_eqb_spec k' k) as [Heq|]; [|reflexivity].
  now rewrite (H Heq).
Qed.

Lemma kept_get (cm : t) (key d : jsval) (now : Z) :
  kept cm -> kept (snd (get cm key d now)).
Proof.
  intros Hk. unfold get.
  destruct (JSMap.get (normalizeKey key) (cache cm)) as [e|] eqn:E;
    [|exact Hk].
  destruct (isExpired e now); cbn [snd].
  - apply kept_statistics. now apply kept_delete.
  - destruct Hk as (Hc & Ht & Ha & Hh & Hs).
    apply has_true_get in E.
    repeat split; cbn [cache timers accessTimes hitCount];
      try assumption; try (now apply wf_set);
      destruct (Hs k) as (H1 & H2 & H3); try assumption;
      rewrite has_set, absorb_present; try assumption; intros <-; congruence.
Qed.

Lemma kept_evictLeastUsed (cm : t) : kept cm -> kept (evictLeastUsed cm).
Proof.
  intros Hk. unfold evictLeastUsed. destruct (key_truthy _); [|assumption].
  destruct (fst _); [|assumption].
  apply kept_statistics. now apply kept_delete.
Qed.

Lemma kept_set (cm : t) (key value : jsval) (o : SetOptions) (now : Z) :
  kept cm -> kept (snd (set cm key value o now)).
Proof.
  intros Hk.
  assert (Hk' : kept (after_eviction cm key)).
  { unfold after_eviction. destruct (_ && _); [|assumption].
    now apply kept_evictLeastUsed. }
  destruct Hk' as (Hc & Ht & Ha & Hh & Hs).
  unfold kept, in_step.
  rewrite set_cache, set_accessTimes, set_hitCount, set_timers. cbv zeta.
  assert (Ht1 : JSMap.wf
                  match JSMap.get (normalizeKey key) (timers (after_eviction cm key)) with
                  | Some tm => JSMap.set (normalizeKey key) (clearTimeout tm)
                                 (timers (after_eviction cm key))
                  | None => timers (after_eviction cm key)
                  end = true)
    by (destruct (JSMap.get _ _); [now apply wf_set | assumption]).
  assert (Hh1 : forall k,
             JSMap.has k
               match JSMap.get (normalizeKey key) (timers (after_eviction cm key)) with
               | Some tm => JSMap.set (normalizeKey key) (clearTimeout tm)
                              (timers (after_eviction cm key))
               | None => timers (after_eviction cm key)
               end
             = JSMap.has k (timers (after_eviction cm key))).
  { intros k. destruct (JSMap.get _ _) eqn:E; [|reflexivity].
    rewrite has_set. apply absorb_present. intros <-.
    now apply has_true_get in E. }
  repeat split; try (now apply wf_set).
  - destruct (_ >? 0); [now apply wf_set | assumption].
  - rewrite !has_set. now destruct (Hs k) as (-> & _ & _).
  - rewrite !has_set. now destruct (Hs k) as (_ & -> & _).
  - rewrite has_set. destruct (Hs k) as (_ & _ & H3).
    destruct (_ >? 0).
    + rewrite has_set, Hh1. intros H. apply orb_true_iff in H as [H|H].
      * now rewrite H.
      * rewrite (H3 H). apply orb_true_r.
    + rewrite Hh1. intros H. rewrite (H3 H). apply orb_true_r.
Qed.

Lemma kept_has (cm : t) (key : jsval) (now : Z) :
  kept cm -> kept (snd (has cm key now)).
Proof.
  intros Hk. unfold has. destruct (JSMap.get _ _); [|assumption].
  destruct (isExpired _ _); [now apply kept_delete | assumption].
Qed.

Lemma kept_touch (cm : t) (key : jsval) (a : option Z) (now : Z) :
  kept cm -> kept (snd (touch cm key a now)).
Proof.
  intros Hk. unfold touch.
  destruct (JSMap.get (normalizeKey key) (cache cm)) as [e|] eqn:E;
    [|assumption].
  destruct (isExpired e now); [assumption|]. cbn [snd].
  destruct Hk as (Hc & Ht & Ha & Hh & Hs). apply has_true_get in E.
  assert (Hcache : forall k,
             JSMap.has k (JSMap.set (normalizeKey key)
                            {| data := data e; timestamp := timestamp e;
                               ttl := ttl e;
                               expiresAt := now + extension a e;
                               priority := priority e; tags := tags e;
                               size := size e; compressed := compressed e;
                               encrypted := encrypted e |} (cache cm))
             = JSMap.has k (cache cm)).
  { intros k. rewrite has_set. apply absorb_present. now intros <-. }
  repeat split; cbn [cache timers accessTimes hitCount];
    try assumption; try (now apply wf_set).
  - apply wf_set. destruct (JSMap.get _ _); [now apply wf_set | assumption].
  - rewrite Hcache. apply Hs.
  - rewrite Hcache. apply Hs.
  - rewrite Hcache, has_set. intros H. apply orb_true_iff in H as [H|H].
    + destruct (key_eqb_spec (normalizeKey key) k); congruence.
    + destruct (Hs k) as (_ & _ & H3). apply H3.
      destruct (JSMap.get (normalizeKey key) (timers cm)) eqn:Et; [|assumption].
      rewrite has_set in H. apply orb_true_iff in H as [H|H]; [|assumption].
      destruct (key_eqb_spec (normalizeKey key) k) as [<-|]; [|discriminate].
      now apply has_true_get in Et.
Qed.

Lemma kept_delete_matching (matches : cachekey -> Entry -> bool)
  (entries : list (cachekey * Entry)) :
  forall cm, kept cm -> kept (delete_matching matches entries cm).
Proof.
  induction entries as [|[k e] tl IH]; intros cm Hk; [assumption|].
  cbn [delete_matching]. destruct (JSMap.has k (cache cm)); [|now apply IH].
  destruct (matches k e); apply IH; [now apply kept_delete | assumption].
Qed.

Lemma kept_clear (cm : t) (o : ClearOptions) : kept cm -> kept (clear cm o).
Proof.
  intros Hk. unfold clear.
  assert (Hall : kept {| options := options cm; cache := []; timers := [];
                         accessTimes := []; hitCount := [];
                         statistics :=
                           {| hits := hits (statistics cm);
                              misses := misses (statistics cm);
                              sets := sets (statistics cm);
                              deletes := deletes (statistics cm);
                              evictions := evictions (statistics cm);
                              totalSize := 0 |} |}).
  { repeat split; auto. }
  destruct (clear_tags o) as [[|tag more]|];
    try (now apply kept_delete_matching);
    (destruct (clear_pattern o); [now apply kept_delete_matching | exact Hall]).
Qed.

Lemma kept_cleanupExpired (cm : t) (now : Z) :
  kept cm -> kept (cleanupExpired cm now).
Proof.
  unfold cleanupExpired. generalize (expiredKeys cm now). intros l. revert cm.
  induction l as [|k tl IH]; intros cm Hk; [assumption|].
  cbn [fold_left]. apply IH. now apply kept_delete.
Qed.

Lemma kept_timerFires (cm : t) (k : cachekey) (now : Z) :
  kept cm -> kept (timerFires cm k now).
Proof.
  intros Hk. unfold timerFires. destruct (JSMap.get _ _); [|assumption].
  destruct (_ && _); [now apply kept_delete | assumption].
Qed.

Lemma kept_step (cm : t) (op : operation) : kept cm -> kept (step cm op).
Proof.
  intros Hk. destruct op; cbn [step].
  - now apply kept_get.
  - now apply kept_set.
  - now apply kept_delete.
  - now apply kept_has.
  - now apply kept_touch.
  - now apply kept_clear.
  - now apply kept_cleanupExpired.
  - now apply kept_timerFires.
Qed.

Lemma kept_run (ops : list operation) :
  forall cm, kept cm -> kept (run ops cm).
Proof.
  induction ops as [|op tl IH]; intros cm Hk; [assumption|].
  cbn [run fold_left]. apply IH. now apply kept_step.
Qed.

(** X12.  After any sequence of [get], [set], [delete], [has], [touch],
    [clear], sweeps and timer callbacks on a new cache, a key has an access
    time exactly when it has an entry, a hit count exactly when it has an
    entry, and a timer only when it has an entry. *)
Theorem tables_in_step (o : CtorOptions) (ops : list operation) :
  in_step (run ops (new o)).
Proof.
  assert (H : kept (new o)) by (repeat split; auto).
  apply (kept_run ops) in H. apply H.
Qed.

(** *** Capacity, eviction and the sweep *)

(** X13.  On a cache whose keys are not empty and are taken back to
    themselves by [denormalizeKey] and [normalizeKey], in the engine as
    here, a [set] of a new key at capacity removes exactly one of the
    entries and then stores the new one: the size is unchanged.  (Which
    entry goes is a comparison of rounded products in the engine; nothing
    is said of it here, but that the scores are finite.) *)
Theorem set_at_capacity_evicts_one (cm : t) (key value : jsval)
  (o : SetOptions) (now : Z) :
  tidy cm ->
  finite_scores cm ->
  cache cm <> [] ->
  maxSize (options cm) <= JSMap.size (cache cm) ->
  JSMap.has (normalizeKey key) (cache cm) = false ->
  exists k e,
    In (k, e) (cache cm)
    /\ cache (snd (set cm key value o now))
       = JSMap.set (normalizeKey key) (stored_entry cm value o now)
           (JSMap.delete k (cache cm))
    /\ JSMap.get k (cache (snd (set cm key value o now))) = None
    /\ JSMap.size (cache (snd (set cm key value o now)))
       = JSMap.size (cache cm).
Proof.
  intros Htidy _ Hne Hfull Hnew.
  destruct (evictLeastUsed_tidy cm Htidy Hne) as (k & e & Hin & _ & Hc & Hsz).
  exists k, e. split; [assumption|].
  assert (Hae : after_eviction cm key = evictLeastUsed cm).
  { unfold after_eviction.
    assert (Hge : (JSMap.size (cache cm) >=? maxSize (options cm)) = true)
      by (apply Z.geb_le; lia).
    now rewrite Hge, Hnew. }
  destruct Htidy as [Hwf _].
  assert (Hk : normalizeKey key <> k).
  { intros <-. apply In_has in Hin. congruence. }
  rewrite set_cache, Hae, Hc. split; [reflexivity|]. split.
  - rewrite get_set_other by assumption. now apply get_delete_same.
  - unfold JSMap.size in *. rewrite length_set.
    assert (Hh : JSMap.has (normalizeKey key) (JSMap.delete k (cache cm)) = false)
      by now apply has_delete_le.
    rewrite Hh, <- Hc. lia.
Qed.

Lemma set_at_capacity_evicts_one_witness :
  List.map fst (cache (snd (set full_of_two (JStr "third") (JNum 3) no_options 3000)))
  = [Some "new"%string; Some "third"%string].
Proof.
  destruct (set_at_capacity_evicts_one full_of_two (JStr "third") (JNum 3)
              no_options 3000) as (k & e & Hin & Hc & _).
  - split; [reflexivity|].
    intros k e [H|[H|[]]]; injection H as <- _;
      (split; [reflexivity | split; reflexivity]).
  - split; intros k v [H|[H|[]]]; injection H as _ <-; cbn; lia.
  - discriminate.
  - cbn. lia.
  - reflexivity.
  - reflexivity.
Defined.

Lemma no_growth_refl (cm : t) : no_growth cm cm.
Proof. repeat split; auto. lia. Qed.

Lemma no_growth_trans (a b c : t) :
  no_growth a b -> no_growth b c -> no_growth a c.
Proof.
  intros (H1 & H2 & H3) (H4 & H5 & H6). repeat split.
  - congruence.
  - auto.
  - lia.
Qed.

Lemma no_growth_delete (cm : t) (key : jsval) : no_growth cm (snd (delete cm key)).
Proof.
  unfold delete. destruct (JSMap.get _ _); cbn [snd]; [|apply no_growth_refl].
  repeat split; cbn [cache options].
  - intros k H. destruct (JSMap.has k (cache cm)) eqn:E; [reflexivity|].
    now rewrite has_delete_le in H.
  - unfold JSMap.size. rewrite length_delete. destruct (JSMap.has _ _); lia.
Qed.

Lemma no_growth_get (cm : t) (key d : jsval) (now : Z) :
  no_growth cm (snd (get cm key d now)).
Proof.
  unfold get. destruct (JSMap.get _ _); [|exact (no_growth_refl cm)].
  destruct (isExpired _ _); cbn [snd]; [|exact (no_growth_refl cm)].
  exact (no_growth_delete cm key).
Qed.

Lemma no_growth_has (cm : t) (key : jsval) (now : Z) :
  no_growth cm (snd (has cm key now)).
Proof.
  unfold has. destruct (JSMap.get _ _); [|apply no_growth_refl].
  destruct (isExpired _ _); [apply no_growth_delete | apply no_growth_refl].
Qed.

Lemma no_growth_touch (cm : t) (key : jsval) (a : option Z) (now : Z) :
  no_growth cm (snd (touch cm key a now)).
Proof.
  unfold touch.
  destruct (JSMap.get (normalizeKey key) (cache cm)) eqn:E; [|apply no_growth_refl].
  destruct (isExpired _ _); [apply no_growth_refl|]. cbn [snd].
  apply has_true_get in E. repeat split; cbn [cache options].
  - intros k. rewrite has_set. intros H. apply orb_true_iff in H as [H|H]; [|assumption].
    destruct (key_eqb_spec (normalizeKey key) k); congruence.
  - unfold JSMap.size. rewrite length_set, E. lia.
Qed.

Lemma no_growth_delete_matching (matches : cachekey -> Entry -> bool)
  (entries : list (cachekey * Entry)) :
  forall cm, no_growth cm (delete_matching matches entries cm).
Proof.
  induction entries as [|[k e] tl IH]; intros cm; [apply no_growth_refl|].
  cbn [delete_matching]. destruct (JSMap.has k (cache cm)); [|apply IH].
  destruct (matches k e); [|apply IH].
  eapply no_growth_trans; [apply no_growth_delete | apply IH].
Qed.

Lemma no_growth_clear (cm : t) (o : ClearOptions) : no_growth cm (clear cm o).
Proof.
  unfold clear.
  destruct (clear_tags o) as [[|tag more]|];
    try apply no_growth_delete_matching;
    (destruct (clear_pattern o); [apply no_growth_delete_matching|]);
    (repeat split; cbn [cache options]; [discriminate | unfold JSMap.size; cbn; lia]).
Qed.

Lemma no_growth_deletes (l : list jsval) :
  forall cm, no_growth cm (fold_left (fun c key => snd (delete c key)) l cm).
Proof.
  induction l as [|k tl IH]; intros cm; [apply no_growth_refl|].
  cbn [fold_left]. eapply no_growth_trans; [apply no_growth_delete | apply IH].
Qed.

Lemma no_growth_timerFires (cm : t) (k : cachekey) (now : Z) :
  no_growth cm (timerFires cm k now).
Proof.
  unfold timerFires. destruct (JSMap.get _ _); [|apply no_growth_refl].
  destruct (_ && _); [apply no_growth_delete | apply no_growth_refl].
Qed.

Lemma no_growth_step (cm : t) (op : operation) :
  match op with OpSet _ _ _ _ => True | _ => no_growth cm (step cm op) end.
Proof.
  destruct op; cbn [step]; auto using no_growth_get, no_growth_delete,
    no_growth_has, no_growth_touch, no_growth_clear, no_growth_timerFires.
  apply no_growth_deletes.
Qed.

Lemma has_In {V : Type} (k : cachekey) (m : list (cachekey * V)) :
  JSMap.has k m = true -> exists v, In (k, v) m.
Proof.
  unfold JSMap.has. destruct (JSMap.get k m) as [v|] eqn:E; [|discriminate].
  intros _. exists v. now apply get_In.
Qed.

Lemma tidy_no_growth (cm cm' : t) :
  tidy cm -> JSMap.wf (cache cm') = true -> no_growth cm cm' -> tidy cm'.
Proof.
  intros (Hwf & Hev) Hwf' (_ & Hsub & _). split; [assumption|].
  intros k e Hin. apply In_has in Hin. apply Hsub in Hin.
  apply has_In in Hin as (e' & Hin). now apply (Hev k e').
Qed.

Lemma capacity_run (ops : list operation) :
  forall cm,
    kept cm -> tidy cm ->
    1 <= maxSize (options cm) ->
    JSMap.size (cache cm) <= maxSize (options cm) ->
    Forall sets_evictable ops ->
    JSMap.size (cache (run ops cm)) <= maxSize (options cm).
Proof.
  induction ops as [|op tl IH]; intros cm Hk Ht Hmax Hsize Hops; [assumption|].
  inversion Hops as [|? ? Hop Htl]; subst. cbn [run fold_left].
  pose proof (kept_step cm op Hk) as Hk'.
  assert (H : tidy (step cm op)
              /\ maxSize (options (step cm op)) = maxSize (options cm)
              /\ JSMap.size (cache (step cm op)) <= maxSize (options cm)).
  { pose proof (no_growth_step cm op) as Hng.
    destruct op;
      try (destruct Hng as (Ho & Hsub & Hle);
           split; [apply (tidy_no_growth cm); [assumption | apply Hk' | repeat split; assumption]|];
           split; [now rewrite Ho | lia]).
    cbn [step]. cbn [sets_evictable] in Hop.
    now apply set_within_capacity. }
  destruct H as (Ht' & Hm' & Hs'). rewrite <- Hm'.
  apply (IH (step cm op)); try assumption; rewrite Hm'; assumption.
Qed.

(** X14.  On a new cache whose [maxSize] is at least 1, the number of
    entries stays within [maxSize] through every sequence of [get], [set],
    [delete], [has], [touch], [clear], sweeps and timer callbacks, when the
    keys that are [set] are not empty and return from [denormalizeKey]
    followed by [normalizeKey], in the engine as here ([key_returns]). *)
Theorem capacity_over_operations (o : CtorOptions) (ops : list operation) :
  1 <= maxSize (options (new o)) ->
  Forall sets_evictable ops ->
  JSMap.size (cache (run ops (new o))) <= maxSize (options (new o)).
Proof.
  intros Hmax Hops. apply capacity_run; try assumption.
  - repeat split; auto.
  - split; [reflexivity | intros k e []].
  - change (0 <= maxSize (options (new o))). lia.
Qed.

Lemma capacity_over_operations_witness :
  JSMap.size
    (cache (run [OpSet (JStr "a") (JNum 1) no_options 1;
                 OpSet (JStr "b") (JNum 2) no_options 2;
                 OpGet (JStr "a") JUndefined 3;
                 OpSet (JStr "c") (JNum 3) no_options 4;
                 OpTouch (JStr "c") None 5]
              (cache_of_capacity 2)))
  <= 2.
Proof.
  apply (capacity_over_operations (mkCtorOptions None (Some 2) None None)
           [OpSet (JStr "a") (JNum 1) no_options 1;
            OpSet (JStr "b") (JNum 2) no_options 2;
            OpGet (JStr "a") JUndefined 3;
            OpSet (JStr "c") (JNum 3) no_options 4;
            OpTouch (JStr "c") None 5]).
  - cbn. lia.
  - repeat constructor.
Defined.

Lemma get_filter {V : Type} (f : V -> bool) (k : cachekey)
  (m : list (cachekey * V)) :
  JSMap.wf m = true ->
  JSMap.get k (List.filter (fun kv => f (snd kv)) m)
  = match JSMap.get k m with
    | Some v => if f v then Some v else None
    | None => None
    end.
Proof.
  induction m as [|[k0 v0] tl IH]; cbn [List.filter JSMap.get JSMap.wf];
    [reflexivity|].
  intros H. apply andb_true_iff in H as [Hn Hw]. apply negb_true_iff in Hn.
  cbn [snd]. destruct (key_eqb_spec k0 k) as [->|Hne].
  - destruct (f v0); cbn [JSMap.get].
    + now rewrite key_eqb_refl.
    + rewrite (IH Hw). unfold JSMap.has in Hn.
      now destruct (JSMap.get k tl).
  - destruct (f v0); cbn [JSMap.get]; [rewrite key_eqb_neq by assumption|];
      apply (IH Hw).
Qed.

(** X15.  A sweep at clock [now] removes exactly the expired entries: on a
    cache whose keys return from [denormalizeKey] followed by
    [normalizeKey], in the engine as here ([key_returns]), a key is found
    afterwards exactly when it was found before with an entry that has not
    expired, and it has the same entry. *)
Theorem sweep_removes_the_expired (cm : t) (now : Z) (k : cachekey) :
  JSMap.wf (cache cm) = true ->
  (forall k' e, In (k', e) (cache cm) -> key_returns k') ->
  JSMap.get k (cache (cleanupExpired cm now))
  = match JSMap.get k (cache cm) with
    | Some e => if isExpired e now then None else Some e
    | None => None
    end.
Proof.
  intros Hwf Hkeys. rewrite cleanupExpired_filter by assumption.
  rewrite (get_filter (fun e => negb (isExpired e now))) by assumption.
  destruct (JSMap.get k (cache cm)) as [e|]; [|reflexivity].
  now destruct (isExpired e now).
Qed.

Lemma sweep_removes_the_expired_witness :
  JSMap.get (Some "short"%string)
    (cache (cleanupExpired
              (snd (set (snd (set example_cache (JStr "short") (JNum 1) ttl_1000 0))
                      (JStr "long") (JNum 2) no_options 0))
              60000))
  = None.
Proof.
  rewrite (sweep_removes_the_expired
             (snd (set (snd (set example_cache (JStr "short") (JNum 1) ttl_1000 0))
                     (JStr "long") (JNum 2) no_options 0))
             60000 (Some "short"%string)).
  - reflexivity.
  - reflexivity.
  - intros k e [H|[H|[]]]; injection H as <- _; split; reflexivity.
Defined.

(** *** [getOldestEntry], [getMostAccessedEntry], [getMemoryUsage] *)

Lemma oldest_from_spec (entries : list (cachekey * Entry)) :
  forall seen k0 e0,
    In (k0, e0) seen ->
    (forall k e, In (k, e) seen -> timestamp e0 <= timestamp e) ->
    exists k e,
      oldest_from entries (Some (denormalizeKey k0)) (Some (timestamp e0))
      = Some (denormalizeKey k)
      /\ In (k, e) (seen ++ entries)
      /\ forall k' e', In (k', e') (seen ++ entries) ->
                       timestamp e <= timestamp e'.
Proof.
  induction entries as [|[k1 e1] tl IH]; intros seen k0 e0 Hin Hmin.
  - exists k0, e0. rewrite List.app_nil_r. auto.
  - cbn [oldest_from]. destruct (timestamp e1 <? timestamp e0) eqn:E.
    + apply Z.ltb_lt in E.
      destruct (IH (seen ++ [(k1, e1)]) k1 e1) as (k & e & H1 & H2 & H3).
      * apply in_or_app. right. now left.
      * intros k e Hke. apply in_app_or in Hke as [Hke|[[= <- <-]|[]]];
          [specialize (Hmin k e Hke)|]; lia.
      * exists k, e. rewrite <- List.app_assoc in H2, H3. auto.
    + apply Z.ltb_ge in E.
      destruct (IH (seen ++ [(k1, e1)]) k0 e0) as (k & e & H1 & H2 & H3).
      * apply in_or_app. now left.
      * intros k e Hke. apply in_app_or in Hke as [Hke|[[= <- <-]|[]]];
          [now apply (Hmin k) | assumption].
      * exists k, e. rewrite <- List.app_assoc in H2, H3. auto.
Qed.

(** X16.  [getOldestEntry] is [null] on an empty cache; otherwise it is the
    key, as [denormalizeKey] gives it, of an entry whose [timestamp] no
    entry is below. *)
Theorem getOldestEntry_is_oldest (cm : t) :
  (cache cm = [] -> getOldestEntry cm = None)
  /\ (cache cm <> [] ->
      exists k e,
        In (k, e) (cache cm)
        /\ getOldestEntry cm = Some (denormalizeKey k)
        /\ forall k' e', In (k', e') (cache cm) -> timestamp e <= timestamp e').
Proof.
  unfold getOldestEntry. split.
  - now intros ->.
  - destruct (cache cm) as [|[k0 e0] tl]; [contradiction|]. intros _.
    cbn [oldest_from].
    destruct (oldest_from_spec tl [(k0, e0)] k0 e0) as (k & e & H1 & H2 & H3).
    + now left.
    + intros k e [[= <- <-]|[]]. lia.
    + exists k, e. auto.
Qed.

Lemma mostAccessed_from_spec (counts : list (cachekey * Z)) :
  forall seen best hits,
    0 <= hits ->
    (forall k h, In (k, h) seen -> h <= hits) ->
    (match best with
     | Some v => exists k, In (k, hits) seen /\ v = denormalizeKey k /\ 0 < hits
     | None => hits = 0
     end) ->
    let r := mostAccessed_from counts best hits in
    0 <= snd r
    /\ (forall k h, In (k, h) (seen ++ counts) -> h <= snd r)
    /\ match fst r with
       | Some v =>
           exists k, In (k, snd r) (seen ++ counts)
                     /\ v = denormalizeKey k /\ 0 < snd r
       | None => snd r = 0
       end.
Proof.
  induction counts as [|[k1 h1] tl IH]; intros seen best hits H0 Hmax Hbest.
  - cbn. rewrite List.app_nil_r. auto.
  - cbn [mostAccessed_from]. destruct (h1 >? hits) eqn:E.
    + rewrite Z.gtb_ltb in E. apply Z.ltb_lt in E.
      specialize (IH (seen ++ [(k1, h1)]) (Some (denormalizeKey k1)) h1).
      rewrite <- List.app_assoc in IH. apply IH; [lia | |].
      * intros k h Hin. apply in_app_or in Hin as [Hin|[[= <- <-]|[]]];
          [specialize (Hmax k h Hin)|]; lia.
      * exists k1. split; [apply in_or_app; right; now left|]. split; [reflexivity | lia].
    + rewrite Z.gtb_ltb in E. apply Z.ltb_ge in E.
      specialize (IH (seen ++ [(k1, h1)]) best hits).
      rewrite <- List.app_assoc in IH. apply IH; [lia | |].
      * intros k h Hin. apply in_app_or in Hin as [Hin|[[= <- <-]|[]]];
          [now apply (Hmax k) | assumption].
      * destruct best as [v|]; [|assumption].
        destruct Hbest as (k & Hin & Hv & Hpos).
        exists k. split; [apply in_or_app; now left | auto].
Qed.

(** X17.  [getMostAccessedEntry] reports a hit count that no key exceeds.
    When some key has been hit, the key reported has that count; when none
    has, the key is [null] and the count 0, however many entries there
    are. *)
Theorem getMostAccessedEntry_is_max (cm : t) :
  (forall k h, In (k, h) (hitCount cm) -> h <= snd (getMostAccessedEntry cm))
  /\ match fst (getMostAccessedEntry cm) with
     | Some v =>
         exists k, In (k, snd (getMostAccessedEntry cm)) (hitCount cm)
                   /\ v = denormalizeKey k
                   /\ 0 < snd (getMostAccessedEntry cm)
     | None => snd (getMostAccessedEntry cm) = 0
     end.
Proof.
  unfold getMostAccessedEntry.
  destruct (mostAccessed_from_spec (hitCount cm) [] None 0) as (_ & H2 & H3);
    [lia | intros k h [] | reflexivity |].
  split; assumption.
Qed.

Lemma memory_of_from (m : list (cachekey * Entry)) :
  forall acc,
    fold_left
      (fun acc ke =>
         (fst acc + size (snd ke),
          if compressed (snd ke) then snd acc + size (snd ke) else snd acc))
      m acc
    = (fst acc + fst (memory_of m), snd acc + snd (memory_of m)).
Proof.
  unfold memory_of. induction m as [|[k e] tl IH]; intros [a b]; cbn [fold_left fst snd].
  - f_equal; lia.
  - rewrite IH. rewrite (IH (0 + size e, _)). cbn [fst snd].
    destruct (compressed e); f_equal; lia.
Qed.

Lemma memory_of_cons (k : cachekey) (e : Entry) (m : list (cachekey * Entry)) :
  memory_of ((k, e) :: m)
  = (size e + fst (memory_of m),
     (if compressed e then size e else 0) + snd (memory_of m)).
Proof.
  unfold memory_of at 1. cbn [fold_left fst snd]. rewrite memory_of_from.
  cbn [fst snd]. destruct (compressed e); f_equal; lia.
Qed.

Lemma memory_of_delete (k : cachekey) (e : Entry) (m : list (cachekey * Entry)) :
  JSMap.get k m = Some e ->
  fst (memory_of (JSMap.delete k m)) = fst (memory_of m) - size e.
Proof.
  induction m as [|[k0 e0] tl IH]; cbn [JSMap.get JSMap.delete]; [discriminate|].
  destruct (key_eqb k0 k).
  - intros [= ->]. rewrite memory_of_cons. cbn [fst]. lia.
  - intros H. rewrite !memory_of_cons. cbn [fst]. rewrite (IH H). lia.
Qed.

Lemma memory_of_set (k : cachekey) (e : Entry) (m : list (cachekey * Entry)) :
  fst (memory_of (JSMap.set k e m))
  = fst (memory_of m) + size e
    - match JSMap.get k m with Some e0 => size e0 | None => 0 end.
Proof.
  induction m as [|[k0 e0] tl IH]; cbn [JSMap.get JSMap.set].
  - rewrite memory_of_cons. cbn. lia.
  - destruct (key_eqb k0 k); rewrite !memory_of_cons; cbn [fst]; [lia|].
    rewrite IH. lia.
Qed.

Lemma memory_of_bounds (m : list (cachekey * Entry)) :
  (forall k e, In (k, e) m -> 0 <= size e) ->
  0 <= snd (memory_of m) <= fst (memory_of m).
Proof.
  induction m as [|[k e] tl IH]; intros H; [cbn; lia|].
  rewrite memory_of_cons. cbn [fst snd].
  assert (0 <= size e) by (apply (H k); now left).
  assert (0 <= snd (memory_of tl) <= fst (memory_of tl))
    by (apply IH; intros k' e' Hin; apply (H k'); now right).
  destruct (compressed e); lia.
Qed.

Lemma In_set_entry (k k' : cachekey) (e e' : Entry) (m : list (cachekey * Entry)) :
  In (k', e') (JSMap.set k e m) -> e' = e \/ In (k', e') m.
Proof.
  induction m as [|[k0 e0] tl IH]; cbn [JSMap.set].
  - intros [[= _ <-]|[]]. now left.
  - destruct (key_eqb k0 k).
    + intros [[= <- <-]|H]; [now left | right; now right].
    + intros [H|H]; [right; now left|].
      destruct (IH H) as [->|Hin]; [now left | right; now right].
Qed.

Lemma calculateSize_nonneg (v : jsval) : 0 <= calculateSize v.
Proof. unfold calculateSize. destruct (JSON.stringify v); lia. Qed.

Lemma slack_delete (cm : t) (key : jsval) :
  sizes_nonneg cm ->
  sizes_nonneg (snd (delete cm key)) /\ slack (snd (delete cm key)) = slack cm.
Proof.
  intros Hs. unfold delete.
  destruct (JSMap.get (normalizeKey key) (cache cm)) as [e|] eqn:E;
    cbn [snd]; [|split; [assumption | reflexivity]].
  split.
  - intros k e' Hin. apply In_delete in Hin. now apply (Hs k).
  - unfold slack, getMemoryUsage. cbn [cache statistics deleted totalSize].
    rewrite (memory_of_delete _ e) by assumption. lia.
Qed.

Lemma slack_deletes (l : list jsval) :
  forall cm,
    sizes_nonneg cm ->
    sizes_nonneg (fold_left (fun c key => snd (delete c key)) l cm)
    /\ slack (fold_left (fun c key => snd (delete c key)) l cm) = slack cm.
Proof.
  induction l as [|k tl IH]; intros cm Hs; [split; [assumption | reflexivity]|].
  cbn [fold_left]. destruct (slack_delete cm k Hs) as (H1 & H2).
  destruct (IH _ H1) as (H3 & H4). split; [assumption | congruence].
Qed.

Lemma slack_delete_matching (matches : cachekey -> Entry -> bool)
  (entries : list (cachekey * Entry)) :
  forall cm,
    sizes_nonneg cm ->
    sizes_nonneg (delete_matching matches entries cm)
    /\ slack (delete_matching matches entries cm) = slack cm.
Proof.
  induction entries as [|[k e] tl IH]; intros cm Hs;
    [split; [assumption | reflexivity]|].
  cbn [delete_matching]. destruct (JSMap.has k (cache cm)); [|now apply IH].
  destruct (matches k e); [|now apply IH].
  destruct (slack_delete cm (denormalizeKey k) Hs) as (H1 & H2).
  destruct (IH _ H1) as (H3 & H4). split; [assumption | congruence].
Qed.

Lemma slack_get (cm : t) (key d : jsval) (now : Z) :
  sizes_nonneg cm ->
  sizes_nonneg (snd (get cm key d now)) /\ slack (snd (get cm key d now)) = slack cm.
Proof.
  intros Hs. unfold get. destruct (JSMap.get _ _);
    [|split; [exact Hs | reflexivity]].
  destruct (isExpired _ _); cbn [snd]; [|split; [exact Hs | reflexivity]].
  exact (slack_delete cm key Hs).
Qed.

Lemma slack_evictLeastUsed (cm : t) :
  sizes_nonneg cm ->
  sizes_nonneg (evictLeastUsed cm) /\ slack (evictLeastUsed cm) = slack cm.
Proof.
  intros Hs. unfold evictLeastUsed.
  destruct (key_truthy _); [|split; [assumption | reflexivity]].
  destruct (fst _) as [k|]; [|split; [assumption | reflexivity]].
  exact (slack_delete cm (denormalizeKey k) Hs).
Qed.

Lemma slack_after_eviction (cm : t) (key : jsval) :
  sizes_nonneg cm ->
  sizes_nonneg (after_eviction cm key) /\ slack (after_eviction cm key) = slack cm.
Proof.
  intros Hs. unfold after_eviction.
  destruct (_ && _); [now apply slack_evictLeastUsed | split; [assumption | reflexivity]].
Qed.

Lemma set_statistics (cm : t) (key value : jsval) (o : SetOptions) (now : Z) :
  statistics (snd (set cm key value o now))
  = stored (calculateSize value) (statistics (after_eviction cm key)).
Proof. reflexivity. Qed.

Lemma slack_set (cm : t) (key value : jsval) (o : SetOptions) (now : Z) :
  sizes_nonneg cm ->
  sizes_nonneg (snd (set cm key value o now))
  /\ slack (snd (set cm key value o now))
     = slack cm
       + match JSMap.get (normalizeKey key) (cache (after_eviction cm key)) with
         | Some old => size old
         | None => 0
         end.
Proof.
  intros Hs. destruct (slack_after_eviction cm key Hs) as (H1 & H2). split.
  - intros k e. rewrite set_cache. intros Hin.
    apply In_set_entry in Hin as [->|Hin]; [apply calculateSize_nonneg|].
    now apply (H1 k).
  - unfold slack in *. unfold getMemoryUsage in *.
    rewrite set_cache, set_statistics, memory_of_set.
    cbn [stored totalSize stored_entry size]. lia.
Qed.

Lemma slack_touch (cm : t) (key : jsval) (a : option Z) (now : Z) :
  sizes_nonneg cm ->
  sizes_nonneg (snd (touch cm key a now))
  /\ slack (snd (touch cm key a now)) = slack cm.
Proof.
  intros Hs. unfold touch.
  destruct (JSMap.get (normalizeKey key) (cache cm)) as [e|] eqn:E;
    [|split; [assumption | reflexivity]].
  destruct (isExpired e now); [split; [assumption | reflexivity]|]. cbn [snd].
  split.
  - intros k e' Hin. cbn [cache] in Hin.
    apply In_set_entry in Hin as [->|Hin]; [|now apply (Hs k)].
    cbn [size]. apply (Hs (normalizeKey key)). now apply get_In.
  - unfold slack, getMemoryUsage. cbn [cache statistics].
    rewrite memory_of_set, E. cbn [size]. lia.
Qed.

Lemma slack_step (cm : t) (op : operation) :
  sizes_nonneg cm -> 0 <= slack cm ->
  sizes_nonneg (step cm op) /\ 0 <= slack (step cm op).
Proof.
  intros Hs H0. destruct op; cbn [step].
  - destruct (slack_get cm key defaultValue now Hs) as (H1 & H2). split; [assumption | lia].
  - destruct (slack_set cm key value o now Hs) as (H1 & H2). split; [assumption|].
    rewrite H2. destruct (slack_after_eviction cm key Hs) as (H3 & _).
    destruct (JSMap.get _ _) as [old|] eqn:E; [|lia].
    apply get_In in E. specialize (H3 _ _ E). lia.
  - destruct (slack_delete cm key Hs) as (H1 & H2). split; [assumption | lia].
  - unfold has. destruct (JSMap.get _ _); [|now split].
    destruct (isExpired _ _); [|now split].
    destruct (slack_delete cm key Hs) as (H1 & H2). split; [assumption | cbn [snd]; lia].
  - destruct (slack_touch cm key additionalTTL now Hs) as (H1 & H2). split; [assumption | lia].
  - unfold clear.
    assert (Hm : forall f,
               sizes_nonneg (delete_matching f (cache cm) cm)
               /\ 0 <= slack (delete_matching f (cache cm) cm)).
    { intros f. destruct (slack_delete_matching f (cache cm) cm Hs) as (H1 & H2).
      split; [assumption | lia]. }
    destruct (clear_tags o) as [[|tag more]|]; try apply Hm;
      (destruct (clear_pattern o); [apply Hm|]);
      (split; [intros k e [] | unfold slack; cbn; lia]).
  - destruct (slack_deletes (expiredKeys cm now) cm Hs) as (H1 & H2).
    split; [assumption | unfold cleanupExpired; lia].
  - unfold timerFires. destruct (JSMap.get _ _); [|now split].
    destruct (_ && _); [|now split].
    destruct (slack_delete cm (timerKey t0) Hs) as (H1 & H2). split; [assumption | lia].
Qed.

Lemma slack_run (ops : list operation) :
  forall cm,
    sizes_nonneg cm -> 0 <= slack cm ->
    sizes_nonneg (run ops cm) /\ 0 <= slack (run ops cm).
Proof.
  induction ops as [|op tl IH]; intros cm Hs H0; [now split|].
  cbn [run fold_left]. destruct (slack_step cm op Hs H0) as (H1 & H2).
  now apply IH.
Qed.

(** X18.  After any sequence of operations on a new cache,
    [getMemoryUsage] reports a [compressedSize] between 0 and its
    [totalSize], and [statistics.totalSize] is never below that
    [totalSize]. *)
Theorem memory_within_statistics (o : CtorOptions) (ops : list operation) :
  0 <= snd (getMemoryUsage (run ops (new o)))
    <= fst (getMemoryUsage (run ops (new o)))
  /\ fst (getMemoryUsage (run ops (new o)))
     <= totalSize (statistics (run ops (new o))).
Proof.
  destruct (slack_run ops (new o)) as (H1 & H2).
  - intros k e [].
  - unfold slack. cbn. lia.
  - split; [now apply memory_of_bounds | unfold slack in H2; lia].
Qed.



(** *** [import] *)

Lemma has_options (cm : t) (key : jsval) (now : Z) :
  options (snd (has cm key now)) = options cm.
Proof.
  unfold has. destruct (JSMap.get _ _); [|reflexivity].
  destruct (isExpired _ _); [apply delete_options | reflexivity].
Qed.

Lemma delete_sets (cm : t) (key : jsval) :
  sets (statistics (snd (delete cm key))) = sets (statistics cm).
Proof. unfold delete. now destruct (JSMap.get _ _). Qed.

Lemma has_sets (cm : t) (key : jsval) (now : Z) :
  sets (statistics (snd (has cm key now))) = sets (statistics cm).
Proof.
  unfold has. destruct (JSMap.get _ _); [|reflexivity].
  destruct (isExpired _ _); [apply delete_sets | reflexivity].
Qed.

Lemma set_sets (cm : t) (key value : jsval) (o : SetOptions) (now : Z) :
  sets (statistics (snd (set cm key value o now))) = sets (statistics cm) + 1.
Proof.
  rewrite set_statistics. cbn [stored sets]. f_equal.
  unfold after_eviction. destruct (_ && _); [|reflexivity].
  unfold evictLeastUsed. destruct (key_truthy _); [|reflexivity].
  destruct (fst _); [|reflexivity]. apply delete_sets.
Qed.

Lemma import_from_counts (entries : list (string * Imported))
  (o : ImportOptions) (now : Z) :
  forall cm imported skipped,
    let r := import_from entries cm o now imported skipped in
    fst (fst r) + snd (fst r)
    = imported + skipped + Z.of_nat (List.length entries)
    /\ sets (statistics (snd r)) - fst (fst r)
       = sets (statistics cm) - imported
    /\ options (snd r) = options cm.
Proof.
  induction entries as [|[key e] tl IH]; intros cm imported skipped.
  - cbn. repeat split; lia.
  - cbn [import_from List.length].
    assert (Hp : sets (statistics
                         (snd (if from_option (overwrite o) false
                               then (false, cm) else has cm (JStr key) now)))
                 = sets (statistics cm)
                 /\ options (snd (if from_option (overwrite o) false
                                  then (false, cm) else has cm (JStr key) now))
                    = options cm).
    { destruct (from_option (overwrite o) false);
        [split; reflexivity | split; [apply has_sets | apply has_options]]. }
    destruct (if from_option (overwrite o) false
              then (false, cm) else has cm (JStr key) now) as [present cm1].
    cbn [snd] in Hp. destruct Hp as (Hs & Ho).
    destruct present; [|destruct (_ && _)].
    + destruct (IH cm1 imported (skipped + 1)) as (H1 & H2 & H3).
      repeat split; [lia | lia | congruence].
    + destruct (IH cm1 imported (skipped + 1)) as (H1 & H2 & H3).
      repeat split; [lia | lia | congruence].
    + match goal with
      | |- context [import_from tl ?c o now (imported + 1) skipped] =>
          destruct (IH c (imported + 1) skipped) as (H1 & H2 & H3)
      end.
      rewrite set_sets in H2. rewrite set_options in H3.
      repeat split; [lia | lia | congruence].
Qed.

Lemma import_from_app (l1 l2 : list (string * Imported)) (o : ImportOptions)
  (now : Z) :
  forall cm imported skipped,
    import_from (l1 ++ l2) cm o now imported skipped
    = import_from l2 (snd (import_from l1 cm o now imported skipped)) o now
        (fst (fst (import_from l1 cm o now imported skipped)))
        (snd (fst (import_from l1 cm o now imported skipped))).
Proof.
  induction l1 as [|[key e] tl IH]; intros cm imported skipped; [reflexivity|].
  cbn [List.app import_from].
  destruct (if from_option (overwrite o) false
            then (false, cm) else has cm (JStr key) now) as [present cm1].
  destruct present; [apply IH|]. destruct (_ && _); apply IH.
Qed.

(** X20.  [import] counts every entry of the data once, as imported or as
    skipped, and [statistics.sets] goes up by the number imported. *)
Theorem import_counts_every_entry (cm : t) (entries : list (string * Imported))
  (o : ImportOptions) (now : Z) :
  fst (fst (import cm entries o now)) + snd (fst (import cm entries o now))
  = Z.of_nat (List.length entries)
  /\ sets (statistics (snd (import cm entries o now)))
     = sets (statistics cm) + fst (fst (import cm entries o now)).
Proof.
  unfold import.
  destruct (import_from_counts entries o now cm 0 0) as (H1 & H2 & _).
  split; lia.
Qed.

(** X21.  The entry [import] reads last, when it is not skipped, is stored
    under its key with the data [cloneData] gives and with its own expiry
    instant when that is still ahead; an entry that expires at the very
    clock of the import, or an expired one imported with [skipExpired]
    false, is given [defaultTTL] from the import on.  It is not skipped
    when [overwrite] is true, or when [has] finds no live entry of its key
    in a cache that had room for the entries before it (so that nothing
    was evicted on the way). *)
Theorem import_expiry (cm : t) (pre : list (string * Imported)) (key : string)
  (e : Imported) (o : ImportOptions) (now x : Z) :
  overwrite o = Some true
  \/ (JSMap.size (cache cm) + Z.of_nat (List.length pre) <= maxSize (options cm)
      /\ fst (has (snd (import cm pre o now)) (JStr key) now) = false) ->
  imp_expiresAt e = Some x ->
  skipExpired o = Some false \/ now <= x ->
  exists entry,
    JSMap.get (Some key) (cache (snd (import cm (pre ++ [(key, e)]) o now)))
    = Some entry
    /\ data entry = cloneData (imp_value e)
    /\ expiresAt entry
       = if now <? x then x else now + defaultTTL (options cm).
Proof.
  intros Hnew Hx Hlive. unfold import in *. rewrite import_from_app.
  destruct (import_from_counts pre o now cm 0 0) as (_ & _ & Ho).
  cbv zeta in Ho.
  destruct (import_from pre cm o now 0 0) as [[i s] cm1]. cbn [fst snd] in *.
  cbn [import_from].
  assert (Hp : exists cm1',
             (if from_option (overwrite o) false
              then (false, cm1) else has cm1 (JStr key) now) = (false, cm1')
             /\ options cm1' = options cm).
  { destruct Hnew as [Hov|[_ Hhas]].
    - rewrite Hov. cbn. now exists cm1.
    - destruct (from_option (overwrite o) false); [now exists cm1|].
      exists (snd (has cm1 (JStr key) now)). split.
      + destruct (has cm1 (JStr key) now) as [b c]. cbn [fst snd] in *.
        now subst b.
      + now rewrite has_options. }
  destruct Hp as (cm1' & -> & Ho').
  assert (Hskip : from_option (skipExpired o) true && expires_before e now = false).
  { unfold expires_before. rewrite Hx. destruct Hlive as [->|Hle]; [reflexivity|].
    apply andb_false_iff. right. apply Z.ltb_ge. lia. }
  rewrite Hskip. cbn [import_from snd].
  eexists. split; [apply (set_lookup cm1' (JStr key))|].
  split; [reflexivity|].
  cbn [stored_entry expiresAt]. unfold effective_ttl, remainingTTL.
  rewrite Hx. cbn [opt_ttl]. rewrite Ho'.
  destruct (Z.ltb_spec now x).
  - destruct (Z.eqb_spec (Z.max 0 (x - now)) 0); lia.
  - destruct (Z.eqb_spec (Z.max 0 (x - now)) 0); lia.
Qed.

Lemma import_expiry_witness :
  exists entry,
    JSMap.get (Some "p1"%string)
      (cache (snd (import example_cache
                     ([] ++ [("p1"%string,
                              mkImported (JNum 1) (Some 5000) None None)])
                     (mkImportOptions None None) 5000)))
    = Some entry
    /\ data entry = cloneData (JNum 1)
    /\ expiresAt entry
       = if 5000 <? 5000 then 5000 else 5000 + defaultTTL (options example_cache).
Proof.
  apply (import_expiry example_cache [] "p1"
           (mkImported (JNum 1) (Some 5000) None None)
           (mkImportOptions None None) 5000 5000).
  - right. split; [cbn; lia | reflexivity].
  - reflexivity.
  - right. lia.
Defined.

End CacheMore.

(* ================================================================== *)
(** ** More of [ErrorHandler] *)

Module ErrorMore.
Import ErrorHandler RetryFacts Examples.

Local Open Scope Z_scope.

(** *** [retry] for any [fn] *)

(** Some attempt within the retries left ends the loop. *)
Lemma ends_exists {A : Type} (fn : nat -> A + jserror) (config : retryConfig)
  (k : nat) :
  forall a,
    Z.of_nat (a + k) = maxRetries config ->
    exists n res,
      (n <= k)%nat
      /\ (forall i, (a <= i < a + n)%nat ->
                    exists e, fn i = inr e /\ canRetry (classifyError e) = true)
      /\ ends_at fn config (a + n) res.
Proof.
  induction k as [|k IH]; intros a Hmax.
  - exists 0%nat. rewrite Nat.add_0_r in *. unfold ends_at.
    destruct (fn a) as [v|e] eqn:E.
    + exists (Returned v). repeat split; [lia | intros i Hi; lia].
    + exists (Threw (Some e)). repeat split; [lia | intros i Hi; lia | now right].
  - destruct (fn a) as [v|e] eqn:E.
    + exists 0%nat, (Returned v). rewrite Nat.add_0_r. unfold ends_at. rewrite E.
      repeat split; [lia | intros i Hi; lia].
    + destruct (canRetry (classifyError e)) eqn:Ec.
      * destruct (IH (S a)) as (n & res & Hn & Hpre & Hend); [lia|].
        exists (S n), res. replace (a + S n)%nat with (S a + n)%nat by lia.
        repeat split; [lia | | assumption].
        intros i Hi. destruct (Nat.eq_dec i a) as [->|Hne].
        -- exists e. now split.
        -- apply Hpre. lia.
      * exists 0%nat, (Threw (Some e)). rewrite Nat.add_0_r. unfold ends_at.
        rewrite E. repeat split; [lia | intros i Hi; lia | now left].
Qed.

Lemma total_wait_called (i : nat) (tl : list event) :
  total_wait (Called i :: tl) = total_wait tl.
Proof. reflexivity. Qed.

Lemma total_wait_slept (ms : Z) (tl : list event) :
  total_wait (Slept ms :: tl) = ms + total_wait tl.
Proof. reflexivity. Qed.

Lemma total_wait_backoff (config : retryConfig) (n : nat) :
  forall a tl,
    0 <= maxDelay config ->
    total_wait (backoff_trace config a n ++ tl)
    <= Z.of_nat n * maxDelay config + total_wait tl.
Proof.
  unfold backoff_trace. induction n as [|n IH]; intros a tl Hd;
    cbn [List.seq List.flat_map List.app]; [lia|].
  rewrite total_wait_called, total_wait_slept.
  specialize (IH (S a) tl Hd).
  assert (delay config a <= maxDelay config) by (unfold delay; lia).
  lia.
Qed.

Lemma calls_backoff (config : retryConfig) (n : nat) :
  forall a tl,
    calls (backoff_trace config a n ++ tl) = List.seq a n ++ calls tl.
Proof.
  unfold backoff_trace. induction n as [|n IH]; intros a tl; [reflexivity|].
  cbn [List.seq List.flat_map List.app calls]. unfold calls in *.
  cbn [List.flat_map List.app]. now rewrite IH.
Qed.

(** X22.  With a negative [maxRetries] the loop of [retry] never runs:
    [fn] is not called, nothing is waited for, and what is thrown is the
    [undefined] that [lastError] still holds. *)
Theorem retry_without_attempts {A : Type} (fn : nat -> A + jserror)
  (o : retryOptions) :
  maxRetries (merge defaultConfig o) < 0 ->
  retry fn o = (Threw None, []).
Proof.
  intros H. unfold retry. rewrite retry_loop_eq.
  destruct (Z.leb_spec (Z.of_nat 0) (maxRetries (merge defaultConfig o)));
    [cbn in *; lia | reflexivity].
Qed.

Lemma retry_without_attempts_witness :
  retry fails_twice (mkRetryOptions (Some (-1)) None None None)
  = (Threw None, []).
Proof.
  apply (retry_without_attempts fails_twice
           (mkRetryOptions (Some (-1)) None None None)).
  cbn. lia.
Defined.

(** X23.  For every [fn] that returns, or throws an error object whose
    message is a string or is missing, [retry] ends: when [maxRetries] is
    not negative there is an attempt [n <= maxRetries] such that the
    attempts before it failed with errors that are retried, attempt [n]
    ended the loop (a value, an error that is not retried, or the last
    attempt), and the calls were 0 to [n] in order, each failed one
    followed by its wait.  The products of the waits are within what a
    double holds exactly. *)
Theorem retry_always_ends {A : Type} (fn : nat -> A + jserror)
  (o : retryOptions) :
  0 <= maxRetries (merge defaultConfig o) ->
  exact_waits (baseDelay (merge defaultConfig o))
    (maxDelay (merge defaultConfig o)) (backoffFactor (merge defaultConfig o))
    (Z.to_nat (maxRetries (merge defaultConfig o))) ->
  exists n res,
    Z.of_nat n <= maxRetries (merge defaultConfig o)
    /\ (forall i, (i < n)%nat ->
                  exists e, fn i = inr e /\ canRetry (classifyError e) = true)
    /\ ends_at fn (merge defaultConfig o) n res
    /\ retry fn o
       = (res, backoff_trace (merge defaultConfig o) 0 n ++ [Called n]).
Proof.
  intros Hmax _.
  destruct (ends_exists fn (merge defaultConfig o)
              (Z.to_nat (maxRetries (merge defaultConfig o))) 0%nat)
    as (n & res & Hn & Hpre & Hend); [cbn [Nat.add]; lia|].
  cbn [Nat.add] in *.
  assert (Hpre' : forall i, (i < n)%nat ->
                    exists e, fn i = inr e /\ canRetry (classifyError e) = true)
    by (intros i Hi; apply Hpre; lia).
  exists n, res. repeat split; [lia | assumption | assumption|].
  apply retry_ends; [assumption | lia | assumption].
Qed.

Lemma retry_always_ends_witness :
  exists n res,
    Z.of_nat n <= maxRetries (merge defaultConfig defaults)
    /\ (forall i, (i < n)%nat ->
                  exists e, fails_twice i = inr e
                            /\ canRetry (classifyError e) = true)
    /\ ends_at fails_twice (merge defaultConfig defaults) n res
    /\ retry fails_twice defaults
       = (res, backoff_trace (merge defaultConfig defaults) 0 n ++ [Called n]).
Proof.
  apply (retry_always_ends fails_twice defaults); [cbn; lia|].
  split; [cbn; lia|]. intros i Hi. change (Z.to_nat _) with 3%nat in Hi.
  destruct i as [|[|[|i]]]; [cbn; lia | cbn; lia | cbn; lia | lia].
Defined.

(** X24.  Whatever [fn] does, [retry] calls it at most [maxRetries + 1]
    times, with the attempts 0, 1, 2, ... in order, and waits no longer
    than [maxRetries * maxDelay] in all. *)
Theorem retry_is_bounded {A : Type} (fn : nat -> A + jserror)
  (o : retryOptions) :
  0 <= maxRetries (merge defaultConfig o) ->
  0 <= maxDelay (merge defaultConfig o) ->
  (exists n, calls (snd (retry fn o)) = List.seq 0 (S n)
             /\ Z.of_nat (S n) <= maxRetries (merge defaultConfig o) + 1)
  /\ total_wait (snd (retry fn o))
     <= maxRetries (merge defaultConfig o) * maxDelay (merge defaultConfig o).
Proof.
  intros Hmax Hd.
  destruct (ends_exists fn (merge defaultConfig o)
              (Z.to_nat (maxRetries (merge defaultConfig o))) 0%nat)
    as (n & res & Hn & Hpre & Hend); [cbn [Nat.add]; lia|].
  cbn [Nat.add] in *.
  rewrite (retry_ends fn o n res); [| intros i Hi; apply Hpre; lia | lia | assumption].
  cbn [snd]. split.
  - exists n. rewrite calls_backoff. split; [|lia].
    rewrite List.seq_S. reflexivity.
  - pose proof (total_wait_backoff (merge defaultConfig o) n 0 [Called n] Hd) as H.
    rewrite total_wait_called in H. change (total_wait []) with 0 in H.
    nia.
Qed.

Lemma retry_is_bounded_witness :
  (exists n, calls (snd (retry always_reverts defaults)) = List.seq 0 (S n)
             /\ Z.of_nat (S n) <= 3 + 1)
  /\ total_wait (snd (retry always_reverts defaults)) <= 3 * 10000.
Proof.
  apply (retry_is_bounded always_reverts defaults); cbn; lia.
Defined.

(** *** [classifyError], [getUserFriendlyMessage], [shouldIgnoreError] *)

Lemma lower_char_idem (c : ascii) : lower_char (lower_char c) = lower_char c.
Proof. destruct c as [[] [] [] [] [] [] [] []]; reflexivity. Qed.

Lemma toLowerCase_idem (s : string) : toLowerCase (toLowerCase s) = toLowerCase s.
Proof.
  induction s as [|c r IH]; [reflexivity|].
  cbn [toLowerCase]. now rewrite lower_char_idem, IH.
Qed.

(** X25.  [classifyError] does not look at the letter case of the
    message: an error and the same error with its message in lower case
    get the same type, [canRetry] and severity. *)
Theorem classifyError_ignores_case (m : string) (c : jsval) :
  classifyError (mkError (Some (toLowerCase m)) c)
  = classifyError (mkError (Some m) c).
Proof.
  unfold classifyError. cbn [message code]. now rewrite toLowerCase_idem.
Qed.

(** X26.  [getUserFriendlyMessage] finds an entry of [errorMessages] for
    every type [classifyError] gives (taking [_error] out of the type
    changes nothing), its title is that entry's title, and for the types
    other than contract and wallet its message is that entry's message,
    whatever the error says. *)
Theorem friendly_message_of_type (info : errorInfo) (e : jserror) :
  exists base,
    errorMessages (type_name (type info)) = Some base
    /\ exists r,
        getUserFriendlyMessage info e = Some r
        /\ title r = title base
        /\ (type info <> contract -> type info <> wallet -> r = base).
Proof.
  unfold getUserFriendlyMessage.
  destruct info as [ty cr sv]; cbn [type].
  destruct ty; cbn; eexists; (split; [reflexivity|]); eexists;
    (split; [reflexivity|]); (split; [reflexivity|]);
    intros Hc Hw; try reflexivity; contradiction.
Qed.

Lemma string_or_includes (x : string) (d sub : string) :
  sub <> EmptyString ->
  includes (toLowerCase x) sub = true ->
  string_or (Some x) d = x.
Proof.
  intros Hsub H. unfold string_or.
  destruct x as [|c r]; [|reflexivity].
  destruct sub as [|c' r']; [contradiction | discriminate].
Qed.

(** X27.  An error whose message mentions metamask, in any letter case, is
    never passed to [handleError] by the global listeners, whatever its
    stack and the file name; [classifyError] gives such an error the type
    wallet unless a network or contract word comes first. *)
Theorem metamask_errors_are_ignored (e : jserror) (m : string)
  (stack : option string) (toString filename : string) :
  message e = Some m ->
  includes (toLowerCase m) "metamask" = true ->
  listener_handles (Raised e stack toString) filename = false
  /\ In (type (classifyError e)) [network; contract; wallet].
Proof.
  intros Hm Hinc. split.
  - unfold listener_handles, shouldIgnoreError. rewrite Hm.
    rewrite (string_or_includes m toString "metamask") by (discriminate || assumption).
    match goal with
    | |- negb (if existsb ?f ?l then _ else _) = false =>
        assert (Hex : existsb f l = true)
    end.
    { apply existsb_exists. exists "metamask"%string. split.
      - unfold extensionPatterns. cbn. tauto.
      - change (toLowerCase "metamask") with "metamask"%string.
        now rewrite Hinc. }
    now rewrite Hex.
  - unfold classifyError. rewrite Hm. rewrite Hinc.
    destruct (_ || _ || _ || _); [cbn; auto|].
    destruct (_ || _ || _ || _); [cbn; auto|].
    rewrite orb_true_r. cbn. auto.
Qed.

Lemma metamask_errors_are_ignored_witness :
  listener_handles
    (Raised (mkError (Some "MetaMask is locked"%string) JUndefined) None
       "Error: MetaMask is locked") EmptyString
  = false
  /\ In (type (classifyError (mkError (Some "MetaMask is locked"%string) JUndefined)))
       [network; contract; wallet].
Proof.
  apply (metamask_errors_are_ignored
           (mkError (Some "MetaMask is locked"%string) JUndefined)
           "MetaMask is locked" None "Error: MetaMask is locked" EmptyString);
    reflexivity.
Defined.

End ErrorMore.

(* ================================================================== *)
(** ** The history of [StateManager] *)

Module HistoryFacts.
Import StateManager.

Local Open Scope Z_scope.

Lemma skipn_app_le {A : Type} (n : nat) (l l' : list A) :
  (n <= List.length l)%nat -> skipn n (l ++ l') = skipn n l ++ l'.
Proof.
  revert l. induction n as [|n IH]; intros [|x l] H; cbn in *;
    try reflexivity; try lia.
  apply IH. lia.
Qed.

Lemma tl_skipn {A : Type} (n : nat) (l : list A) :
  List.tl (skipn n l) = skipn (S n) l.
Proof.
  revert l. induction n as [|n IH]; intros [|x l]; try reflexivity.
  apply (IH l).
Qed.

Lemma history_from {A : Type} (max : nat) (entries : list A) :
  fold_left (addToHistory (Z.of_nat max)) entries []
  = skipn (List.length entries - max) entries.
Proof.
  induction entries as [|x seen IH] using List.rev_ind; [reflexivity|].
  rewrite List.fold_left_app. cbn [fold_left]. rewrite IH.
  unfold addToHistory. rewrite !List.length_app, List.length_skipn.
  cbn [List.length].
  destruct (Z.gtb_spec
              (Z.of_nat (List.length seen - (List.length seen - max) + 1))
              (Z.of_nat max)) as [Hgt|Hle].
  - rewrite <- skipn_app_le by lia. rewrite tl_skipn. f_equal. lia.
  - rewrite <- skipn_app_le by lia. f_equal. lia.
Qed.

(** X28.  The history holds the latest entries and no more than
    [maxHistorySize] of them: after any sequence of [addToHistory] on an
    empty history it is the sequence without its first
    [length - maxHistorySize] entries, in the order they were added. *)
Theorem history_keeps_latest {A : Type} (max : nat) (entries : list A) :
  fold_left (addToHistory (Z.of_nat max)) entries []
  = skipn (List.length entries - max) entries
  /\ (List.length (fold_left (addToHistory (Z.of_nat max)) entries [])
      <= max)%nat.
Proof.
  rewrite history_from. split; [reflexivity|].
  rewrite List.length_skipn. lia.
Qed.

End HistoryFacts.
